(** * The TAP free-energy minimizer of paysage (paysage/models/tap_machine.py)

    A shallow embedding of the [TAP_rbm] model: the Gamma functional family,
    its closed-form gradients, the backtracking gradient-descent minimizer,
    the gradient assembler with its persistent-sample pool, and the
    heat-capacity estimator.

    Conventions of the embedding.
    - Python floats are idealised as real numbers ([R]); every comparison and
      arithmetic operation of the source is kept, rounding is not modelled.
    - A one-dimensional tensor is a [list R]; a two-dimensional tensor is the
      list of its rows.  The backend raises on operands whose shapes do not
      fit; the embedding is meant for well-shaped operands ([shapes_ok],
      which the minimizer preserves).
    - Exceptions are values of [exn], carried by [result].
    - The process-wide random generator is an explicit stream of draws that
      is threaded through every function that may draw a seed. *)

From Stdlib Require Import Reals Lra Lia List ZArith Bool Sorted.
Import ListNotations.
Local Open Scope R_scope.

(** ** Exceptions *)

Inductive exn : Type :=
| ValueError
| AttributeError
| UnboundLocalError.

Inductive result (A : Type) : Type :=
| Ok (x : A)
| Raise (e : exn).
Arguments Ok {A} x.
Arguments Raise {A} e.

(** ** The tensor backend *)

Module be.

(** Modelled from the spec: the tensor backend (paysage.backends) is not
    among the sources; a rank-1 tensor of floats. *)
Definition tensor : Type := list R.

(** Modelled from the spec: the tensor backend is not among the sources; a
    rank-2 tensor, stored as the list of its rows. *)
Definition matrix : Type := list (list R).

(** Modelled from the spec: elementwise combination of two tensors of one
    shape (the backend's arithmetic is not among the sources). *)
Fixpoint map2 {A B C : Type} (f : A -> B -> C) (xs : list A) (ys : list B)
  : list C :=
  match xs, ys with
  | x :: xs', y :: ys' => f x y :: map2 f xs' ys'
  | _, _ => []
  end.

(** Modelled from the spec: [be.add] is missing from the sources;
    elementwise sum. *)
Definition add (x y : tensor) : tensor := map2 Rplus x y.

(** Modelled from the spec: [be.subtract] / the operator [-] on tensors is
    missing from the sources; elementwise difference. *)
Definition subtract (x y : tensor) : tensor := map2 Rminus x y.

(** Modelled from the spec: [be.multiply] is missing from the sources;
    elementwise product. *)
Definition multiply (x y : tensor) : tensor := map2 Rmult x y.

(** Modelled from the spec: [be.divide] is missing from the sources.  The
    backend's [divide(a, b)] divides its second argument by its first,
    elementwise: it returns [b / a]. *)
Definition divide (x y : tensor) : tensor := map2 (fun a b => b / a) x y.

(** Modelled from the spec: [be.square] is missing from the sources;
    elementwise square. *)
Definition square (x : tensor) : tensor := map (fun t => t * t) x.

(** Modelled from the spec: [be.log] is missing from the sources;
    elementwise natural logarithm. *)
Definition log (x : tensor) : tensor := map ln x.

(** Modelled from the spec: [be.expit] is missing from the sources; the
    elementwise logistic function. *)
Definition expit (x : tensor) : tensor := map (fun t => / (1 + exp (- t))) x.

(** Modelled from the spec: [be.tsum] is missing from the sources; the sum
    of all entries. *)
Definition tsum (x : tensor) : R := fold_right Rplus 0 x.

(** Modelled from the spec: the difference [c - x] of a Python scalar and a
    tensor (the backend is missing from the sources). *)
Definition rsub (c : R) (x : tensor) : tensor := map (fun t => c - t) x.

(** Modelled from the spec: the product [c * x] of a Python scalar and a
    tensor (the backend is missing from the sources). *)
Definition scal (c : R) (x : tensor) : tensor := map (fun t => c * t) x.

(** Modelled from the spec: the sum [x + c] of a tensor and a Python scalar
    (the backend is missing from the sources). *)
Definition addr (x : tensor) (c : R) : tensor := map (fun t => t + c) x.

(** Modelled from the spec: the unary minus [- x] on a tensor (the backend
    is missing from the sources). *)
Definition neg (x : tensor) : tensor := map Ropp x.

(** Modelled from the spec: [be.dot] on two rank-1 tensors is missing from
    the sources; the inner product. *)
Definition dot (x y : tensor) : R := tsum (multiply x y).

(** Modelled from the spec: [be.dot] on a matrix and a vector is missing
    from the sources; one inner product per row. *)
Definition dot_mv (w : matrix) (x : tensor) : tensor :=
  map (fun row => dot row x) w.

(** Modelled from the spec: the shape of a rank-2 tensor; the column count
    is read off the first row. *)
Definition ncols (w : matrix) : nat := length (hd [] w).

(** Modelled from the spec: column [j] of a rank-2 tensor, [w[:, j]]. *)
Definition col (j : nat) (w : matrix) : tensor := map (fun row => nth j row 0) w.

(** Modelled from the spec: [be.transpose] is missing from the sources. *)
Definition transpose (w : matrix) : matrix :=
  map (fun j => col j w) (seq 0 (ncols w)).

(** Modelled from the spec: [be.dot] on a vector and a matrix is missing
    from the sources; one inner product per column. *)
Definition dot_vm (x : tensor) (w : matrix) : tensor :=
  map (fun c => dot x c) (transpose w).

(** Modelled from the spec: [be.dot] on two matrices is missing from the
    sources; the matrix product. *)
Definition dot_mm (x y : matrix) : matrix := map (fun row => dot_vm row y) x.

(** Modelled from the spec: [be.square] on a rank-2 tensor (the backend is
    missing from the sources). *)
Definition square_m (w : matrix) : matrix := map square w.

(** Modelled from the spec: [be.multiply] on rank-2 tensors of one shape
    (the backend is missing from the sources). *)
Definition multiply_m (x y : matrix) : matrix := map2 multiply x y.

(** Modelled from the spec: the sum [x + y] of rank-2 tensors of one shape
    (the backend is missing from the sources). *)
Definition add_m (x y : matrix) : matrix := map2 add x y.

(** Modelled from the spec: the difference [x - y] of rank-2 tensors of one
    shape (the backend is missing from the sources). *)
Definition subtract_m (x y : matrix) : matrix := map2 subtract x y.

(** Modelled from the spec: the unary minus on a rank-2 tensor (the backend
    is missing from the sources). *)
Definition neg_m (w : matrix) : matrix := map neg w.

(** Modelled from the spec: the product [c * w] of a Python scalar and a
    rank-2 tensor (the backend is missing from the sources). *)
Definition scal_m (c : R) (w : matrix) : matrix := map (scal c) w.

(** Modelled from the spec: [be.tsum] on a rank-2 tensor (the backend is
    missing from the sources); the sum of all entries. *)
Definition tsum_m (w : matrix) : R := tsum (map tsum w).

(** Modelled from the spec: the quotient [x / c] of a rank-2 tensor and a
    Python scalar (the backend is missing from the sources). *)
Definition divr_m (x : matrix) (c : R) : matrix :=
  map (map (fun t => t / c)) x.

(** Modelled from the spec: [be.expit] on a rank-2 tensor (the backend is
    missing from the sources). *)
Definition expit_m (x : matrix) : matrix := map expit x.

(** Modelled from the spec: [be.outer] is missing from the sources. *)
Definition outer (x y : tensor) : matrix := map (fun s => scal s y) x.

(** Modelled from the spec: [be.multiply (be.unsqueeze x 1) w], the
    broadcast of a column against a matrix: row [i] is scaled by [x_i]. *)
Definition multiply_col (x : tensor) (w : matrix) : matrix := map2 scal x w.

(** Modelled from the spec: [be.multiply (be.unsqueeze y 0) w], the
    broadcast of a row against a matrix: column [j] is scaled by [y_j]. *)
Definition multiply_row (y : tensor) (w : matrix) : matrix :=
  map (fun row => multiply y row) w.

(** Modelled from the spec: [be.add (be.unsqueeze b 0) x], the broadcast of
    a row added to every row of a matrix. *)
Definition add_row (y : tensor) (w : matrix) : matrix :=
  map (fun row => add y row) w.

(** Modelled from the spec: [be.mean x axis=0] is missing from the sources;
    the mean of every column. *)
Definition mean_axis0 (x : matrix) : tensor :=
  map (fun c => tsum c / INR (length x)) (transpose x).

(** Modelled from the spec: [be.clip_inplace] is missing from the sources;
    numpy's clip, [minimum (a_max, maximum (x, a_min))], here returning the
    clipped tensor that the source leaves in the clipped array. *)
Definition clip1 (a_min a_max t : R) : R := Rmin a_max (Rmax t a_min).

(** Modelled from the spec: [be.clip_inplace] on a rank-1 tensor, entry by
    entry. *)
Definition clip (x : tensor) (a_min a_max : R) : tensor :=
  map (clip1 a_min a_max) x.

(** Modelled from the spec: the process-wide random generator behind
    [be.rand]; the stream of its future draws. *)
Definition rng : Type := nat -> R.

(** Modelled from the spec: [be.rand((n,))] is missing from the sources; it
    takes the next [n] draws and leaves the rest of the stream. *)
Definition rand (n : nat) (g : rng) : tensor * rng :=
  (map g (seq 0 n), fun k => g (n + k)%nat).

(** Modelled from the spec: [be.mean] without an axis is missing from the
    sources; the mean of all entries of a rank-1 tensor. *)
Definition mean (x : tensor) : R := tsum x / INR (length x).

(** Modelled from the spec: [be.mean] without an axis on a rank-2 tensor
    (the backend is missing from the sources); the mean of all entries. *)
Definition mean_m (w : matrix) : R := tsum_m w / INR (length (concat w)).

End be.

Import be.

(** ** Data model *)

Record Magnetization : Type := mkMagnetization { v : tensor; h : tensor }.

(** Modelled from the spec: the base class [model.Model] is not among the
    sources; of what it holds, the record keeps the weight matrix and the
    two bias vectors that the TAP code reads.  The other fields are the
    ones [TAP_rbm.__init__] sets. *)
Record TAP_rbm : Type := mkTAP_rbm {
  weights_0 : matrix;          (* self.weights[0].params.matrix *)
  layers_0 : tensor;           (* self.layers[0].params.loc *)
  layers_1 : tensor;           (* self.layers[1].params.loc *)
  tolerance_EMF : R;
  max_iters_EMF : Z;
  init_lr_EMF : R;
  persistent_samples : list (option Magnetization);
  tap_seed : option Magnetization;
  terms : Z
}.

(** [w] is an [n_v] x [n_h] matrix.  A list of rows does not record the
    width of a matrix without rows, so there is a visible unit. *)
Definition is_shape (n_v n_h : nat) (w : matrix) : Prop :=
  (0 < n_v)%nat /\ length w = n_v /\ Forall (fun row => length row = n_h) w.

(** The shapes the backend accepts: [w] is [n_v] x [n_h], [a] and [m.v] have
    [n_v] entries, [b] and [m.h] have [n_h] entries. *)
Definition shapes_ok (n_v n_h : nat) (w : matrix) (a b : tensor)
  (m : Magnetization) : Prop :=
  is_shape n_v n_h w /\
  length a = n_v /\ length b = n_h /\
  length (v m) = n_v /\ length (h m) = n_h.

(** ** Construction *)

(** [TAP_rbm.__init__]; [params] stands for what the base-class constructor
    makes of [layer_list]. *)
Definition TAP_rbm_init (params : matrix * tensor * tensor) (terms : Z)
  (init_lr_EMF tolerance_EMF : R) (max_iters_EMF : Z)
  (num_persistent_samples : Z) : result TAP_rbm :=
  let '(w, a, b) := params in
  let persistent_samples := repeat None (Z.to_nat num_persistent_samples) in
  if negb (terms =? 1)%Z && negb (terms =? 2)%Z && negb (terms =? 3)%Z then
    Raise ValueError
  else
    Ok (mkTAP_rbm w a b tolerance_EMF max_iters_EMF init_lr_EMF
          persistent_samples None terms).

(** ** The Gamma functional family *)

(** The entropy sum shared by the functionals:
    [be.tsum (m * log m + (1 - m) * log (1 - m))]. *)
Definition entropy_sum (x : tensor) : R :=
  tsum (add (multiply x (log x)) (multiply (rsub 1.0 x) (log (rsub 1.0 x)))).

Definition gamma_MF (self : TAP_rbm) (m : Magnetization) : R :=
  let w := weights_0 self in
  let a := layers_0 self in
  let b := layers_1 self in
  entropy_sum (v m) + entropy_sum (h m)
  - dot a (v m) - dot b (h m) - dot (v m) (add a (dot_mv w (h m))).

Definition gamma_TAP2 (self : TAP_rbm) (m : Magnetization) : R :=
  let w := weights_0 self in
  let a := layers_0 self in
  let b := layers_1 self in
  let m_v_quad := subtract (v m) (square (v m)) in
  let m_h_quad := subtract (h m) (square (h m)) in
  let ww := square_m w in
  entropy_sum (v m) + entropy_sum (h m)
  - dot b (h m) - dot (v m) (add a (dot_mv w (h m)))
  - 0.5 * dot m_v_quad (dot_mv ww m_h_quad).

Definition gamma_TAP3 (self : TAP_rbm) (m : Magnetization) : R :=
  let w := weights_0 self in
  let a := layers_0 self in
  let b := layers_1 self in
  let m_v_quad := subtract (v m) (square (v m)) in
  let m_h_quad := subtract (h m) (square (h m)) in
  let ww := square_m w in
  let www := multiply_m ww w in
  let alias1 := multiply (rsub 0.5 (v m)) m_v_quad in   (* a column *)
  let alias2 := multiply (rsub 0.5 (h m)) m_h_quad in   (* a row *)
  entropy_sum (v m) + entropy_sum (h m)
  - dot b (h m) - dot (v m) (add a (dot_mv w (h m)))
  - 0.5 * dot m_v_quad (dot_mv ww m_h_quad)
  - (4.0 / 3.0) * tsum_m (multiply_row alias2 (multiply_col alias1 www)).

(** ** The closed-form gradients with respect to the magnetization *)

Definition grad_v_gamma_MF (m : Magnetization) (w : matrix) (a : tensor)
  : tensor :=
  subtract (subtract (log (divide (rsub 1.0 (v m)) (v m))) a)
           (dot_mv w (h m)).

Definition grad_h_gamma_MF (m : Magnetization) (w : matrix) (b : tensor)
  : tensor :=
  subtract (subtract (log (divide (rsub 1.0 (h m)) (h m))) b)
           (dot_vm (v m) w).

Definition grad_v_gamma_TAP2 (m : Magnetization) (w : matrix) (a : tensor)
  : tensor :=
  let m_h_quad := subtract (h m) (square (h m)) in
  let ww := square_m w in
  subtract
    (subtract (subtract (log (divide (rsub 1.0 (v m)) (v m))) a)
              (dot_mv w (h m)))
    (multiply (rsub 0.5 (v m)) (dot_mv ww m_h_quad)).

Definition grad_h_gamma_TAP2 (m : Magnetization) (w : matrix) (b : tensor)
  : tensor :=
  let m_v_quad := subtract (v m) (square (v m)) in
  let ww := square_m w in
  subtract
    (subtract (subtract (log (divide (rsub 1.0 (h m)) (h m))) b)
              (dot_vm (v m) w))
    (multiply (dot_vm m_v_quad ww) (rsub 0.5 (h m))).

Definition grad_v_gamma_TAP3 (m : Magnetization) (w : matrix) (a : tensor)
  : tensor :=
  let m_h_quad := subtract (h m) (square (h m)) in
  let ww := square_m w in
  let www := multiply_m ww w in
  subtract
    (subtract
       (subtract (subtract (log (divide (rsub 1.0 (v m)) (v m))) a)
                 (dot_mv w (h m)))
       (multiply (rsub 0.5 (v m)) (dot_mv ww m_h_quad)))
    (scal (4.0 / 3.0)
       (multiply
          (add (rsub 0.5 (scal 3.0 (v m)))
               (scal 3.0 (square (v m))))
          (dot_mv www (multiply (rsub 0.5 (h m)) m_h_quad)))).

Definition grad_h_gamma_TAP3 (m : Magnetization) (w : matrix) (b : tensor)
  : tensor :=
  let m_v_quad := subtract (v m) (square (v m)) in
  let ww := square_m w in
  let www := multiply_m ww w in
  subtract
    (subtract
       (subtract (subtract (log (divide (rsub 1.0 (h m)) (h m))) b)
                 (dot_vm (v m) w))
       (multiply (dot_vm m_v_quad ww) (rsub 0.5 (h m))))
    (scal (4.0 / 3.0)
       (multiply
          (dot_vm (multiply (rsub 0.5 (v m)) m_v_quad) www)
          (add (rsub 0.5 (scal 3.0 (h m)))
               (scal 3.0 (square (h m)))))).

(** ** The free-energy minimizer *)

(** The clip bound [eps] of the descent loops. *)
Definition eps : R := 1e-6.

(** The local variables a descent loop updates: [lr], [m] and [gam]. *)
Definition gd_state : Type := (R * Magnetization * R)%type.

Definition st_lr (s : gd_state) : R := fst (fst s).
Definition st_m (s : gd_state) : Magnetization := snd (fst s).
Definition st_gam (s : gd_state) : R := snd s.

(** How one pass through a loop body ends: at the loop head again, or at a
    [break]. *)
Inductive flow : Type := Next | Break.

Section minimize_gamma_GD.

(** The three local names [minimize_gamma_GD] binds from [terms], and the
    arguments of the enclosing call. *)
Variable gamma : Magnetization -> R.
Variables grad_v_gamma grad_h_gamma : Magnetization -> matrix -> tensor -> tensor.
Variable w : matrix.
Variables a b : tensor.
Variable tol : R.

(** The provisional point of one iteration, after both [clip_inplace]
    calls. *)
Definition m_provisional (lr : R) (m : Magnetization) : Magnetization :=
  mkMagnetization
    (clip (subtract (v m) (scal lr (grad_v_gamma m w a))) eps (1.0 - eps))
    (clip (subtract (h m) (scal lr (grad_h_gamma m w b))) eps (1.0 - eps)).

(** The body of the [while] loop of [minimize_gamma_GD]. *)
Definition gd_body (s : gd_state) : flow * gd_state :=
  let '(lr, m, gam) := s in
  let m_prov := m_provisional lr m in
  let gam_provisional := gamma m_prov in
  if Rlt_dec (gam - gam_provisional) 0 then
    let lr := lr * 0.5 in
    if Rlt_dec lr 1e-10 then (Break, (lr, m, gam)) else (Next, (lr, m, gam))
  else if Rlt_dec (gam - gam_provisional) tol then
    (Break, (lr, m, gam))
  else
    (Next, (lr, m_prov, gam_provisional)).

(** [while (its < max_iters)]: [n] is [max_iters - its], the number of
    passes that are left. *)
Fixpoint gd_while (n : nat) (s : gd_state) : gd_state :=
  match n with
  | O => s
  | S n' =>
      match gd_body s with
      | (Break, s') => s'
      | (Next, s') => gd_while n' s'
      end
  end.

(** The same loop, recording the locals at every loop head and at the
    exit. *)
Fixpoint gd_trace (n : nat) (s : gd_state) : list gd_state :=
  s :: match n with
       | O => []
       | S n' =>
           match gd_body s with
           | (Break, s') => [s']
           | (Next, s') => gd_trace n' s'
           end
       end.

End minimize_gamma_GD.

(** The [if terms == 1 ... elif terms == 2 ... elif terms == 3] chain at the
    head of [minimize_gamma_GD]; with any other [terms] the three names stay
    unbound. *)
Definition bind_gamma (self : TAP_rbm) (terms : Z)
  : option ((Magnetization -> R)
            * (Magnetization -> matrix -> tensor -> tensor)
            * (Magnetization -> matrix -> tensor -> tensor)) :=
  if (terms =? 1)%Z then
    Some (gamma_MF self, grad_v_gamma_MF, grad_h_gamma_MF)
  else if (terms =? 2)%Z then
    Some (gamma_TAP2 self, grad_v_gamma_TAP2, grad_h_gamma_TAP2)
  else if (terms =? 3)%Z then
    Some (gamma_MF self, grad_v_gamma_TAP3, grad_h_gamma_TAP3)
  else None.

Definition minimize_gamma_GD (self : TAP_rbm) (w : matrix) (a b : tensor)
  (m : Magnetization) (init_lr tol : R) (max_iters terms : Z)
  : result (Magnetization * R) :=
  match bind_gamma self terms with
  | None => Raise UnboundLocalError
  | Some (gamma, grad_v_gamma, grad_h_gamma) =>
      let lr := init_lr in
      let gam := gamma m in
      let '(_, m, gam) :=
        gd_while gamma grad_v_gamma grad_h_gamma w a b tol
                 (Z.to_nat max_iters) (lr, m, gam) in
      Ok (m, gam)
  end.

(** The random seed drawn when [seed == None]. *)
Definition random_seed (a b : tensor) (g : rng) : Magnetization * rng :=
  let num_visible_units := length a in
  let num_hidden_units := length b in
  let '(r_v, g) := rand num_visible_units g in
  let '(r_h, g) := rand num_hidden_units g in
  (mkMagnetization (addr (scal 0.99 r_v) 0.005) (addr (scal 0.99 r_h) 0.005), g).

Definition gibbs_free_energy (self : TAP_rbm) (seed : option Magnetization)
  (init_lr tol : R) (max_iters terms : Z) (g : rng)
  : result (Magnetization * R) * rng :=
  if negb (terms =? 1)%Z && negb (terms =? 2)%Z && negb (terms =? 3)%Z then
    (Raise ValueError, g)
  else
    let w := weights_0 self in
    let a := layers_0 self in
    let b := layers_1 self in
    let '(seed, g) :=
      match seed with
      | None => random_seed a b g
      | Some s => (s, g)
      end in
    (minimize_gamma_GD self w a b seed init_lr tol max_iters terms, g).

(** ** Parameter-space gradients *)

Definition grad_a_gamma (m : Magnetization) (w : matrix) (a b : tensor)
  : tensor := neg (v m).

Definition grad_b_gamma (m : Magnetization) (w : matrix) (a b : tensor)
  : tensor := neg (h m).

Definition grad_w_gamma_MF (m : Magnetization) (w : matrix) (a b : tensor)
  : matrix := neg_m (outer (v m) (h m)).

Definition grad_w_gamma_TAP2 (m : Magnetization) (w : matrix) (a b : tensor)
  : matrix :=
  let m_v_quad := subtract (v m) (square (v m)) in
  let m_h_quad := subtract (h m) (square (h m)) in
  subtract_m (neg_m (outer (v m) (h m)))
             (multiply_m w (outer m_v_quad m_h_quad)).

Definition grad_w_gamma_TAP3 (m : Magnetization) (w : matrix) (a b : tensor)
  : matrix :=
  let m_v_quad := subtract (v m) (square (v m)) in
  let m_h_quad := subtract (h m) (square (h m)) in
  let ww := square_m w in
  subtract_m
    (subtract_m (neg_m (outer (v m) (h m)))
                (multiply_m w (outer m_v_quad m_h_quad)))
    (scal_m 4.0
       (multiply_m ww (outer (multiply (rsub 0.5 (v m)) m_v_quad)
                             (multiply (rsub 0.5 (h m)) m_h_quad)))).

(** ** The gradient assembler *)

(** [gradient_util.Gradient]: one entry per layer and per weight object,
    [None] until it is filled.  The parameter wrappers of [layers], which
    are not among the sources, are left out: an entry is the tensor they
    would wrap. *)
Record Gradient : Type := mkGradient {
  layers : list (option tensor);
  weights : list (option matrix)
}.

(** The [for s in range(len(self.persistent_samples))] loop of [gradient]:
    [slots] are the slots not yet visited; the locals [EMF], [best_EMF] and
    [m] travel in [st].  The result carries the slots as the loop leaves
    them. *)
Fixpoint persistent_loop (self : TAP_rbm)
  (slots : list (option Magnetization))
  (st : R * R * option Magnetization) (g : rng)
  : result (R * R * option Magnetization) * list (option Magnetization) * rng :=
  match slots with
  | [] => (Ok st, [], g)
  | seed :: rest =>
      let '(EMF, best_EMF, m) := st in
      match gibbs_free_energy self seed (init_lr_EMF self)
              (tolerance_EMF self) (max_iters_EMF self) (terms self) g with
      | (Raise e, g) => (Raise e, seed :: rest, g)
      | (Ok (sample, EMF), g) =>
          let st :=
            if Rlt_dec EMF best_EMF then (EMF, EMF, Some sample)
            else (EMF, best_EMF, m) in
          let '(r, rest, g) := persistent_loop self rest st g in
          (r, Some sample :: rest, g)
      end
  end.

(** The first half of [gradient]: the TAP approximation to the Gibbs free
    energy, from a random seed or from the persistent seeds.  It yields the
    locals [m] and [EMF] and the pool as the call leaves it. *)
Definition gradient_EMF (self : TAP_rbm) (g : rng)
  : result (option Magnetization * R) * list (option Magnetization) * rng :=
  let EMF := 1e6 in
  let m : option Magnetization := None in
  if (length (persistent_samples self) =? 0)%nat then
    match gibbs_free_energy self m (init_lr_EMF self) (tolerance_EMF self)
            (max_iters_EMF self) (terms self) g with
    | (Raise e, g) => (Raise e, persistent_samples self, g)
    | (Ok (m, EMF), g) => (Ok (Some m, EMF), persistent_samples self, g)
    end
  else
    let best_EMF := 1e7 in
    match persistent_loop self (persistent_samples self) (EMF, best_EMF, m) g with
    | (Raise e, pool, g) => (Raise e, pool, g)
    | (Ok (EMF, _, m), pool, g) => (Ok (m, EMF), pool, g)
    end.

(** [self] with its pool replaced. *)
Definition with_persistent_samples (self : TAP_rbm)
  (pool : list (option Magnetization)) : TAP_rbm :=
  mkTAP_rbm (weights_0 self) (layers_0 self) (layers_1 self)
            (tolerance_EMF self) (max_iters_EMF self) (init_lr_EMF self)
            pool (tap_seed self) (terms self).

(** [gradient]; [units_0] is [data_state.units[0]], one row per observation.
    The model is returned as the call leaves it, also when it raises. *)
Definition gradient (self : TAP_rbm) (units_0 : matrix) (g : rng)
  : result Gradient * TAP_rbm * rng :=
  let w := weights_0 self in
  let a := layers_0 self in
  let b := layers_1 self in
  let grad_w_gamma :=
    if (terms self =? 1)%Z then Some grad_w_gamma_MF
    else if (terms self =? 2)%Z then Some grad_w_gamma_TAP2
    else if (terms self =? 3)%Z then Some grad_w_gamma_TAP3
    else None in
  let '(r, pool, g) := gradient_EMF self g in
  let self := with_persistent_samples self pool in
  match r with
  | Raise e => (Raise e, self, g)
  | Ok (m, EMF) =>
      match grad_w_gamma with
      | None => (Raise UnboundLocalError, self, g)
      | Some grad_w_gamma =>
          match m with
          | None => (Raise AttributeError, self, g)
          | Some m =>
              let dw_EMF := grad_w_gamma m w a b in
              let da_EMF := grad_a_gamma m w a b in
              let db_EMF := grad_b_gamma m w a b in
              let intermediate := expit_m (add_row b (dot_mm units_0 w)) in
              let da := mean_axis0 units_0 in
              let db := mean_axis0 intermediate in
              let batch_size := INR (length units_0) in
              let dw :=
                divr_m (dot_mm (transpose units_0) intermediate) batch_size in
              (Ok (mkGradient [Some (add da da_EMF); Some (add db db_EMF)]
                              [Some (add_m dw dw_EMF)]),
               self, g)
          end
      end
  end.

(** ** The heat-capacity estimator *)

Definition grad_beta_beta_TAP3 (self : TAP_rbm) (m : Magnetization) : R :=
  let w := weights_0 self in
  let m_v_quad := subtract (v m) (square (v m)) in
  let m_h_quad := subtract (h m) (square (h m)) in
  let www := multiply_m (square_m w) w in
  let alias1 := multiply (rsub 0.5 (v m)) m_v_quad in   (* a column *)
  let alias2 := multiply (rsub 0.5 (h m)) m_h_quad in   (* a row *)
  2 * (entropy_sum (v m) + entropy_sum (h m)
       - (4.0 / 3.0) * tsum_m (multiply_row alias2 (multiply_col alias1 www))).

(** The local functions [grad_v] and [grad_h] of [heat_capacity]. *)
Definition heat_capacity_grad_v (m : Magnetization) (w : matrix) (a : tensor)
  : tensor :=
  let m_h_quad := subtract (h m) (square (h m)) in
  let ww := square_m w in
  let www := multiply_m ww w in
  scal 2
    (subtract
       (log (divide (rsub 1.0 (v m)) (v m)))
       (scal (4.0 / 3.0)
          (multiply
             (add (rsub 0.5 (scal 3.0 (v m))) (scal 3.0 (square (v m))))
             (dot_mv www (multiply (rsub 0.5 (h m)) m_h_quad))))).

Definition heat_capacity_grad_h (m : Magnetization) (w : matrix) (b : tensor)
  : tensor :=
  let m_v_quad := subtract (v m) (square (v m)) in
  let ww := square_m w in
  let www := multiply_m ww w in
  scal 2
    (subtract
       (log (divide (rsub 1.0 (h m)) (h m)))
       (scal (4.0 / 3.0)
          (multiply
             (dot_vm (multiply (rsub 0.5 (v m)) m_v_quad) www)
             (add (rsub 0.5 (scal 3.0 (h m))) (scal 3.0 (square (h m))))))).

(** The [while] loop of [minimize_GD], the local function of
    [heat_capacity]; [n] is [max_iters - its]. *)
Fixpoint minimize_GD_while (self : TAP_rbm) (w : matrix) (a b : tensor)
  (tol : R) (n : nat) (lr : R) (m : Magnetization) (gam : R) : R :=
  match n with
  | O => gam
  | S n' =>
      let m_provisional :=
        mkMagnetization
          (clip (subtract (v m) (scal lr (heat_capacity_grad_v m w a)))
                eps (1.0 - eps))
          (clip (subtract (h m) (scal lr (heat_capacity_grad_h m w b)))
                eps (1.0 - eps)) in
      let gam_provisional := grad_beta_beta_TAP3 self m_provisional in
      if Rlt_dec (gam - gam_provisional) 0 then
        let lr := lr * 0.5 in
        if Rlt_dec lr 1e-10 then gam
        else minimize_GD_while self w a b tol n' lr m gam
      else if Rlt_dec (gam - gam_provisional) tol then gam
      else minimize_GD_while self w a b tol n' lr m_provisional gam_provisional
  end.

Definition minimize_GD (self : TAP_rbm) (w : matrix) (a b : tensor)
  (m : Magnetization) (init_lr tol : R) (max_iters : Z) : R :=
  let lr := init_lr in
  let gam := grad_beta_beta_TAP3 self m in
  minimize_GD_while self w a b tol (Z.to_nat max_iters) lr m gam.

Definition heat_capacity (self : TAP_rbm) (seed : option Magnetization)
  (init_lr tol : R) (max_iters : Z) (g : rng) : R * rng :=
  let w := weights_0 self in
  let a := layers_0 self in
  let b := layers_1 self in
  let '(seed, g) :=
    match seed with
    | None => random_seed a b g
    | Some s => (s, g)
    end in
  (- minimize_GD self w a b seed init_lr tol max_iters, g).

(** ** gradient_util.py *)

(** The exceptions of the utility and metric code. *)
Inductive util_exn : Type :=
| IndexError
| ZeroDivisionError
| MathDomainError.   (* ValueError: math domain error *)

(** [l[i]] on a Python list, for an index that is not negative. *)
Definition index {A : Type} (l : list A) (i : nat) : util_exn + A :=
  match nth_error l i with
  | Some x => inr x
  | None => inl IndexError
  end.

(** A list comprehension [[f(i) for i in idx]] whose body may raise. *)
Fixpoint comprehension {A : Type} (f : nat -> util_exn + A) (idx : list nat)
  : util_exn + list A :=
  match idx with
  | [] => inr []
  | i :: rest =>
      match f i with
      | inl e => inl e
      | inr x =>
          match comprehension f rest with
          | inl e => inl e
          | inr xs => inr (x :: xs)
          end
      end
  end.

(** [math.sqrt], which raises on a negative argument. *)
Definition math_sqrt (x : R) : util_exn + R :=
  if Rlt_dec x 0 then inl MathDomainError else inr (sqrt x).

(** The entry at index [i] replaced; the list is left as it is when [i] is
    out of range. *)
Fixpoint set_nth {A : Type} (i : nat) (x : A) (l : list A) : list A :=
  match l, i with
  | [], _ => []
  | _ :: l', O => x :: l'
  | y :: l', S i' => y :: set_nth i' x l'
  end.

(** A loop [for i in idx: mapzip_(func_, xs[i], ys[i])], where the call
    leaves [f x y] in the object [xs[i]]: the exception that ends it, if
    any, and [xs] as the loop leaves it.  The entries of [xs] and [ys] are
    taken to be different objects. *)
Fixpoint mapzip_loop_ {A : Type} (f : A -> A -> A) (idx : list nat)
  (xs ys : list A) : option util_exn * list A :=
  match idx with
  | [] => (None, xs)
  | i :: rest =>
      match index xs i with
      | inl e => (Some e, xs)
      | inr x =>
          match index ys i with
          | inl e => (Some e, xs)
          | inr y => mapzip_loop_ f rest (set_nth i (f x y) xs) ys
          end
      end
  end.

Section gradient_util.

(** The backend functions that walk the fields of one parameter object are
    not among the sources; they are taken as given, for a layer entry and
    for a weight entry.  [Func] is the type of the callables handed to
    them. *)
Variable Func : Type.
Variable be_fold_l : Func -> option tensor -> R.
Variable be_fold_w : Func -> option matrix -> R.
Variable be_accumulate_l : Func -> option tensor -> R.
Variable be_accumulate_w : Func -> option matrix -> R.
Variable be_apply_l : Func -> option tensor -> option tensor.
Variable be_apply_w : Func -> option matrix -> option matrix.
Variable be_mapzip_l : Func -> option tensor -> option tensor -> option tensor.
Variable be_mapzip_w : Func -> option matrix -> option matrix -> option matrix.

Definition grad_fold (func : Func) (grad : Gradient) : R :=
  let result := 0 in
  let result :=
    fold_left (fun _ ly => be_fold_l func ly) (layers grad) result in
  let result :=
    fold_left (fun _ w => be_fold_w func w) (weights grad) result in
  result.

Definition grad_accumulate (func : Func) (grad : Gradient) : R :=
  let result := 0 in
  let result :=
    fold_left (fun _ ly => be_accumulate_l func ly) (layers grad) result in
  let result :=
    fold_left (fun _ w => be_accumulate_w func w) (weights grad) result in
  result.

Definition grad_apply (func : Func) (grad : Gradient) : Gradient :=
  mkGradient (map (be_apply_l func) (layers grad))
             (map (be_apply_w func) (weights grad)).

Definition grad_mapzip (func : Func) (grad1 grad2 : Gradient)
  : util_exn + Gradient :=
  let n := length (layers grad1) in
  let m := length (weights grad1) in
  match comprehension
          (fun i =>
             match index (layers grad1) i with
             | inl e => inl e
             | inr x =>
                 match index (layers grad2) i with
                 | inl e => inl e
                 | inr y => inr (be_mapzip_l func x y)
                 end
             end) (seq 0 n) with
  | inl e => inl e
  | inr ls =>
      match comprehension
              (fun i =>
                 match index (weights grad1) i with
                 | inl e => inl e
                 | inr x =>
                     match index (weights grad2) i with
                     | inl e => inl e
                     | inr y => inr (be_mapzip_w func x y)
                     end
                 end) (seq 0 m) with
      | inl e => inl e
      | inr ws => inr (mkGradient ls ws)
      end
  end.

(** [grad_magnitude]; [tensor_mean_square] is [compose(be.mean, be.square)]. *)
Definition grad_magnitude (tensor_mean_square : Func) (grad : Gradient)
  : util_exn + R :=
  let n := (length (layers grad) + length (weights grad))%nat in
  let total := grad_accumulate tensor_mean_square grad in
  if (n =? 0)%nat then inl ZeroDivisionError
  else math_sqrt (total / INR n).

(** The in-place backend functions, by what they leave in their first
    argument. *)
Variable be_apply_l_ : Func -> option tensor -> option tensor.
Variable be_apply_w_ : Func -> option matrix -> option matrix.
Variable be_mapzip_l_ : Func -> option tensor -> option tensor -> option tensor.
Variable be_mapzip_w_ : Func -> option matrix -> option matrix -> option matrix.

(** [grad_apply_]: the gradient as the in-place calls leave it. *)
Definition grad_apply_ (func_ : Func) (grad : Gradient) : Gradient :=
  mkGradient (map (be_apply_l_ func_) (layers grad))
             (map (be_apply_w_ func_) (weights grad)).

(** [grad_mapzip_]: the exception it ends with, if any, and [grad1] as the
    call leaves it. *)
Definition grad_mapzip_ (func_ : Func) (grad1 grad2 : Gradient)
  : option util_exn * Gradient :=
  let n := length (layers grad1) in
  let m := length (weights grad1) in
  match mapzip_loop_ (be_mapzip_l_ func_) (seq 0 n) (layers grad1)
                     (layers grad2) with
  | (Some e, ls) => (Some e, mkGradient ls (weights grad1))
  | (None, ls) =>
      let '(e, ws) :=
        mapzip_loop_ (be_mapzip_w_ func_) (seq 0 m) (weights grad1)
                     (weights grad2) in
      (e, mkGradient ls ws)
  end.

End gradient_util.

(** A callable handed to the backend, by what it returns on a rank-1 and on
    a rank-2 tensor. *)
Record callable : Type := mkCallable {
  on_tensor : tensor -> R;
  on_matrix : matrix -> R
}.

(** [tensor_mean_square = compose(be.mean, be.square)] of
    [grad_magnitude]: the square first, then the mean. *)
Definition tensor_mean_square : callable :=
  mkCallable (fun x => mean (square x)) (fun w => mean_m (square_m w)).

(** ** metrics.py *)

(** [MetricState]; a state is held by its first tensor, [units[0]], one row
    per sample (the class of the states is not among the sources). *)
Record MetricState : Type := mkMetricState {
  minibatch : matrix;
  reconstructions : matrix;
  random_samples : matrix;
  samples : matrix;
  amodel : TAP_rbm
}.

Module ReconstructionError.

Record t : Type := mk { mean_square_error : R; norm : nat }.

Definition init : t := mk 0 0.

Definition reset (self : t) : t := mk 0 0.

Definition update (self : t) (update_args : MetricState) : t :=
  let norm := (norm self + length (minibatch update_args))%nat in
  let mean_square_error :=
    mean_square_error self
    + tsum_m (square_m (subtract_m (minibatch update_args)
                                   (reconstructions update_args))) in
  mk mean_square_error norm.

Definition value (self : t) : util_exn + option R :=
  if (norm self =? 0)%nat then inr None
  else
    match math_sqrt (mean_square_error self / INR (norm self)) with
    | inl e => inl e
    | inr r => inr (Some r)
    end.

End ReconstructionError.

Module EnergyDistance.

Record t : Type := mk { energy_distance : R; norm : nat; downsample : Z }.

Definition init (downsample : Z) : t := mk 0 0 100.

Definition reset (self : t) : t := mk 0 0 (downsample self).

Section update.

(** [be.fast_energy_distance] is not among the sources. *)
Variable fast_energy_distance : matrix -> matrix -> Z -> R.

Definition update (self : t) (update_args : MetricState) : t :=
  let norm := (norm self + 1)%nat in
  let energy_distance :=
    energy_distance self
    + fast_energy_distance (minibatch update_args) (samples update_args)
                           (downsample self) in
  mk energy_distance norm (downsample self).

End update.

Definition value (self : t) : option R :=
  if (norm self =? 0)%nat then None
  else Some (energy_distance self / INR (norm self)).

End EnergyDistance.

Module EnergyGap.

Record t : Type := mk { energy_gap : R; norm : nat }.

Definition init : t := mk 0 0.

Definition reset (self : t) : t := mk 0 0.

Section update.

(** [marginal_free_energy], a method of the base class of the models, is
    not among the sources: one free energy per sample. *)
Variable marginal_free_energy : TAP_rbm -> matrix -> tensor.

Definition update (self : t) (update_args : MetricState) : t :=
  let norm := (norm self + 1)%nat in
  let energy_gap :=
    energy_gap self
    + mean (marginal_free_energy (amodel update_args) (minibatch update_args)) in
  let energy_gap :=
    energy_gap
    - mean (marginal_free_energy (amodel update_args)
                                 (random_samples update_args)) in
  mk energy_gap norm.

End update.

Definition value (self : t) : option R :=
  if (norm self =? 0)%nat then None
  else Some (energy_gap self / INR (norm self)).

End EnergyGap.

Module EnergyZscore.

Record t : Type := mk {
  data_mean : R;
  random_mean : R;
  random_mean_square : R
}.

Definition init : t := mk 0 0 0.

Definition reset (self : t) : t := mk 0 0 0.

Section update.

Variable marginal_free_energy : TAP_rbm -> matrix -> tensor.

Definition update (self : t) (update_args : MetricState) : t :=
  let data_mean :=
    data_mean self
    + mean (marginal_free_energy (amodel update_args) (minibatch update_args)) in
  let random_mean :=
    random_mean self
    + mean (marginal_free_energy (amodel update_args)
                                 (random_samples update_args)) in
  let random_mean_square :=
    random_mean_square self
    + mean (square (marginal_free_energy (amodel update_args)
                                         (random_samples update_args))) in
  mk data_mean random_mean random_mean_square.

End update.

Definition value (self : t) : util_exn + option R :=
  if Req_dec_T (random_mean_square self) 0 then inr None
  else
    match math_sqrt (random_mean_square self) with
    | inl e => inl e
    | inr r => inr (Some ((data_mean self - random_mean self) / r))
    end.

End EnergyZscore.

(** [amodel.heat_capacity], named apart from the field of the metric. *)
Definition amodel_heat_capacity := heat_capacity.

Module HeatCapacity.

Record t : Type := mk { heat_capacity : R; downsample : Z }.

Definition init (downsample : Z) : t := mk 0 100.

Definition reset (self : t) : t := mk 0 (downsample self).

(** [update] draws a seed, so the generator is threaded through. *)
Definition update (self : t) (update_args : MetricState) (g : rng) : t * rng :=
  let '(c, g) :=
    amodel_heat_capacity (amodel update_args) None 0.01 1e-4 20 g in
  (mk (heat_capacity self + c) (downsample self), g).

Definition value (self : t) : R := heat_capacity self.

End HeatCapacity.

(** ** Vocabulary of the properties *)

(** The expansion orders the model accepts. *)
Definition valid_terms (terms : Z) : Prop :=
  (terms = 1 \/ terms = 2 \/ terms = 3)%Z.

(** [self.terms], for statements whose own [terms] is an argument. *)
Definition stored_terms (self : TAP_rbm) : Z := terms self.

(** The scalar functional [minimize_gamma_GD] compares with, per order. *)
Definition selected_gamma (self : TAP_rbm) (terms : Z) : Magnetization -> R :=
  if (terms =? 2)%Z then gamma_TAP2 self else gamma_MF self.

(** The seed the minimizer starts from, and the generator it leaves. *)
Definition resolve_seed (self : TAP_rbm) (seed : option Magnetization)
  (g : rng) : Magnetization * rng :=
  match seed with
  | None => random_seed (layers_0 self) (layers_1 self) g
  | Some s => (s, g)
  end.

(** Every component lies in the clip range [[eps, 1 - eps]]. *)
Definition in_clip_range (m : Magnetization) : Prop :=
  Forall (fun t => eps <= t <= 1 - eps) (v m) /\
  Forall (fun t => eps <= t <= 1 - eps) (h m).

(** Every component lies strictly between 0 and 1. *)
Definition in_domain (m : Magnetization) : Prop :=
  Forall (fun t => 0 < t < 1) (v m) /\ Forall (fun t => 0 < t < 1) (h m).

Section descent_vocabulary.

Variable gamma : Magnetization -> R.
Variables grad_v_gamma grad_h_gamma : Magnetization -> matrix -> tensor -> tensor.
Variable w : matrix.
Variables a b : tensor.
Variable tol : R.

(** The four ways through the loop body, named after what they do. *)
Inductive gd_branch (s : gd_state) : flow -> gd_state -> Prop :=
| branch_halve :
    let m' := m_provisional grad_v_gamma grad_h_gamma w a b (st_lr s) (st_m s) in
    st_gam s - gamma m' < 0 ->
    ~ st_lr s * 0.5 < 1e-10 ->
    gd_branch s Next (st_lr s * 0.5, st_m s, st_gam s)
| branch_stall :
    let m' := m_provisional grad_v_gamma grad_h_gamma w a b (st_lr s) (st_m s) in
    st_gam s - gamma m' < 0 ->
    st_lr s * 0.5 < 1e-10 ->
    gd_branch s Break (st_lr s * 0.5, st_m s, st_gam s)
| branch_converged :
    let m' := m_provisional grad_v_gamma grad_h_gamma w a b (st_lr s) (st_m s) in
    0 <= st_gam s - gamma m' < tol ->
    gd_branch s Break s
| branch_accept :
    let m' := m_provisional grad_v_gamma grad_h_gamma w a b (st_lr s) (st_m s) in
    tol <= st_gam s - gamma m' ->
    0 <= st_gam s - gamma m' ->
    gd_branch s Next (st_lr s, m', gamma m').

(** What one pass may do to the locals: keep [(m, gam)] and keep or halve
    [lr], or keep [lr] and move to the provisional pair, whose Gamma value
    is lower by [tol] or more. *)
Definition gd_pass (s s' : gd_state) : Prop :=
  (st_m s' = st_m s /\ st_gam s' = st_gam s /\
   (st_lr s' = st_lr s \/ st_lr s' = st_lr s * 0.5))
  \/
  (let m' := m_provisional grad_v_gamma grad_h_gamma w a b (st_lr s) (st_m s) in
   st_lr s' = st_lr s /\ st_m s' = m' /\ st_gam s' = gamma m' /\
   st_gam s' <= st_gam s - tol).

(** After [k] passes that all came back to the loop head, the loop that
    started with the locals [s] is at its head with the locals [s']. *)
Inductive gd_reaches : nat -> gd_state -> gd_state -> Prop :=
| reaches_here (s : gd_state) : gd_reaches 0 s s
| reaches_next (k : nat) (s s1 s' : gd_state) :
    gd_body gamma grad_v_gamma grad_h_gamma w a b tol s = (Next, s1) ->
    gd_reaches k s1 s' ->
    gd_reaches (S k) s s'.

End descent_vocabulary.

(** Gamma does not go up from an earlier to a later entry of a trace. *)
Definition gam_not_above (s s' : gd_state) : Prop := st_gam s' <= st_gam s.

(** The later learning rate is the earlier one, halved some number of
    times. *)
Definition lr_halved (s s' : gd_state) : Prop :=
  exists k : nat, st_lr s' = st_lr s * 0.5 ^ k.

(** The learning rate does not go up from an earlier to a later entry. *)
Definition lr_not_above (s s' : gd_state) : Prop := st_lr s' <= st_lr s.

(** A weight matrix whose entries are all zero. *)
Definition zero_matrix (w : matrix) : Prop :=
  Forall (Forall (fun t => t = 0)) w.

(** One entry of the entropy sum. *)
Definition neg_entropy (x : R) : R := x * ln x + (1.0 - x) * ln (1.0 - x).

(** The log-odds [ln (x / (1 - x))], the derivative of the entropy term. *)
Definition logit (x : R) : R := ln x - ln (1 - x).

(** A functional on the one-by-one magnetizations as a function of the
    visible component alone, and of the hidden component alone. *)
Definition slice_v (gamma : Magnetization -> R) (y : R) : R -> R :=
  fun t => gamma (mkMagnetization [t] [y]).

Definition slice_h (gamma : Magnetization -> R) (x : R) : R -> R :=
  fun t => gamma (mkMagnetization [x] [t]).

(** On a model with one visible and one hidden unit: the single entry of
    [grad] is the derivative of [gamma] along the visible component, and
    along the hidden component, at [m]. *)
Definition is_derivative_v (gamma : Magnetization -> R) (grad : tensor)
  (m : Magnetization) : Prop :=
  derivable_pt_lim (slice_v gamma (nth 0 (h m) 0)) (nth 0 (v m) 0)
                   (nth 0 grad 0).

Definition is_derivative_h (gamma : Magnetization -> R) (grad : tensor)
  (m : Magnetization) : Prop :=
  derivable_pt_lim (slice_h gamma (nth 0 (v m) 0)) (nth 0 (h m) 0)
                   (nth 0 grad 0).

(** What the minimizer makes of every slot of a pool, in the order of the
    slots, the generator threaded through; with the configuration that
    [gradient] passes. *)
Fixpoint minimized_pool (self : TAP_rbm) (slots : list (option Magnetization))
  (g : rng) : list (Magnetization * R) * rng :=
  match slots with
  | [] => ([], g)
  | seed :: rest =>
      match gibbs_free_energy self seed (init_lr_EMF self) (tolerance_EMF self)
              (max_iters_EMF self) (terms self) g with
      | (Ok r, g) =>
          let '(rs, g) := minimized_pool self rest g in (r :: rs, g)
      | (Raise _, g) => ([], g)
      end
  end.

(** [r] is one of the candidates [rs], and none has a lower free-energy
    estimate. *)
Definition lowest_of (r : Magnetization * R) (rs : list (Magnetization * R))
  : Prop :=
  In r rs /\ Forall (fun r' => snd r <= snd r') rs.

(** ** Models and inputs the properties are tried on *)

(** A model with one visible and one hidden unit, built with the defaults
    of [TAP_rbm.__init__] for the minimizer's configuration. *)
Definition rbm_1x1 (w0 a0 b0 : R) (pool : list (option Magnetization))
  (terms : Z) : TAP_rbm :=
  mkTAP_rbm [[w0]] [a0] [b0] 1e-7 100 0.1 pool None terms.

(** Both magnetizations at one half. *)
Definition m_half : Magnetization := mkMagnetization [0.5] [0.5].

(** Both magnetizations at one quarter. *)
Definition m_quarter : Magnetization := mkMagnetization [0.25] [0.25].

(** A seed with a component at [1 - 1e-7], past the clip bound. *)
Definition m_near_one : Magnetization := mkMagnetization [1 - 1e-7] [0.5].

(** The visible magnetization on the lower clip bound. *)
Definition m_floor : Magnetization := mkMagnetization [1e-6] [0.5].

(** A generator whose draws are all one half. *)
Definition draws_half : rng := fun _ => 0.5.

(** ** Vocabulary of the further properties *)

(** Every draw of the generator lies in [[0, 1)], as [be.rand] promises. *)
Definition unit_draws (g : rng) : Prop := forall k, 0 <= g k < 1.

(** Every component lies in the range of the random seeds. *)
Definition in_seed_range (m : Magnetization) : Prop :=
  Forall (fun t => 0.005 <= t < 0.995) (v m) /\
  Forall (fun t => 0.005 <= t < 0.995) (h m).

(** [self] with another visible bias, and with another hidden bias. *)
Definition with_layers_0 (self : TAP_rbm) (a : tensor) : TAP_rbm :=
  mkTAP_rbm (weights_0 self) a (layers_1 self)
            (tolerance_EMF self) (max_iters_EMF self) (init_lr_EMF self)
            (persistent_samples self) (tap_seed self) (terms self).

Definition with_layers_1 (self : TAP_rbm) (b : tensor) : TAP_rbm :=
  mkTAP_rbm (weights_0 self) (layers_0 self) b
            (tolerance_EMF self) (max_iters_EMF self) (init_lr_EMF self)
            (persistent_samples self) (tap_seed self) (terms self).

(** The model with the weights replaced by [w]. *)
Definition with_weights_0 (self : TAP_rbm) (w : matrix) : TAP_rbm :=
  mkTAP_rbm w (layers_0 self) (layers_1 self)
            (tolerance_EMF self) (max_iters_EMF self) (init_lr_EMF self)
            (persistent_samples self) (tap_seed self) (terms self).

(** The sum of the entrywise products of two matrices: the slope of a
    function of the weights along the direction [x], when [y] is its
    gradient. *)
Definition inner_m (x y : matrix) : R := tsum_m (multiply_m x y).

(** The sum of [F w d q] over the positions that a row [r] of weights, a
    row [d] of a direction and the hidden components [q] share. *)
Fixpoint rsum (F : R -> R -> R -> R) (r d q : list R) : R :=
  match r, d, q with
  | x :: r', y :: d', z :: q' => F x y z + rsum F r' d' q'
  | _, _, _ => 0
  end.

(** The sum of [F p w d q] over the entries [(i, j)] that the visible
    components [p], the weights [W], a direction [D] and the hidden
    components [q] share. *)
Fixpoint msum (F : R -> R -> R -> R -> R) (p : list R) (W D : matrix)
  (q : list R) : R :=
  match p, W, D with
  | x :: p', r :: W', d :: D' => rsum (F x) r d q + msum F p' W' D' q
  | _, _, _ => 0
  end.

(** The matrix with the entries [phi w d], and the one with the entries
    [gam p w q]. *)
Definition mapm2 (phi : R -> R -> R) (W D : matrix) : matrix :=
  map2 (map2 phi) W D.

Definition gmat (gam : R -> R -> R -> R) (p : list R) (W : matrix)
  (q : list R) : matrix :=
  map2 (fun x r => map2 (gam x) r q) p W.

(** No entry is [None]. *)
Definition filled {A : Type} (entries : list (option A)) : Prop :=
  Forall (fun e => e <> None) entries.

(** On an entry that is filled, [be.accumulate] returns what the callable
    returns on the tensor of the entry. *)
Definition accumulate_filled
  (be_accumulate_l : callable -> option tensor -> R)
  (be_accumulate_w : callable -> option matrix -> R) : Prop :=
  (forall func t, be_accumulate_l func (Some t) = on_tensor func t) /\
  (forall func w, be_accumulate_w func (Some w) = on_matrix func w).

(** [l2] has fewer entries than [l1]. *)
Definition shorter {A B : Type} (l2 : list A) (l1 : list B) : Prop :=
  (length l2 < length l1)%nat.

(** The squared error of one batch against its reconstructions. *)
Definition squared_error (b : MetricState) : R :=
  tsum_m (square_m (subtract_m (minibatch b) (reconstructions b))).

(** A metric state with the roles of data and random samples exchanged. *)
Definition exchanged (b : MetricState) : MetricState :=
  mkMetricState (random_samples b) (reconstructions b) (minibatch b)
                (samples b) (amodel b).

(** The number of draws one random seed of a model takes. *)
Definition seed_draws (b : MetricState) : nat :=
  (length (layers_0 (amodel b)) + length (layers_1 (amodel b)))%nat.

(** A run of [HeatCapacity.update] over a list of metric states. *)
Fixpoint heat_capacity_updates (self : HeatCapacity.t) (bs : list MetricState)
  (g : rng) : HeatCapacity.t * rng :=
  match bs with
  | [] => (self, g)
  | b :: rest =>
      let '(self, g) := HeatCapacity.update self b g in
      heat_capacity_updates self rest g
  end.

(** * Properties *)

(** ** The expansion order *)

Lemma terms_check_false (terms : Z) :
  valid_terms terms ->
  negb (terms =? 1)%Z && negb (terms =? 2)%Z && negb (terms =? 3)%Z = false.
Proof.
  intros [-> | [-> | ->]]; reflexivity.
Qed.

Lemma terms_check_true (terms : Z) :
  ~ valid_terms terms ->
  negb (terms =? 1)%Z && negb (terms =? 2)%Z && negb (terms =? 3)%Z = true.
Proof.
  unfold valid_terms. intros Hn.
  destruct (Z.eqb_spec terms 1); [tauto|].
  destruct (Z.eqb_spec terms 2); [tauto|].
  destruct (Z.eqb_spec terms 3); [tauto|].
  reflexivity.
Qed.

Lemma valid_terms_dec (terms : Z) : {valid_terms terms} + {~ valid_terms terms}.
Proof.
  unfold valid_terms.
  destruct (Z.eq_dec terms 1); [left; tauto|].
  destruct (Z.eq_dec terms 2); [left; tauto|].
  destruct (Z.eq_dec terms 3); [left; tauto|].
  right; tauto.
Qed.

Lemma bind_gamma_valid (self : TAP_rbm) (terms : Z) :
  valid_terms terms ->
  bind_gamma self terms =
    Some (selected_gamma self terms,
          if (terms =? 1)%Z then grad_v_gamma_MF
          else if (terms =? 2)%Z then grad_v_gamma_TAP2 else grad_v_gamma_TAP3,
          if (terms =? 1)%Z then grad_h_gamma_MF
          else if (terms =? 2)%Z then grad_h_gamma_TAP2 else grad_h_gamma_TAP3).
Proof.
  intros [-> | [-> | ->]]; reflexivity.
Qed.

(** ** The descent loop *)

Lemma last_cons_nonempty {A : Type} (l : list A) (x d : A) :
  l <> [] -> last (x :: l) d = last l d.
Proof.
  destruct l; [congruence | reflexivity].
Qed.

Section descent_loop.

Variable gamma : Magnetization -> R.
Variables grad_v_gamma grad_h_gamma : Magnetization -> matrix -> tensor -> tensor.
Variable w : matrix.
Variables a b : tensor.
Variable tol : R.

Local Abbreviation body := (gd_body gamma grad_v_gamma grad_h_gamma w a b tol).
Local Abbreviation while := (gd_while gamma grad_v_gamma grad_h_gamma w a b tol).
Local Abbreviation trace := (gd_trace gamma grad_v_gamma grad_h_gamma w a b tol).
Local Abbreviation prov := (m_provisional grad_v_gamma grad_h_gamma w a b).
Local Abbreviation branch := (gd_branch gamma grad_v_gamma grad_h_gamma w a b tol).
Local Abbreviation pass := (gd_pass gamma grad_v_gamma grad_h_gamma w a b tol).

Lemma gd_body_branch (s : gd_state) : branch s (fst (body s)) (snd (body s)).
Proof.
  destruct s as [[lr m] gam]. unfold gd_body.
  destruct (Rlt_dec (gam - gamma (prov lr m)) 0) as [Hlt | Hge].
  - destruct (Rlt_dec (lr * 0.5) 1e-10) as [Hs | Hs]; cbn [fst snd].
    + apply (branch_stall _ _ _ _ _ _ _ (lr, m, gam)); assumption.
    + apply (branch_halve _ _ _ _ _ _ _ (lr, m, gam)); assumption.
  - destruct (Rlt_dec (gam - gamma (prov lr m)) tol) as [Hc | Hc]; cbn [fst snd].
    + apply (branch_converged _ _ _ _ _ _ _ (lr, m, gam)).
      unfold st_gam, st_lr, st_m; cbn. lra.
    + apply (branch_accept _ _ _ _ _ _ _ (lr, m, gam));
        unfold st_gam, st_lr, st_m; cbn; lra.
Qed.

Lemma gd_body_inv (s s' : gd_state) (fl : flow) :
  body s = (fl, s') -> branch s fl s'.
Proof.
  intros E. pose proof (gd_body_branch s) as B. rewrite E in B. exact B.
Qed.

(** A property of the locals that every pass through the body keeps holds
    when the loop is left, whichever way it is left. *)
Lemma gd_while_invariant (I : gd_state -> Prop) :
  (forall s fl s', I s -> body s = (fl, s') -> I s') ->
  forall n s, I s -> I (while n s).
Proof.
  intros Hstep. induction n as [| n IH]; intros s Hs; cbn.
  - exact Hs.
  - destruct (body s) as [[|] s'] eqn:E.
    + apply IH. eapply Hstep; eauto.
    + eapply Hstep; eauto.
Qed.

(** [gam] is the functional at [m], at every loop head and at the exit. *)
Lemma gd_while_consistent (n : nat) (s : gd_state) :
  st_gam s = gamma (st_m s) ->
  st_gam (while n s) = gamma (st_m (while n s)).
Proof.
  apply (gd_while_invariant (fun s => st_gam s = gamma (st_m s))).
  intros s0 fl s' H0 E. apply gd_body_inv in E.
  destruct E; cbn; auto.
Qed.

Lemma gd_trace_nonempty (n : nat) (s : gd_state) : trace n s <> [].
Proof. destruct n; discriminate. Qed.

(** The trace ends in the locals the loop leaves. *)
Lemma gd_trace_last (n : nat) (s d : gd_state) :
  last (trace n s) d = while n s.
Proof.
  revert s d. induction n as [| n IH]; intros s d.
  - reflexivity.
  - cbn [gd_trace gd_while]. destruct (body s) as [[|] s'] eqn:E.
    + rewrite last_cons_nonempty by apply gd_trace_nonempty. apply IH.
    + reflexivity.
Qed.

(** One pass through the body is a [gd_pass], provided [tol] is not
    negative. *)
Lemma gd_body_pass (s s' : gd_state) (fl : flow) :
  0 <= tol -> body s = (fl, s') -> pass s s'.
Proof.
  intros Ht E. apply gd_body_inv in E. unfold gd_pass.
  destruct E as [m' H1 H2 | m' H1 H2 | m' H1 | m' H1 H2]; cbn.
  - left. auto.
  - left. auto.
  - left. auto.
  - right. repeat split; auto. fold m'. lra.
Qed.

Lemma gd_trace_head (n : nat) (s : gd_state) :
  exists l, trace n s = s :: l.
Proof. destruct n; cbn; eauto. Qed.

(** Consecutive entries of the trace are one pass apart. *)
Lemma gd_trace_chain (P : gd_state -> gd_state -> Prop) :
  (forall s fl s', body s = (fl, s') -> P s s') ->
  forall n s, Sorted P (trace n s).
Proof.
  intros HP. induction n as [| n IH]; intros s; cbn [gd_trace].
  - repeat constructor.
  - destruct (body s) as [[|] s'] eqn:E.
    + constructor; [apply IH|].
      destruct (gd_trace_head n s') as [l ->]. constructor. eapply HP; eauto.
    + repeat constructor. eapply HP; eauto.
Qed.

(** When the decrease at the loop head is below [tol] and not negative the
    loop is left at once, with the locals as they are. *)
Lemma gd_while_converged (n : nat) (s : gd_state) :
  0 <= st_gam s - gamma (prov (st_lr s) (st_m s)) < tol ->
  while (S n) s = s.
Proof.
  destruct s as [[lr m] gam]. unfold st_gam, st_lr, st_m. cbn [fst snd].
  intros Hc. cbn [gd_while gd_body].
  destruct (Rlt_dec (gam - gamma (prov lr m)) 0); [lra|].
  destruct (Rlt_dec (gam - gamma (prov lr m)) tol); [reflexivity | lra].
Qed.

(** The passes that lead to a loop head are the first passes of the loop. *)
Lemma gd_while_reaches (k n : nat) (s s' : gd_state) :
  gd_reaches gamma grad_v_gamma grad_h_gamma w a b tol k s s' ->
  while (k + n) s = while n s'.
Proof.
  induction 1 as [s | k s s1 s' E _ IH]; [reflexivity|].
  cbn [Nat.add gd_while]. rewrite E. exact IH.
Qed.

End descent_loop.

(** ** The minimizer as a whole *)

(** With a valid order the minimizer returns the [(m, gam)] its loop
    leaves, for the functional and the gradients bound from [terms]. *)
Lemma minimize_gamma_GD_valid (self : TAP_rbm) (w : matrix) (a b : tensor)
  (m : Magnetization) (init_lr tol : R) (max_iters terms : Z) :
  valid_terms terms ->
  exists gamma grad_v_gamma grad_h_gamma,
    bind_gamma self terms = Some (gamma, grad_v_gamma, grad_h_gamma) /\
    gamma = selected_gamma self terms /\
    minimize_gamma_GD self w a b m init_lr tol max_iters terms =
      let s := gd_while gamma grad_v_gamma grad_h_gamma w a b tol
                 (Z.to_nat max_iters) (init_lr, m, gamma m) in
      Ok (st_m s, st_gam s).
Proof.
  intros Hv. pose proof (bind_gamma_valid self terms Hv) as Hb.
  eexists _, _, _. split; [exact Hb|]. split; [reflexivity|].
  unfold minimize_gamma_GD. rewrite Hb.
  destruct (gd_while _ _ _ _ _ _ _ _ _) as [[lr m'] gam']. reflexivity.
Qed.

Lemma gibbs_free_energy_valid (self : TAP_rbm) (seed : option Magnetization)
  (init_lr tol : R) (max_iters terms : Z) (g : rng) :
  valid_terms terms ->
  gibbs_free_energy self seed init_lr tol max_iters terms g =
    (minimize_gamma_GD self (weights_0 self) (layers_0 self) (layers_1 self)
       (fst (resolve_seed self seed g)) init_lr tol max_iters terms,
     snd (resolve_seed self seed g)).
Proof.
  intros Hv. unfold gibbs_free_energy. rewrite (terms_check_false _ Hv).
  unfold resolve_seed. destruct seed as [s|]; [reflexivity|].
  destruct (random_seed _ _ g) as [s g']. reflexivity.
Qed.

(** With a valid order the call
    returns a pair, the generator advanced only by the seed it drew. *)
Lemma gibbs_free_energy_returns (self : TAP_rbm) (seed : option Magnetization)
  (init_lr tol : R) (max_iters terms : Z) (g : rng) :
  valid_terms terms ->
  exists m gam,
    gibbs_free_energy self seed init_lr tol max_iters terms g =
      (Ok (m, gam), snd (resolve_seed self seed g)) /\
    gam = selected_gamma self terms m.
Proof.
  intros Hv. rewrite (gibbs_free_energy_valid _ _ _ _ _ _ _ Hv).
  destruct (minimize_gamma_GD_valid self (weights_0 self) (layers_0 self)
              (layers_1 self) (fst (resolve_seed self seed g)) init_lr tol
              max_iters terms Hv)
    as (gamma & gv & gh & Hb & Hg & Hm).
  rewrite Hm. cbv zeta. eexists _, _. split; [reflexivity|].
  rewrite <- Hg. apply gd_while_consistent. reflexivity.
Qed.

(** C10.  Invariant of gibbs_free_energy: for every call whose terms is 1, 2
    or 3 the call returns a pair (m, gam), whichever way the descent loop is
    left (convergence, learning rate below 1e-10, max_iters passes), and gam
    is the selected scalar functional at the returned m: gamma_TAP2 (m) when
    terms = 2, gamma_MF (m) when terms is 1 or 3. *)
Theorem C10_returned_pair_self_consistent
  (self : TAP_rbm) (seed : option Magnetization) (init_lr tol : R)
  (max_iters terms : Z) (g : rng) :
  valid_terms terms ->
  exists m gam,
    fst (gibbs_free_energy self seed init_lr tol max_iters terms g) = Ok (m, gam) /\
    (terms = 2%Z -> gam = gamma_TAP2 self m) /\
    (terms = 1%Z \/ terms = 3%Z -> gam = gamma_MF self m).
Proof.
  intros Hv.
  destruct (gibbs_free_energy_returns self seed init_lr tol max_iters terms g Hv)
    as (m & gam & E & Hg).
  exists m, gam. rewrite E. split; [reflexivity|]. subst gam.
  unfold selected_gamma. split.
  - intros ->. reflexivity.
  - intros [-> | ->]; reflexivity.
Qed.

(** C10 on the order-2 minimizer, from one half, with the defaults of
    [gibbs_free_energy]. *)
Lemma C10_returned_pair_self_consistent_witness :
  let self := rbm_1x1 0 0.001 0 [] 2 in
  valid_terms 2 /\
  exists m gam,
    fst (gibbs_free_energy self (Some m_half) 0.1 1e-4 50 2 draws_half)
      = Ok (m, gam) /\
    (2%Z = 2%Z -> gam = gamma_TAP2 self m) /\
    (2%Z = 1%Z \/ 2%Z = 3%Z -> gam = gamma_MF self m).
Proof.
  intros self.
  assert (Hv : valid_terms 2) by (right; left; reflexivity).
  split; [exact Hv|].
  exact (C10_returned_pair_self_consistent self (Some m_half) 0.1 1e-4 50 2
           draws_half Hv).
Defined.

(** C7.  Construction raises ValueError exactly when terms is not 1, 2 or
    3, and otherwise stores the order as given; gibbs_free_energy raises
    ValueError exactly when its terms is not 1, 2 or 3, and then neither
    minimizes nor draws from the generator. *)
Theorem C7_invalid_order_raises_ValueError
  (params : matrix * tensor * tensor) (self : TAP_rbm)
  (seed : option Magnetization) (init_lr tol : R)
  (max_iters num_persistent_samples terms : Z) (g : rng) :
  (TAP_rbm_init params terms init_lr tol max_iters num_persistent_samples
     = Raise ValueError <-> ~ valid_terms terms) /\
  (valid_terms terms <->
     exists model,
       TAP_rbm_init params terms init_lr tol max_iters num_persistent_samples
         = Ok model /\ stored_terms model = terms) /\
  (fst (gibbs_free_energy self seed init_lr tol max_iters terms g)
     = Raise ValueError <-> ~ valid_terms terms) /\
  (~ valid_terms terms ->
     gibbs_free_energy self seed init_lr tol max_iters terms g
       = (Raise ValueError, g)) /\
  (valid_terms terms <->
     exists m gam,
       fst (gibbs_free_energy self seed init_lr tol max_iters terms g)
         = Ok (m, gam)).
Proof.
  destruct params as [[w a] b].
  destruct (valid_terms_dec terms) as [Hv | Hn].
  - pose proof (terms_check_false _ Hv) as Hc.
    destruct (gibbs_free_energy_returns self seed init_lr tol max_iters terms g Hv)
      as (m & gam & E & _).
    unfold TAP_rbm_init. rewrite Hc, E. cbn [fst].
    repeat split; try (intros; discriminate); try tauto; eauto.
  - pose proof (terms_check_true _ Hn) as Hc.
    unfold TAP_rbm_init, gibbs_free_energy. rewrite Hc. cbn [fst].
    repeat split; try tauto; try (intros (? & ? & ?); discriminate).
Qed.

(** ** Shapes *)

Lemma map2_length {A B C : Type} (f : A -> B -> C) (xs : list A) (ys : list B) :
  length (map2 f xs ys) = Nat.min (length xs) (length ys).
Proof.
  revert ys. induction xs as [| x xs IH]; intros [| y ys]; cbn; auto.
Qed.

Lemma dot_mv_length (w : matrix) (x : tensor) : length (dot_mv w x) = length w.
Proof. apply length_map. Qed.

Lemma dot_vm_length (n_v n_h : nat) (w : matrix) (x : tensor) :
  is_shape n_v n_h w -> length (dot_vm x w) = n_h.
Proof.
  intros (Hp & Hl & Hr). unfold dot_vm, transpose, ncols.
  rewrite !length_map, length_seq.
  destruct w as [| r w]; [cbn in Hl; lia|]. inversion Hr as [| ? ? Hr0 _]. exact Hr0.
Qed.

Lemma square_m_shape (n_v n_h : nat) (w : matrix) :
  is_shape n_v n_h w -> is_shape n_v n_h (square_m w).
Proof.
  intros (Hp & Hl & Hr). unfold square_m. repeat split; auto.
  - rewrite length_map. exact Hl.
  - apply Forall_forall. intros r Hin. apply in_map_iff in Hin.
    destruct Hin as (r0 & <- & Hin0). unfold square. rewrite length_map.
    rewrite Forall_forall in Hr. apply Hr, Hin0.
Qed.

Lemma multiply_m_shape (n_v n_h : nat) (x y : matrix) :
  is_shape n_v n_h x -> is_shape n_v n_h y -> is_shape n_v n_h (multiply_m x y).
Proof.
  intros (Hp & Hl & Hr) (_ & Hl' & Hr'). unfold multiply_m.
  repeat split; auto.
  - rewrite map2_length. unfold matrix, tensor in *. lia.
  - clear Hl Hl' Hp. revert y Hr'. induction Hr as [| r x Hr0 _ IH]; intros y Hy.
    + constructor.
    + destruct Hy as [| r' y Hr1 Hy']; cbn; constructor; auto.
      unfold multiply. rewrite map2_length. unfold tensor in *. lia.
Qed.

Ltac lengths :=
  repeat first
    [ rewrite map2_length | rewrite length_map | rewrite dot_mv_length
    | erewrite dot_vm_length by eauto using square_m_shape, multiply_m_shape ];
  unfold matrix, tensor in *; try lia.

Section shapes.

Variables (n_v n_h : nat) (w : matrix) (a b : tensor) (m : Magnetization).
Hypothesis Hs : shapes_ok n_v n_h w a b m.

Lemma shapes_ok_is_shape : is_shape n_v n_h w.
Proof. apply Hs. Qed.

Lemma grad_lengths :
  (length (grad_v_gamma_MF m w a) = n_v /\ length (grad_h_gamma_MF m w b) = n_h) /\
  (length (grad_v_gamma_TAP2 m w a) = n_v /\ length (grad_h_gamma_TAP2 m w b) = n_h) /\
  (length (grad_v_gamma_TAP3 m w a) = n_v /\ length (grad_h_gamma_TAP3 m w b) = n_h) /\
  (length (heat_capacity_grad_v m w a) = n_v /\ length (heat_capacity_grad_h m w b) = n_h).
Proof.
  pose proof shapes_ok_is_shape as Hw.
  pose proof (square_m_shape _ _ _ Hw) as Hww.
  pose proof (multiply_m_shape _ _ _ _ Hww Hw) as Hwww.
  destruct Hww as (_ & Hww_l & _). destruct Hwww as (_ & Hwww_l & _).
  destruct Hs as ((Hp & Hl & Hr) & Ha & Hb & Hv & Hh).
  unfold grad_v_gamma_MF, grad_h_gamma_MF, grad_v_gamma_TAP2, grad_h_gamma_TAP2,
    grad_v_gamma_TAP3, grad_h_gamma_TAP3, heat_capacity_grad_v,
    heat_capacity_grad_h, subtract, add, multiply, divide, log, rsub, scal, square.
  cbv zeta.
  repeat split; lengths.
Qed.

End shapes.

Lemma clip_length (x : tensor) (lo hi : R) : length (clip x lo hi) = length x.
Proof. apply length_map. Qed.

(** A step keeps the shapes, whichever of the gradient pairs takes it. *)
Lemma m_provisional_shapes (n_v n_h : nat) (w : matrix) (a b : tensor)
  (grad_v_gamma grad_h_gamma : Magnetization -> matrix -> tensor -> tensor)
  (lr : R) (m : Magnetization) :
  shapes_ok n_v n_h w a b m ->
  length (grad_v_gamma m w a) = n_v -> length (grad_h_gamma m w b) = n_h ->
  shapes_ok n_v n_h w a b (m_provisional grad_v_gamma grad_h_gamma w a b lr m).
Proof.
  intros (Hw & Ha & Hb & Hv & Hh) Hgv Hgh.
  unfold shapes_ok, m_provisional. cbn [v h].
  rewrite !clip_length. unfold subtract, scal.
  rewrite !map2_length, !length_map. unfold tensor in *.
  split; [exact Hw|]. repeat split; try assumption; lia.
Qed.

Lemma random_seed_shapes (n_v n_h : nat) (w : matrix) (a b : tensor) (g : rng) :
  is_shape n_v n_h w -> length a = n_v -> length b = n_h ->
  shapes_ok n_v n_h w a b (fst (random_seed a b g)).
Proof.
  intros Hw Ha Hb. unfold random_seed, rand, shapes_ok. cbn [fst v h].
  unfold addr, scal. rewrite !length_map, !length_seq. tauto.
Qed.

(** The minimizer returns a magnetization of the shape of its seed. *)
Lemma gibbs_free_energy_shapes (n_v n_h : nat) (self : TAP_rbm)
  (seed : option Magnetization) (init_lr tol : R) (max_iters terms : Z)
  (g : rng) :
  valid_terms terms ->
  shapes_ok n_v n_h (weights_0 self) (layers_0 self) (layers_1 self)
            (fst (resolve_seed self seed g)) ->
  exists m gam,
    fst (gibbs_free_energy self seed init_lr tol max_iters terms g) = Ok (m, gam) /\
    shapes_ok n_v n_h (weights_0 self) (layers_0 self) (layers_1 self) m.
Proof.
  intros Hv Hs. rewrite (gibbs_free_energy_valid _ _ _ _ _ _ _ Hv). cbn [fst].
  destruct (minimize_gamma_GD_valid self (weights_0 self) (layers_0 self)
              (layers_1 self) (fst (resolve_seed self seed g)) init_lr tol
              max_iters terms Hv)
    as (gamma & gv & gh & Hb & _ & Hm).
  rewrite Hm. cbv zeta. eexists _, _. split; [reflexivity|].
  apply (gd_while_invariant gamma gv gh _ _ _ tol
           (fun s => shapes_ok n_v n_h (weights_0 self) (layers_0 self)
                       (layers_1 self) (st_m s))); [|exact Hs].
  intros s fl s' Hi E. apply gd_body_inv in E.
  destruct E; cbn [st_m fst snd]; auto.
  pose proof (grad_lengths _ _ _ _ _ _ Hi) as (H1 & H2 & H3 & _).
  rewrite (bind_gamma_valid _ _ Hv) in Hb. injection Hb as _ <- <-.
  apply m_provisional_shapes; [exact Hi | |].
  - destruct Hv as [-> | [-> | ->]]; cbn; tauto.
  - destruct Hv as [-> | [-> | ->]]; cbn; tauto.
Qed.

(** ** Monotone descent *)

Lemma Sorted_weaken {A : Type} (P Q : A -> A -> Prop) (l : list A) :
  (forall x y, P x y -> Q x y) -> Sorted P l -> Sorted Q l.
Proof.
  intros HPQ. induction 1 as [| x l Hs IH Hd]; constructor; auto.
  destruct Hd; constructor; auto.
Qed.

Lemma gam_not_above_trans (s1 s2 s3 : gd_state) :
  gam_not_above s1 s2 -> gam_not_above s2 s3 -> gam_not_above s1 s3.
Proof. unfold gam_not_above. lra. Qed.

Lemma lr_halved_trans (s1 s2 s3 : gd_state) :
  lr_halved s1 s2 -> lr_halved s2 s3 -> lr_halved s1 s3.
Proof.
  intros [k1 H1] [k2 H2]. exists (k1 + k2)%nat.
  rewrite H2, H1, pow_add. ring.
Qed.

(** Halving a learning rate that is not negative does not raise it. *)
Lemma lr_halved_not_above (l : list gd_state) :
  StronglySorted lr_halved l -> Forall (fun s => 0 <= st_lr s) l ->
  StronglySorted lr_not_above l.
Proof.
  induction 1 as [| s l _ IH Hall]; intros Hpos; constructor.
  - apply IH. inversion Hpos; assumption.
  - inversion Hpos as [| ? ? Hs _]; subst.
    eapply Forall_impl; [|exact Hall]. cbv beta.
    intros s' [k Hk]. unfold lr_not_above. rewrite Hk.
    assert (0.5 ^ k <= 1) by (rewrite <- (pow1 k); apply pow_incr; lra).
    nra.
Qed.

(** C6.  For every run of the descent loop with tol > 0: every pass either
    leaves the pair (m, gam) as it is (the learning rate kept or halved) or
    replaces it by the provisional pair, whose Gamma value is lower by tol
    or more; so along the whole run Gamma never goes up, it goes strictly
    down whenever the pair is replaced, and the learning rate at any later
    point is the earlier one halved some number of times, hence not above
    it when the initial rate is not negative.  The run ends in the locals
    the loop leaves. *)
Theorem C6_descent_is_monotone
  (gamma : Magnetization -> R)
  (grad_v_gamma grad_h_gamma : Magnetization -> matrix -> tensor -> tensor)
  (w : matrix) (a b : tensor) (tol : R) (n : nat) (s : gd_state) :
  0 < tol ->
  let run := gd_trace gamma grad_v_gamma grad_h_gamma w a b tol n s in
  Sorted (gd_pass gamma grad_v_gamma grad_h_gamma w a b tol) run /\
  StronglySorted gam_not_above run /\
  Sorted (fun s s' => st_gam s' < st_gam s \/
                      (st_m s' = st_m s /\ st_gam s' = st_gam s)) run /\
  StronglySorted lr_halved run /\
  (0 <= st_lr s -> StronglySorted lr_not_above run) /\
  last run s = gd_while gamma grad_v_gamma grad_h_gamma w a b tol n s.
Proof.
  intros Ht run.
  assert (Hpass : Sorted (gd_pass gamma grad_v_gamma grad_h_gamma w a b tol) run).
  { apply gd_trace_chain. intros s0 fl s' E.
    eapply gd_body_pass; eauto. lra. }
  assert (Hlr : StronglySorted lr_halved run).
  { apply Sorted_StronglySorted.
    - intros x y z. apply lr_halved_trans.
    - eapply Sorted_weaken; [|exact Hpass].
      intros x y [(_ & _ & [Hl | Hl]) | (Hl & _)].
      + exists 0%nat. rewrite Hl. cbn. ring.
      + exists 1%nat. rewrite Hl. cbn. ring.
      + exists 0%nat. rewrite Hl. cbn. ring. }
  split; [exact Hpass|]. split; [|split; [|split; [|split]]].
  - apply Sorted_StronglySorted.
    + intros x y z. apply gam_not_above_trans.
    + eapply Sorted_weaken; [|exact Hpass].
      intros x y [(_ & Hg & _) | (_ & _ & _ & Hg)]; unfold gam_not_above; lra.
  - eapply Sorted_weaken; [|exact Hpass].
    intros x y [(Hm & Hg & _) | (_ & _ & _ & Hg)]; [right; auto | left; lra].
  - exact Hlr.
  - intros H0. subst run.
    destruct (gd_trace_head gamma grad_v_gamma grad_h_gamma w a b tol n s)
      as [l El].
    rewrite El in Hlr |- *.
    apply (lr_halved_not_above (s :: l)); [exact Hlr|].
    constructor; [exact H0|].
    apply StronglySorted_inv in Hlr. destruct Hlr as [_ Hall].
    eapply Forall_impl; [|exact Hall]. cbv beta.
    intros s' [k Hk]. rewrite Hk. apply Rmult_le_pos; [exact H0|].
    apply pow_le. lra.
  - apply gd_trace_last.
Qed.

(** C6 on the order-2 minimizer on the model without coupling and with
    visible bias 0.001, from one half, with the defaults of
    [gibbs_free_energy]. *)
Lemma C6_descent_is_monotone_witness :
  let self := rbm_1x1 0 0.001 0 [] 2 in
  let run := gd_trace (gamma_TAP2 self) grad_v_gamma_TAP2 grad_h_gamma_TAP2
               [[0]] [0.001] [0] 1e-4 50
               (0.1, m_half, gamma_TAP2 self m_half) in
  0 < 1e-4 /\
  StronglySorted gam_not_above run /\ StronglySorted lr_halved run.
Proof.
  intros self run.
  assert (Ht : 0 < 1e-4) by lra.
  split; [exact Ht|].
  destruct (C6_descent_is_monotone (gamma_TAP2 self) grad_v_gamma_TAP2
              grad_h_gamma_TAP2 [[0]] [0.001] [0] 1e-4 50
              (0.1, m_half, gamma_TAP2 self m_half) Ht)
    as (_ & Hg & _ & Hl & _ & _).
  split; assumption.
Defined.

(** ** The heat-capacity loop *)

(** The loop of [minimize_GD] is the loop of [minimize_gamma_GD], run on
    the beta-beta functional and the gradients local to [heat_capacity]. *)
Lemma minimize_GD_while_gd_while (self : TAP_rbm) (w : matrix) (a b : tensor)
  (tol : R) (n : nat) (lr : R) (m : Magnetization) (gam : R) :
  minimize_GD_while self w a b tol n lr m gam =
    st_gam (gd_while (grad_beta_beta_TAP3 self) heat_capacity_grad_v
                     heat_capacity_grad_h w a b tol n (lr, m, gam)).
Proof.
  revert lr m gam. induction n as [| n IH]; intros lr m gam.
  - reflexivity.
  - cbn [minimize_GD_while gd_while gd_body]. unfold m_provisional.
    destruct (Rlt_dec _ 0) as [H0 | H0].
    + destruct (Rlt_dec (lr * 0.5) 1e-10); [reflexivity | apply IH].
    + destruct (Rlt_dec _ tol); [reflexivity | apply IH].
Qed.

(** C8.  heat_capacity runs the backtracking descent loop of the
    free-energy minimizer (same clip to [1e-6, 1 - 1e-6], same halving with
    floor 1e-10, same bound on the passes, same strict comparisons) with
    grad_beta_beta_TAP3 in the place of Gamma, from the given or a random
    seed, and returns the negation of the value that loop leaves, which is
    grad_beta_beta_TAP3 at the magnetization the loop leaves. *)
Theorem C8_heat_capacity_runs_the_descent_loop
  (self : TAP_rbm) (seed : option Magnetization) (init_lr tol : R)
  (max_iters : Z) (g : rng) :
  let m0 := fst (resolve_seed self seed g) in
  let s := gd_while (grad_beta_beta_TAP3 self) heat_capacity_grad_v
             heat_capacity_grad_h (weights_0 self) (layers_0 self)
             (layers_1 self) tol (Z.to_nat max_iters)
             (init_lr, m0, grad_beta_beta_TAP3 self m0) in
  heat_capacity self seed init_lr tol max_iters g =
    (- st_gam s, snd (resolve_seed self seed g)) /\
  st_gam s = grad_beta_beta_TAP3 self (st_m s).
Proof.
  intros m0 s. split.
  - unfold heat_capacity, minimize_GD. subst s m0. unfold resolve_seed.
    destruct seed as [s0 |].
    + cbn [fst snd]. rewrite minimize_GD_while_gd_while. reflexivity.
    + destruct (random_seed _ _ g) as [s0 g']. cbn [fst snd].
      rewrite minimize_GD_while_gd_while. reflexivity.
  - subst s. apply gd_while_consistent. reflexivity.
Qed.

(** ** Calculations on the one-by-one models *)

Ltac tensor_eval :=
  cbv [gamma_MF gamma_TAP2 gamma_TAP3 grad_beta_beta_TAP3
       grad_v_gamma_MF grad_h_gamma_MF grad_v_gamma_TAP2 grad_h_gamma_TAP2
       grad_v_gamma_TAP3 grad_h_gamma_TAP3 m_provisional rbm_1x1 m_half
       m_near_one m_floor
       weights_0 layers_0 layers_1 v h
       add subtract multiply divide square log tsum rsub scal addr neg dot
       dot_mv ncols col transpose dot_vm square_m multiply_m tsum_m
       multiply_row multiply_col clip map2 map fold_right seq hd length nth].

Lemma ln_le_minus_1 (x : R) : 0 < x -> ln x <= x - 1.
Proof.
  intros Hx. pose proof (exp_ineq1_le (ln x)) as H.
  rewrite exp_ln in H by assumption. lra.
Qed.

Lemma ln_lower_mult (x : R) : 0 < x -> x - 1 <= x * ln x.
Proof.
  intros Hx.
  assert (Hi : 0 < / x) by (apply Rinv_0_lt_compat; assumption).
  pose proof (ln_le_minus_1 (/ x) Hi) as H. rewrite ln_Rinv in H by assumption.
  assert (Hm : x * (- ln x) <= x * (/ x - 1)) by (apply Rmult_le_compat_l; lra).
  replace (x * (/ x - 1)) with (1 - x) in Hm by (field; lra). lra.
Qed.

Lemma entropy_sum_1 (x : R) : entropy_sum [x] = neg_entropy x.
Proof.
  cbv [entropy_sum neg_entropy add multiply log rsub tsum map map2 fold_right].
  lra.
Qed.

Lemma neg_entropy_half : neg_entropy 0.5 = ln 0.5.
Proof. unfold neg_entropy. replace (1.0 - 0.5) with 0.5 by lra. lra. Qed.

(** Around one half the entropy term is flat to second order. *)
Lemma neg_entropy_near_half (d : R) :
  - 0.5 < d < 0.5 ->
  0 <= neg_entropy (0.5 + d) - neg_entropy 0.5 <= 4 * d * d.
Proof.
  intros Hd. rewrite neg_entropy_half. unfold neg_entropy.
  replace (1.0 - (0.5 + d)) with (0.5 * (1 - 2 * d)) by lra.
  replace (0.5 + d) with (0.5 * (1 + 2 * d)) by lra.
  rewrite !ln_mult by lra.
  pose proof (ln_le_minus_1 (1 + 2 * d) ltac:(lra)) as U1.
  pose proof (ln_le_minus_1 (1 - 2 * d) ltac:(lra)) as U2.
  pose proof (ln_lower_mult (1 + 2 * d) ltac:(lra)) as L1.
  pose proof (ln_lower_mult (1 - 2 * d) ltac:(lra)) as L2.
  set (p := ln (1 + 2 * d)) in *. set (q := ln (1 - 2 * d)) in *.
  set (c := ln 0.5) in *.
  split; nra.
Qed.

Lemma clip1_inside (a_min a_max t : R) :
  a_min <= t <= a_max -> clip1 a_min a_max t = t.
Proof.
  intros Ht. unfold clip1. rewrite Rmax_left by lra. apply Rmin_right. lra.
Qed.

Lemma clip1_above (a_min a_max t : R) :
  a_min <= a_max -> a_max <= t -> clip1 a_min a_max t = a_max.
Proof.
  intros Hb Ht. unfold clip1. rewrite Rmax_left by lra. apply Rmin_left. lra.
Qed.

Lemma clip1_below (a_min a_max t : R) :
  a_min <= a_max -> t <= a_min -> clip1 a_min a_max t = a_min.
Proof.
  intros Hb Ht. unfold clip1. rewrite Rmax_right by lra. apply Rmin_right. lra.
Qed.

Lemma clip1_range (a_min a_max t : R) :
  a_min <= a_max -> a_min <= clip1 a_min a_max t <= a_max.
Proof.
  intros Hb. unfold clip1, Rmin, Rmax.
  destruct (Rle_dec t a_min); destruct (Rle_dec a_max _); lra.
Qed.

Lemma ln_half_ratio : ln (0.5 / (1.0 - 0.5)) = 0.
Proof. replace (0.5 / (1.0 - 0.5)) with 1 by lra. apply ln_1. Qed.

(** The first provisional point of the order-2 minimizer on the model with
    no coupling and visible bias 0.001, started at one half with the
    default learning rate. *)
Lemma small_bias_provisional :
  m_provisional grad_v_gamma_TAP2 grad_h_gamma_TAP2 [[0]] [0.001] [0] 0.1 m_half
  = mkMagnetization [0.5001] [0.5].
Proof.
  tensor_eval. rewrite ln_half_ratio. unfold eps.
  rewrite !clip1_inside by lra. f_equal; f_equal; lra.
Qed.

(** That first step lowers Gamma, by less than the default tolerance. *)
Lemma small_bias_decrease :
  let self := rbm_1x1 0 0.001 0 [] 2 in
  0 <= gamma_TAP2 self m_half - gamma_TAP2 self (mkMagnetization [0.5001] [0.5])
    < 1e-4.
Proof.
  tensor_eval. rewrite !entropy_sum_1.
  pose proof (neg_entropy_near_half 0.0001 ltac:(lra)) as H.
  replace (0.5 + 0.0001) with 0.5001 in H by lra.
  set (x := neg_entropy 0.5001) in *. set (y := neg_entropy 0.5) in *.
  lra.
Qed.

(** ** The converged exit *)

Lemma bind_gamma_some_valid (self : TAP_rbm) (terms : Z) gamma gv gh :
  bind_gamma self terms = Some (gamma, gv, gh) -> valid_terms terms.
Proof.
  unfold bind_gamma, valid_terms.
  destruct (Z.eqb_spec terms 1); [auto|].
  destruct (Z.eqb_spec terms 2); [auto|].
  destruct (Z.eqb_spec terms 3); [auto | discriminate].
Qed.

(** A run that reaches a loop head where the decrease is below [tol] and not
    negative returns the locals of that loop head. *)
Lemma gibbs_free_energy_converged
  (self : TAP_rbm) (seed : option Magnetization) (init_lr tol : R)
  (max_iters terms : Z) (g : rng)
  (gamma : Magnetization -> R)
  (grad_v_gamma grad_h_gamma : Magnetization -> matrix -> tensor -> tensor)
  (k : nat) (s : gd_state) :
  let w := weights_0 self in
  let a := layers_0 self in
  let b := layers_1 self in
  let m0 := fst (resolve_seed self seed g) in
  bind_gamma self terms = Some (gamma, grad_v_gamma, grad_h_gamma) ->
  gd_reaches gamma grad_v_gamma grad_h_gamma w a b tol k
    (init_lr, m0, gamma m0) s ->
  (Z.of_nat k < max_iters)%Z ->
  0 <= st_gam s
       - gamma (m_provisional grad_v_gamma grad_h_gamma w a b (st_lr s) (st_m s))
    < tol ->
  fst (gibbs_free_energy self seed init_lr tol max_iters terms g)
    = Ok (st_m s, st_gam s).
Proof.
  intros w a b m0 Hb Hr Hk Hc.
  rewrite (gibbs_free_energy_valid _ _ _ _ _ _ _ (bind_gamma_some_valid _ _ _ _ _ Hb)).
  cbn [fst]. unfold minimize_gamma_GD. rewrite Hb.
  replace (Z.to_nat max_iters) with (k + S (Z.to_nat max_iters - k - 1))%nat by lia.
  fold w a b m0. rewrite (gd_while_reaches _ _ _ _ _ _ _ _ _ _ _ Hr).
  rewrite gd_while_converged by exact Hc.
  destruct s as [[lr m] gam]. reflexivity.
Qed.

(** C3, as the code has it.  In every run of the free-energy minimizer, at
    the first descent iteration where the decrease gam - gam' is
    non-negative but below tol, the minimizer stops and returns the current
    pair: the magnetization m and the value gam of that loop head.  The
    provisional point m' and its value gam' are dropped. *)
Theorem C3_converged_exit_returns_current_pair
  (self : TAP_rbm) (seed : option Magnetization) (init_lr tol : R)
  (max_iters terms : Z) (g : rng)
  (gamma : Magnetization -> R)
  (grad_v_gamma grad_h_gamma : Magnetization -> matrix -> tensor -> tensor)
  (k : nat) (s : gd_state) :
  let w := weights_0 self in
  let a := layers_0 self in
  let b := layers_1 self in
  let m0 := fst (resolve_seed self seed g) in
  bind_gamma self terms = Some (gamma, grad_v_gamma, grad_h_gamma) ->
  gd_reaches gamma grad_v_gamma grad_h_gamma w a b tol k
    (init_lr, m0, gamma m0) s ->
  (Z.of_nat k < max_iters)%Z ->
  0 <= st_gam s
       - gamma (m_provisional grad_v_gamma grad_h_gamma w a b (st_lr s) (st_m s))
    < tol ->
  fst (gibbs_free_energy self seed init_lr tol max_iters terms g)
    = Ok (st_m s, st_gam s).
Proof.
  exact (gibbs_free_energy_converged self seed init_lr tol max_iters terms g
           gamma grad_v_gamma grad_h_gamma k s).
Qed.

(** The order-2 minimizer on the model without coupling and with visible
    bias 0.001, from one half, with the defaults of [gibbs_free_energy]:
    the first pass is a converged one. *)
Lemma C3_converged_exit_witness :
  let self := rbm_1x1 0 0.001 0 [] 2 in
  fst (gibbs_free_energy self (Some m_half) 0.1 1e-4 50 2 draws_half)
    = Ok (m_half, gamma_TAP2 self m_half).
Proof.
  intros self.
  apply (C3_converged_exit_returns_current_pair self (Some m_half) 0.1 1e-4
           50 2 draws_half (gamma_TAP2 self) grad_v_gamma_TAP2
           grad_h_gamma_TAP2 0 (0.1, m_half, gamma_TAP2 self m_half)).
  - reflexivity.
  - apply reaches_here.
  - lia.
  - cbn [st_lr st_m st_gam fst snd].
    change (weights_0 self) with [[0]]. change (layers_0 self) with [0.001].
    change (layers_1 self) with [0].
    rewrite small_bias_provisional. apply small_bias_decrease.
Defined.

(** C3, as stated, fails: on that run the first pass has a decrease in
    [0, tol), the provisional point is (0.5001, 0.5), and the minimizer
    returns the seed (0.5, 0.5) and its Gamma value instead. *)
Lemma C3_provisional_point_is_not_returned :
  let self := rbm_1x1 0 0.001 0 [] 2 in
  let m' := m_provisional grad_v_gamma_TAP2 grad_h_gamma_TAP2
              (weights_0 self) (layers_0 self) (layers_1 self) 0.1 m_half in
  let out := fst (gibbs_free_energy self (Some m_half) 0.1 1e-4 50 2 draws_half) in
  0 <= gamma_TAP2 self m_half - gamma_TAP2 self m' < 1e-4 /\
  m' = mkMagnetization [0.5001] [0.5] /\
  out = Ok (m_half, gamma_TAP2 self m_half) /\
  out <> Ok (m', gamma_TAP2 self m').
Proof.
  intros self m' out.
  assert (Hm : m' = mkMagnetization [0.5001] [0.5]) by apply small_bias_provisional.
  assert (Hd : 0 <= gamma_TAP2 self m_half - gamma_TAP2 self m' < 1e-4)
    by (rewrite Hm; apply small_bias_decrease).
  assert (Ho : out = Ok (m_half, gamma_TAP2 self m_half)).
  { apply (gibbs_free_energy_converged self (Some m_half) 0.1 1e-4 50 2
             draws_half (gamma_TAP2 self) grad_v_gamma_TAP2 grad_h_gamma_TAP2
             0 (0.1, m_half, gamma_TAP2 self m_half)).
    - reflexivity.
    - apply reaches_here.
    - lia.
    - exact Hd. }
  repeat split; try tauto.
  rewrite Ho, Hm. unfold m_half. intros E.
  injection E as E _. lra.
Qed.

(** ** The clip range *)

Lemma eps_range : 0 < eps /\ eps <= 1.0 - eps /\ 1.0 - eps < 1.
Proof. unfold eps. lra. Qed.

Lemma clip_in_range (x : tensor) :
  Forall (fun t => eps <= t <= 1 - eps) (clip x eps (1.0 - eps)).
Proof.
  unfold clip. apply Forall_forall. intros t Ht.
  apply in_map_iff in Ht. destruct Ht as (t0 & <- & _).
  pose proof (clip1_range eps (1.0 - eps) t0 ltac:(unfold eps; lra)). lra.
Qed.

(** Whatever the step, the provisional point is in the clip range. *)
Lemma m_provisional_in_clip_range
  (grad_v_gamma grad_h_gamma : Magnetization -> matrix -> tensor -> tensor)
  (w : matrix) (a b : tensor) (lr : R) (m : Magnetization) :
  in_clip_range (m_provisional grad_v_gamma grad_h_gamma w a b lr m).
Proof.
  split; cbn [m_provisional v h]; apply clip_in_range.
Qed.

Lemma in_clip_range_in_domain (m : Magnetization) :
  in_clip_range m -> in_domain m.
Proof.
  intros [Hv Hh]. split; eapply Forall_impl; try eassumption;
    cbv beta; unfold eps; intros; lra.
Qed.

Lemma ln_10_bounds : 0.9 <= ln 10 <= 9.
Proof.
  pose proof (ln_le_minus_1 10 ltac:(lra)).
  pose proof (ln_lower_mult 10 ltac:(lra)). lra.
Qed.

Lemma ln_neg_pow_10 (k : nat) : ln (/ 10 ^ k) = - INR k * ln 10.
Proof.
  rewrite ln_Rinv by (apply pow_lt; lra). rewrite ln_pow by lra. ring.
Qed.

(** The entropy term at [1 - 10^-k], up to [10^-k]. *)
Lemma neg_entropy_below_one (k : nat) :
  (0 < k)%nat ->
  let d := / 10 ^ k in
  - d - d * INR k * ln 10 <= neg_entropy (1 - d) <= - d * INR k * ln 10.
Proof.
  intros Hk d.
  assert (Hd : 0 < d <= / 10).
  { unfold d. split.
    - apply Rinv_0_lt_compat, pow_lt; lra.
    - apply Rinv_le_contravar; [lra|]. destruct k; [lia|].
      cbn [pow]. assert (1 <= 10 ^ k) by (apply pow_R1_Rle; lra). nra. }
  unfold neg_entropy. replace (1.0 - (1 - d)) with d by lra.
  replace (ln d) with (- INR k * ln 10) by (symmetry; apply ln_neg_pow_10).
  pose proof (ln_lower_mult (1 - d) ltac:(lra)) as L.
  pose proof (ln_le_minus_1 (1 - d) ltac:(lra)) as U.
  set (p := ln (1 - d)) in *. set (q := ln 10) in *. set (n := INR k) in *.
  split; nra.
Qed.

Lemma near_one_entropy_decrease :
  0 <= neg_entropy (1 - 1e-7) - neg_entropy (1.0 - 1e-6) < 1e-4.
Proof.
  pose proof (neg_entropy_below_one 7 ltac:(lia)) as H7.
  pose proof (neg_entropy_below_one 6 ltac:(lia)) as H6.
  cbv zeta in H7, H6.
  replace (/ 10 ^ 7) with 1e-7 in H7 by (cbn [pow]; lra).
  replace (/ 10 ^ 6) with 1e-6 in H6 by (cbn [pow]; lra).
  replace (INR 7) with 7 in H7 by (cbn; lra).
  replace (INR 6) with 6 in H6 by (cbn; lra).
  replace (1.0 - 1e-6) with (1 - 1e-6) by lra.
  pose proof ln_10_bounds as HL.
  set (x := neg_entropy (1 - 1e-7)) in *. set (y := neg_entropy (1 - 1e-6)) in *.
  set (q := ln 10) in *.
  split; lra.
Qed.

(** The entropy term is the same at [x] and at [1 - x]. *)
Lemma neg_entropy_mirror (x : R) : neg_entropy (1.0 - x) = neg_entropy x.
Proof.
  unfold neg_entropy. replace (1.0 - (1.0 - x)) with x by lra. lra.
Qed.

Lemma ln_10_above_2 : 2 <= ln 10.
Proof.
  assert (H : exp 2 <= 10).
  { replace 2 with (1 + 1) by lra. rewrite exp_plus.
    pose proof exp_le_3 as H3. pose proof (exp_pos 1) as Hp. nra. }
  rewrite <- (ln_exp 2).
  destruct H as [H | H].
  - left. apply ln_increasing; [apply exp_pos | exact H].
  - right. rewrite H. reflexivity.
Qed.

(** The log-odds at [1 - 1e-7] are above 12. *)
Lemma near_one_log_odds : 12 <= ln ((1 - 1e-7) / (1.0 - (1 - 1e-7))).
Proof.
  pose proof ln_10_above_2 as H10.
  assert (E : ln (10 ^ 6) = 6 * ln 10) by (rewrite ln_pow by lra; cbn; lra).
  assert (Hl : ln (10 ^ 6) < ln ((1 - 1e-7) / (1.0 - (1 - 1e-7)))).
  { apply ln_increasing; [apply pow_lt; lra|].
    replace (1.0 - (1 - 1e-7)) with 1e-7 by lra.
    replace ((1 - 1e-7) / 1e-7) with (1e7 - 1) by (field; lra).
    cbn [pow]. lra. }
  lra.
Qed.

(** The first provisional point of the order-2 minimizer on the model
    without coupling and biases, started at [m_near_one]: the step on the
    visible component is so long that it is clipped to [eps]. *)
Lemma near_one_provisional :
  m_provisional grad_v_gamma_TAP2 grad_h_gamma_TAP2 [[0]] [0] [0] 0.1 m_near_one
  = mkMagnetization [eps] [0.5].
Proof.
  tensor_eval. rewrite ln_half_ratio.
  pose proof near_one_log_odds as HL.
  set (L := ln _) in *.
  rewrite clip1_below by (unfold eps; lra).
  rewrite clip1_inside by (unfold eps; lra). f_equal. f_equal. lra.
Qed.

Lemma near_one_decrease :
  let self := rbm_1x1 0 0 0 [] 2 in
  0 <= gamma_TAP2 self m_near_one
       - gamma_TAP2 self (mkMagnetization [eps] [0.5]) < 1e-4.
Proof.
  tensor_eval. rewrite !entropy_sum_1.
  pose proof near_one_entropy_decrease as H.
  rewrite neg_entropy_mirror in H. unfold eps.
  set (x := neg_entropy (1 - 1e-7)) in *.
  set (y := neg_entropy 1e-6) in *.
  set (z := neg_entropy 0.5). lra.
Qed.

Lemma m_near_one_in_domain : in_domain m_near_one.
Proof. split; cbn; repeat constructor; lra. Qed.

Lemma m_near_one_not_in_clip_range : ~ in_clip_range m_near_one.
Proof.
  intros [Hv _]. cbn in Hv. inversion Hv as [| ? ? Hx _]. unfold eps in Hx. lra.
Qed.

(** What a run keeps in hand is the seed or a clipped point. *)
Lemma gd_while_seed_or_clipped
  (gamma : Magnetization -> R)
  (grad_v_gamma grad_h_gamma : Magnetization -> matrix -> tensor -> tensor)
  (w : matrix) (a b : tensor) (tol : R) (n : nat) (lr : R)
  (m : Magnetization) (gam : R) :
  let out := st_m (gd_while gamma grad_v_gamma grad_h_gamma w a b tol n
                     (lr, m, gam)) in
  out = m \/ in_clip_range out.
Proof.
  cbv zeta.
  apply (gd_while_invariant gamma grad_v_gamma grad_h_gamma w a b tol
           (fun s => st_m s = m \/ in_clip_range (st_m s))).
  - intros s fl s' Hs E. apply gd_body_inv in E.
    destruct E; cbn [st_m fst snd]; auto.
    right. apply m_provisional_in_clip_range.
  - left. reflexivity.
Qed.

(** C9, as the code has it.  Starting the minimizer from a seed whose
    components are strictly inside (0,1), such as one with a component at
    1 - 1e-7: every provisional point has all its components within
    [1e-6, 1 - 1e-6]; after the first descent step the current
    magnetization is the unchanged seed (step rejected, or loop left) or
    that clipped provisional point (step accepted); and whatever the run
    returns is the seed or a point of the clip range, so every component
    stays strictly inside (0,1), where the logarithms are finite. *)
Theorem C9_run_stays_in_the_domain
  (gamma : Magnetization -> R)
  (grad_v_gamma grad_h_gamma : Magnetization -> matrix -> tensor -> tensor)
  (w : matrix) (a b : tensor) (tol lr : R) (m : Magnetization) (gam : R)
  (n : nat) :
  in_domain m ->
  let m' := m_provisional grad_v_gamma grad_h_gamma w a b lr m in
  let s1 := snd (gd_body gamma grad_v_gamma grad_h_gamma w a b tol (lr, m, gam)) in
  let out := st_m (gd_while gamma grad_v_gamma grad_h_gamma w a b tol n
                     (lr, m, gam)) in
  in_clip_range m' /\
  (st_m s1 = m \/ st_m s1 = m') /\
  (out = m \/ in_clip_range out) /\
  in_domain out.
Proof.
  intros Hm m' s1 out.
  assert (Hout : out = m \/ in_clip_range out) by apply gd_while_seed_or_clipped.
  split; [apply m_provisional_in_clip_range|]. split; [|split].
  - pose proof (gd_body_branch gamma grad_v_gamma grad_h_gamma w a b tol
                  (lr, m, gam)) as B.
    fold s1 in B. destruct B; cbn [st_m fst snd]; auto.
  - exact Hout.
  - destruct Hout as [-> | Hc]; [exact Hm | apply in_clip_range_in_domain, Hc].
Qed.

(** C9 on the order-2 minimizer on the model without coupling and biases,
    from the seed ((1 - 1e-7), 0.5), with the defaults of
    [gibbs_free_energy]. *)
Lemma C9_run_stays_in_the_domain_witness :
  in_domain (st_m (gd_while (gamma_TAP2 (rbm_1x1 0 0 0 [] 2)) grad_v_gamma_TAP2
                     grad_h_gamma_TAP2 [[0]] [0] [0] 1e-4 50
                     (0.1, m_near_one, gamma_TAP2 (rbm_1x1 0 0 0 [] 2) m_near_one))).
Proof.
  apply (C9_run_stays_in_the_domain (gamma_TAP2 (rbm_1x1 0 0 0 [] 2))
           grad_v_gamma_TAP2 grad_h_gamma_TAP2 [[0]] [0] [0] 1e-4 0.1
           m_near_one (gamma_TAP2 (rbm_1x1 0 0 0 [] 2) m_near_one) 50).
  split; cbn; repeat constructor; lra.
Defined.

(** C9, as stated, fails: from the seed ((1 - 1e-7), 0.5), on the model
    without coupling and biases and with the defaults of
    [gibbs_free_energy], the first pass finds a decrease in [0, tol) and
    leaves the loop; the current magnetization after it, which the call
    returns, is the seed, whose component 1 - 1e-7 is above 1 - 1e-6. *)
Lemma C9_seed_past_the_clip_bound_is_kept :
  let self := rbm_1x1 0 0 0 [] 2 in
  let s1 := snd (gd_body (gamma_TAP2 self) grad_v_gamma_TAP2 grad_h_gamma_TAP2
                   [[0]] [0] [0] 1e-4
                   (0.1, m_near_one, gamma_TAP2 self m_near_one)) in
  in_domain m_near_one /\
  st_m s1 = m_near_one /\
  fst (gibbs_free_energy self (Some m_near_one) 0.1 1e-4 50 2 draws_half)
    = Ok (m_near_one, gamma_TAP2 self m_near_one) /\
  ~ in_clip_range m_near_one.
Proof.
  intros self s1.
  assert (Hd : 0 <= gamma_TAP2 self m_near_one
                    - gamma_TAP2 self
                        (m_provisional grad_v_gamma_TAP2 grad_h_gamma_TAP2
                           [[0]] [0] [0] 0.1 m_near_one) < 1e-4).
  { rewrite near_one_provisional. apply near_one_decrease. }
  split; [apply m_near_one_in_domain|]. split; [|split].
  - pose proof (gd_while_converged (gamma_TAP2 self) grad_v_gamma_TAP2
                  grad_h_gamma_TAP2 [[0]] [0] [0] 1e-4 0
                  (0.1, m_near_one, gamma_TAP2 self m_near_one) Hd) as E.
    cbn [gd_while] in E. subst s1.
    destruct (gd_body _ _ _ _ _ _ _ _) as [[|] s']; cbn [snd]; rewrite E;
      reflexivity.
  - apply (gibbs_free_energy_converged self (Some m_near_one) 0.1 1e-4 50 2
             draws_half (gamma_TAP2 self) grad_v_gamma_TAP2 grad_h_gamma_TAP2
             0 (0.1, m_near_one, gamma_TAP2 self m_near_one)).
    + reflexivity.
    + apply reaches_here.
    + lia.
    + exact Hd.
  - apply m_near_one_not_in_clip_range.
Qed.

(** ** The functionals without coupling *)

Lemma tsum_zero (x : tensor) : Forall (fun t => t = 0) x -> tsum x = 0.
Proof.
  induction 1 as [| t x Ht _ IH]; cbn; [reflexivity|].
  unfold tsum in IH. rewrite Ht, IH. lra.
Qed.

Lemma multiply_zero_l (x y : tensor) :
  Forall (fun t => t = 0) x -> Forall (fun t => t = 0) (multiply x y).
Proof.
  intros Hx. revert y. induction Hx as [| t x Ht _ IH]; intros y; cbn.
  - constructor.
  - destruct y as [| u y]; constructor; [subst; lra | apply IH].
Qed.

Lemma multiply_zero_r (x y : tensor) :
  Forall (fun t => t = 0) y -> Forall (fun t => t = 0) (multiply x y).
Proof.
  intros Hy. revert x. induction Hy as [| t y Ht _ IH]; intros x.
  - destruct x; constructor.
  - destruct x as [| u x]; constructor; [subst; lra | apply IH].
Qed.

Lemma dot_zero_l (x y : tensor) : Forall (fun t => t = 0) x -> dot x y = 0.
Proof. intros Hx. apply tsum_zero, multiply_zero_l, Hx. Qed.

Lemma dot_zero_r (x y : tensor) : Forall (fun t => t = 0) y -> dot x y = 0.
Proof. intros Hy. apply tsum_zero, multiply_zero_r, Hy. Qed.

Lemma square_zero (x : tensor) :
  Forall (fun t => t = 0) x -> Forall (fun t => t = 0) (square x).
Proof.
  unfold square. induction 1 as [| t x Ht _ IH]; cbn; constructor; auto.
  subst. lra.
Qed.

Lemma scal_zero (c : R) (x : tensor) :
  Forall (fun t => t = 0) x -> Forall (fun t => t = 0) (scal c x).
Proof.
  unfold scal. induction 1 as [| t x Ht _ IH]; cbn; constructor; auto.
  subst. lra.
Qed.

Lemma square_m_zero (w : matrix) : zero_matrix w -> zero_matrix (square_m w).
Proof.
  unfold zero_matrix, square_m. induction 1; cbn; constructor; auto.
  apply square_zero. assumption.
Qed.

Lemma multiply_m_zero_l (x y : matrix) :
  zero_matrix x -> zero_matrix (multiply_m x y).
Proof.
  unfold zero_matrix, multiply_m. intros Hx. revert y.
  induction Hx as [| r x Hr _ IH]; intros y; cbn; [constructor|].
  destruct y; constructor; [apply multiply_zero_l, Hr | apply IH].
Qed.

Lemma multiply_col_zero (x : tensor) (w : matrix) :
  zero_matrix w -> zero_matrix (multiply_col x w).
Proof.
  unfold zero_matrix, multiply_col. intros Hw. revert x.
  induction Hw as [| r w Hr _ IH]; intros x.
  - destruct x; constructor.
  - destruct x; constructor; [apply scal_zero, Hr | apply IH].
Qed.

Lemma multiply_row_zero (y : tensor) (w : matrix) :
  zero_matrix w -> zero_matrix (multiply_row y w).
Proof.
  unfold zero_matrix, multiply_row. induction 1; cbn; constructor; auto.
  apply multiply_zero_r. assumption.
Qed.

Lemma tsum_m_zero (w : matrix) : zero_matrix w -> tsum_m w = 0.
Proof.
  unfold zero_matrix, tsum_m. intros Hw. apply tsum_zero.
  induction Hw; cbn; constructor; auto. apply tsum_zero. assumption.
Qed.

Lemma dot_mv_zero (w : matrix) (x : tensor) :
  zero_matrix w -> Forall (fun t => t = 0) (dot_mv w x).
Proof.
  unfold zero_matrix, dot_mv. induction 1; cbn; constructor; auto.
  apply dot_zero_l. assumption.
Qed.

(** Without coupling the order-2 and order-3 functionals agree, and the
    order-1 functional lies below them by the visible bias term [a . v],
    which it subtracts twice. *)
Lemma gamma_zero_weights (self : TAP_rbm) (m : Magnetization) :
  zero_matrix (weights_0 self) ->
  gamma_TAP3 self m = gamma_TAP2 self m /\
  gamma_MF self m = gamma_TAP2 self m - dot (layers_0 self) (v m).
Proof.
  intros Hw. unfold gamma_TAP3, gamma_TAP2, gamma_MF. cbv zeta.
  rewrite (tsum_m_zero (multiply_row _ _)).
  2:{ apply multiply_row_zero, multiply_col_zero, multiply_m_zero_l,
        square_m_zero, Hw. }
  rewrite (dot_zero_r _ (dot_mv (square_m _) _)).
  2:{ apply dot_mv_zero, square_m_zero, Hw. }
  split; lra.
Qed.


(** C4, on the code.  On the model with one visible and one hidden unit,
    zero weight, visible bias 1 and hidden bias 0, at the magnetization
    (0.5, 0.5): gamma_TAP2 and gamma_TAP3 agree, and gamma_MF is smaller by
    0.5, the visible bias term that it subtracts a second time. *)
Theorem C4_gamma_MF_subtracts_the_visible_bias_twice :
  let self := rbm_1x1 0 1 0 [] 1 in
  zero_matrix (weights_0 self) /\
  in_domain m_half /\
  gamma_TAP3 self m_half = gamma_TAP2 self m_half /\
  gamma_MF self m_half = gamma_TAP2 self m_half - 0.5 /\
  gamma_MF self m_half <> gamma_TAP2 self m_half.
Proof.
  intros self.
  assert (Hz : zero_matrix (weights_0 self)) by (repeat constructor).
  destruct (gamma_zero_weights self m_half Hz) as [H3 H1].
  assert (Hd : dot (layers_0 self) (v m_half) = 0.5)
    by (cbv [self rbm_1x1 layers_0 m_half v dot multiply map2 tsum fold_right]; lra).
  rewrite Hd in H1.
  split; [exact Hz|]. split; [split; cbn; repeat constructor; lra|].
  split; [exact H3|]. split; [exact H1|]. lra.
Qed.

(** ** The gradients against the derivatives of the functionals *)

Lemma derivable_pt_lim_eq (f g : R -> R) (x l : R) :
  (forall t, f t = g t) -> derivable_pt_lim f x l -> derivable_pt_lim g x l.
Proof.
  intros E. apply (derivable_pt_lim_locally_ext f g x (x - 1) (x + 1)); [lra|].
  intros; apply E.
Qed.

Lemma neg_entropy_derivative (x : R) :
  0 < x < 1 -> derivable_pt_lim neg_entropy x (logit x).
Proof.
  intros Hx.
  assert (D1 : derivable_pt_lim (id * ln)%F x (1 * ln x + id x * / x)).
  { apply derivable_pt_lim_mult; [apply derivable_pt_lim_id|].
    apply derivable_pt_lim_ln. lra. }
  assert (D2 : derivable_pt_lim (fct_cte 1.0 - id)%F x (0 - 1)).
  { apply derivable_pt_lim_minus;
      [apply derivable_pt_lim_const | apply derivable_pt_lim_id]. }
  assert (D3 : derivable_pt_lim (comp ln (fct_cte 1.0 - id)%F) x
                 (/ (1.0 - x) * (0 - 1))).
  { apply derivable_pt_lim_comp; [exact D2|].
    apply derivable_pt_lim_ln. unfold minus_fct, fct_cte, id. lra. }
  pose proof (derivable_pt_lim_plus _ _ _ _ _ D1
                (derivable_pt_lim_mult _ _ _ _ _ D2 D3)) as D.
  unfold logit.
  replace (ln x - ln (1 - x)) with
    (1 * ln x + id x * / x +
     ((0 - 1) * comp ln (fct_cte 1.0 - id)%F x
      + (fct_cte 1.0 - id)%F x * (/ (1.0 - x) * (0 - 1)))).
  - exact D.
  - unfold comp, minus_fct, fct_cte, id. replace (1.0 - x) with (1 - x) by lra.
    field. lra.
Qed.

Lemma cubic_derivative (c0 c1 c2 c3 x : R) :
  derivable_pt_lim (fun t => c0 + c1 * t + c2 * (t * t) + c3 * (t * t * t)) x
    (c1 + 2 * c2 * x + 3 * c3 * (x * x)).
Proof.
  assert (Did := derivable_pt_lim_id x).
  assert (D2 := derivable_pt_lim_mult _ _ _ _ _ Did Did).
  assert (D3 := derivable_pt_lim_mult _ _ _ _ _ D2 Did).
  assert (E1 := derivable_pt_lim_scal _ c1 _ _ Did).
  assert (E2 := derivable_pt_lim_scal _ c2 _ _ D2).
  assert (E3 := derivable_pt_lim_scal _ c3 _ _ D3).
  assert (D := derivable_pt_lim_plus _ _ _ _ _
                 (derivable_pt_lim_plus _ _ _ _ _
                    (derivable_pt_lim_plus _ _ _ _ _
                       (derivable_pt_lim_const c0 x) E1) E2) E3).
  eapply derivable_pt_lim_eq;
    [| replace (c1 + 2 * c2 * x + 3 * c3 * (x * x))
        with (0 + c1 * 1 + c2 * (1 * id x + id x * 1)
              + c3 * ((1 * id x + id x * 1) * id x + (id * id)%F x * 1));
       [exact D|]].
  - intros t. unfold plus_fct, mult_fct, mult_real_fct, fct_cte, id. ring.
  - unfold mult_fct, id. ring.
Qed.

(** The derivative of an entropy term plus a cubic. *)
Lemma entropy_plus_cubic_derivative (f : R -> R) (c0 c1 c2 c3 x l : R) :
  0 < x < 1 ->
  (forall t, f t = neg_entropy t
                   + (c0 + c1 * t + c2 * (t * t) + c3 * (t * t * t))) ->
  l = logit x + (c1 + 2 * c2 * x + 3 * c3 * (x * x)) ->
  derivable_pt_lim f x l.
Proof.
  intros Hx Hf ->.
  eapply derivable_pt_lim_eq; [intros t; symmetry; apply Hf|].
  apply (derivable_pt_lim_plus neg_entropy
           (fun t => c0 + c1 * t + c2 * (t * t) + c3 * (t * t * t))).
  - apply neg_entropy_derivative, Hx.
  - apply cubic_derivative.
Qed.

Ltac plain_constants :=
  replace 1.0 with 1 by lra; replace 0.5 with (/ 2) by lra;
  replace 3.0 with 3 by lra; replace 4.0 with 4 by lra.

(** What [be.log (be.divide (1.0 - x) x)] computes: the log-odds. *)
Lemma ln_odds (x : R) : 0 < x < 1 -> ln (x / (1.0 - x)) = logit x.
Proof.
  intros Hx. unfold logit, Rdiv. rewrite ln_mult, ln_Rinv; try lra.
  - replace (1.0 - x) with (1 - x) by lra. lra.
  - apply Rinv_0_lt_compat. lra.
Qed.

(** On the models with one visible and one hidden unit, at any point
    strictly inside the unit square: the derivatives of the three
    functionals along each component, and what the closed-form gradients
    return.  The two agree but for the visible bias of order 1, which the
    order-1 functional has twice. *)
Section one_by_one.

Variables w0 a0 b0 x y : R.
Hypothesis Hx : 0 < x < 1.
Hypothesis Hy : 0 < y < 1.

Ltac slice_derivative c0 c1 c2 c3 H :=
  apply (entropy_plus_cubic_derivative _ c0 c1 c2 c3);
  [ exact H
  | intros t; unfold slice_v, slice_h; tensor_eval; rewrite !entropy_sum_1;
    plain_constants; field
  | plain_constants; field ].

Ltac gradient_value H :=
  tensor_eval; rewrite (ln_odds _ H); f_equal; plain_constants; field.

Lemma gamma_MF_dv (terms : Z) :
  derivable_pt_lim (slice_v (gamma_MF (rbm_1x1 w0 a0 b0 [] terms)) y) x
    (logit x - 2 * a0 - w0 * y).
Proof.
  slice_derivative (neg_entropy y - b0 * y) (- 2 * a0 - w0 * y) 0 0 Hx.
Qed.

Lemma gamma_TAP2_dv (terms : Z) :
  derivable_pt_lim (slice_v (gamma_TAP2 (rbm_1x1 w0 a0 b0 [] terms)) y) x
    (logit x - a0 - w0 * y - (0.5 - x) * (w0 * w0 * (y - y * y))).
Proof.
  slice_derivative (neg_entropy y - b0 * y)
    (- (a0 + w0 * y) - / 2 * (w0 * w0 * (y - y * y)))
    (/ 2 * (w0 * w0 * (y - y * y))) 0 Hx.
Qed.

Lemma gamma_TAP3_dv (terms : Z) :
  derivable_pt_lim (slice_v (gamma_TAP3 (rbm_1x1 w0 a0 b0 [] terms)) y) x
    (logit x - a0 - w0 * y - (0.5 - x) * (w0 * w0 * (y - y * y))
     - (4.0 / 3.0) * ((0.5 - 3.0 * x + 3.0 * (x * x))
                      * (w0 * w0 * w0 * ((0.5 - y) * (y - y * y))))).
Proof.
  slice_derivative (neg_entropy y - b0 * y)
    (- (a0 + w0 * y) - / 2 * (w0 * w0 * (y - y * y))
      - 2 / 3 * (w0 * w0 * w0 * ((/ 2 - y) * (y - y * y))))
    (/ 2 * (w0 * w0 * (y - y * y))
      + 2 * (w0 * w0 * w0 * ((/ 2 - y) * (y - y * y))))
    (- (4 / 3) * (w0 * w0 * w0 * ((/ 2 - y) * (y - y * y)))) Hx.
Qed.

Lemma gamma_MF_dh (terms : Z) :
  derivable_pt_lim (slice_h (gamma_MF (rbm_1x1 w0 a0 b0 [] terms)) x) y
    (logit y - b0 - x * w0).
Proof.
  slice_derivative (neg_entropy x - 2 * a0 * x) (- b0 - x * w0) 0 0 Hy.
Qed.

Lemma gamma_TAP2_dh (terms : Z) :
  derivable_pt_lim (slice_h (gamma_TAP2 (rbm_1x1 w0 a0 b0 [] terms)) x) y
    (logit y - b0 - x * w0 - ((x - x * x) * (w0 * w0)) * (0.5 - y)).
Proof.
  slice_derivative (neg_entropy x - a0 * x)
    (- b0 - x * w0 - / 2 * ((x - x * x) * (w0 * w0)))
    (/ 2 * ((x - x * x) * (w0 * w0))) 0 Hy.
Qed.

Lemma gamma_TAP3_dh (terms : Z) :
  derivable_pt_lim (slice_h (gamma_TAP3 (rbm_1x1 w0 a0 b0 [] terms)) x) y
    (logit y - b0 - x * w0 - ((x - x * x) * (w0 * w0)) * (0.5 - y)
     - (4.0 / 3.0) * (((0.5 - x) * (x - x * x) * (w0 * w0 * w0))
                      * (0.5 - 3.0 * y + 3.0 * (y * y)))).
Proof.
  slice_derivative (neg_entropy x - a0 * x)
    (- b0 - x * w0 - / 2 * ((x - x * x) * (w0 * w0))
      - 2 / 3 * ((/ 2 - x) * (x - x * x) * (w0 * w0 * w0)))
    (/ 2 * ((x - x * x) * (w0 * w0))
      + 2 * ((/ 2 - x) * (x - x * x) * (w0 * w0 * w0)))
    (- (4 / 3) * ((/ 2 - x) * (x - x * x) * (w0 * w0 * w0))) Hy.
Qed.

Lemma grad_v_gamma_MF_1x1 :
  grad_v_gamma_MF (mkMagnetization [x] [y]) [[w0]] [a0]
  = [logit x - a0 - w0 * y].
Proof. gradient_value Hx. Qed.

Lemma grad_v_gamma_TAP2_1x1 :
  grad_v_gamma_TAP2 (mkMagnetization [x] [y]) [[w0]] [a0]
  = [logit x - a0 - w0 * y - (0.5 - x) * (w0 * w0 * (y - y * y))].
Proof. gradient_value Hx. Qed.

Lemma grad_v_gamma_TAP3_1x1 :
  grad_v_gamma_TAP3 (mkMagnetization [x] [y]) [[w0]] [a0]
  = [logit x - a0 - w0 * y - (0.5 - x) * (w0 * w0 * (y - y * y))
     - (4.0 / 3.0) * ((0.5 - 3.0 * x + 3.0 * (x * x))
                      * (w0 * w0 * w0 * ((0.5 - y) * (y - y * y))))].
Proof. gradient_value Hx. Qed.

Lemma grad_h_gamma_MF_1x1 :
  grad_h_gamma_MF (mkMagnetization [x] [y]) [[w0]] [b0]
  = [logit y - b0 - x * w0].
Proof. gradient_value Hy. Qed.

Lemma grad_h_gamma_TAP2_1x1 :
  grad_h_gamma_TAP2 (mkMagnetization [x] [y]) [[w0]] [b0]
  = [logit y - b0 - x * w0 - ((x - x * x) * (w0 * w0)) * (0.5 - y)].
Proof. gradient_value Hy. Qed.

Lemma grad_h_gamma_TAP3_1x1 :
  grad_h_gamma_TAP3 (mkMagnetization [x] [y]) [[w0]] [b0]
  = [logit y - b0 - x * w0 - ((x - x * x) * (w0 * w0)) * (0.5 - y)
     - (4.0 / 3.0) * (((0.5 - x) * (x - x * x) * (w0 * w0 * w0))
                      * (0.5 - 3.0 * y + 3.0 * (y * y)))].
Proof. gradient_value Hy. Qed.

End one_by_one.

(** A gradient entry that is off the derivative is not a derivative. *)
Lemma not_derivative (f : R -> R) (x l l' : R) :
  derivable_pt_lim f x l -> l' <> l -> ~ derivable_pt_lim f x l'.
Proof.
  intros D Hne D'. apply Hne. eapply uniqueness_limite; eauto.
Qed.

(** C1, on the code.  On the models with one visible and one hidden unit,
    for every weight and biases and at every magnetization strictly inside
    the unit square: grad_h_gamma_MF, grad_v_gamma_TAP2, grad_h_gamma_TAP2,
    grad_v_gamma_TAP3 and grad_h_gamma_TAP3 are the partial derivatives of
    their functionals.  The derivative of gamma_MF along v is
    grad_v_gamma_MF(m, w, a) - a, since gamma_MF subtracts dot(a, v) twice;
    so grad_v_gamma_MF is the derivative of gamma_MF only when a is 0, and
    with any other visible bias it is not. *)
Theorem C1_order1_visible_gradient_is_off_by_the_bias
  (w0 a0 b0 x y : R) (terms : Z) :
  let self := rbm_1x1 w0 a0 b0 [] terms in
  let m := mkMagnetization [x] [y] in
  let w := weights_0 self in
  let a := layers_0 self in
  let b := layers_1 self in
  in_domain m ->
  is_derivative_h (gamma_MF self) (grad_h_gamma_MF m w b) m /\
  is_derivative_v (gamma_TAP2 self) (grad_v_gamma_TAP2 m w a) m /\
  is_derivative_h (gamma_TAP2 self) (grad_h_gamma_TAP2 m w b) m /\
  is_derivative_v (gamma_TAP3 self) (grad_v_gamma_TAP3 m w a) m /\
  is_derivative_h (gamma_TAP3 self) (grad_h_gamma_TAP3 m w b) m /\
  is_derivative_v (gamma_MF self) (subtract (grad_v_gamma_MF m w a) a) m /\
  (is_derivative_v (gamma_MF self) (grad_v_gamma_MF m w a) m <-> a0 = 0).
Proof.
  intros self m w a b [Hv Hh].
  assert (Hx : 0 < x < 1) by (inversion Hv; assumption).
  assert (Hy : 0 < y < 1) by (inversion Hh; assumption).
  subst self m w a b. cbn [rbm_1x1 weights_0 layers_0 layers_1].
  unfold is_derivative_v, is_derivative_h. cbn [v h nth].
  rewrite (grad_v_gamma_MF_1x1 w0 a0 x y Hx),
          (grad_h_gamma_MF_1x1 w0 b0 x y Hy),
          (grad_v_gamma_TAP2_1x1 w0 a0 x y Hx),
          (grad_h_gamma_TAP2_1x1 w0 b0 x y Hy),
          (grad_v_gamma_TAP3_1x1 w0 a0 x y Hx),
          (grad_h_gamma_TAP3_1x1 w0 b0 x y Hy).
  cbn [subtract map2 nth].
  pose proof (gamma_MF_dv w0 a0 b0 x y Hx terms) as D1v.
  fold (rbm_1x1 w0 a0 b0 [] terms).
  split; [apply (gamma_MF_dh w0 a0 b0 x y Hy)|].
  split; [apply (gamma_TAP2_dv w0 a0 b0 x y Hx)|].
  split; [apply (gamma_TAP2_dh w0 a0 b0 x y Hy)|].
  split; [apply (gamma_TAP3_dv w0 a0 b0 x y Hx)|].
  split; [apply (gamma_TAP3_dh w0 a0 b0 x y Hy)|].
  split.
  - replace (logit x - a0 - w0 * y - a0) with (logit x - 2 * a0 - w0 * y)
      by lra. exact D1v.
  - split.
    + intros D.
      pose proof (uniqueness_limite _ _ _ _ D D1v). lra.
    + intros ->.
      replace (logit x - 0 - w0 * y) with (logit x - 2 * 0 - w0 * y) by lra.
      exact D1v.
Qed.

(** C1 with visible bias 1, no coupling, at the magnetization
    (0.25, 0.25): grad_v_gamma_MF returns ln (1/3) - 1 where the derivative
    of gamma_MF is ln (1/3) - 2. *)
Lemma C1_order1_visible_gradient_witness :
  let self := rbm_1x1 0 1 0 [] 1 in
  is_derivative_v (gamma_MF self)
    (subtract (grad_v_gamma_MF m_quarter [[0]] [1]) [1]) m_quarter /\
  ~ is_derivative_v (gamma_MF self) (grad_v_gamma_MF m_quarter [[0]] [1])
      m_quarter.
Proof.
  intros self.
  destruct (C1_order1_visible_gradient_is_off_by_the_bias 0 1 0 0.25 0.25 1)
    as (_ & _ & _ & _ & _ & D & E).
  - split; cbn; repeat constructor; lra.
  - split; [exact D|]. intros H. apply E in H. lra.
Defined.

(** ** The minimizer at order 3 *)





(** ** The persistent-sample pool *)

Lemma neg_entropy_bounds (x : R) : 0 < x < 1 -> - 1 <= neg_entropy x <= 0.
Proof.
  intros Hx. unfold neg_entropy. replace (1.0 - x) with (1 - x) by lra.
  pose proof (ln_lower_mult x ltac:(lra)).
  pose proof (ln_lower_mult (1 - x) ltac:(lra)).
  pose proof (ln_le_minus_1 x ltac:(lra)).
  pose proof (ln_le_minus_1 (1 - x) ltac:(lra)).
  set (p := ln x) in *. set (q := ln (1 - x)) in *. split; nra.
Qed.

Lemma steep_bias_first_provisional :
  m_provisional grad_v_gamma_TAP2 grad_h_gamma_TAP2 [[0]] [- 1e14] [0] 0.1 m_half
  = m_floor.
Proof.
  tensor_eval. rewrite ln_half_ratio.
  rewrite clip1_below by (unfold eps; lra).
  rewrite clip1_inside by (unfold eps; lra). unfold eps. f_equal; f_equal; lra.
Qed.

Lemma steep_bias_second_provisional :
  m_provisional grad_v_gamma_TAP2 grad_h_gamma_TAP2 [[0]] [- 1e14] [0] 0.1 m_floor
  = m_floor.
Proof.
  tensor_eval. rewrite ln_half_ratio.
  assert (HL : - 54 <= ln (1e-6 / (1.0 - 1e-6))).
  { pose proof ln_10_bounds as H10. pose proof (ln_neg_pow_10 6) as E.
    replace (INR 6) with 6 in E by (cbn; lra).
    assert (Hl : ln (/ 10 ^ 6) < ln (1e-6 / (1.0 - 1e-6))).
    { apply ln_increasing; [apply Rinv_0_lt_compat, pow_lt; lra|].
      replace (/ 10 ^ 6) with 1e-6 by (cbn [pow]; lra).
      assert (Hi : 1 < / (1.0 - 1e-6)).
      { rewrite <- Rinv_1 at 1. apply Rinv_lt_contravar; lra. }
      unfold Rdiv. nra. }
    lra. }
  set (L := ln _) in *.
  rewrite clip1_below by (unfold eps; lra).
  rewrite clip1_inside by (unfold eps; lra). unfold eps. f_equal; f_equal; lra.
Qed.

Lemma steep_bias_gamma (x y : R) pool terms :
  gamma_TAP2 (rbm_1x1 0 (- 1e14) 0 pool terms) (mkMagnetization [x] [y])
  = neg_entropy x + neg_entropy y + 1e14 * x.
Proof. tensor_eval. rewrite !entropy_sum_1. lra. Qed.

Lemma steep_bias_run pool g :
  let self := rbm_1x1 0 (- 1e14) 0 pool 2 in
  gibbs_free_energy self (Some m_half) 0.1 1e-7 100 2 g
    = (Ok (m_floor, gamma_TAP2 self m_floor), g) /\
  1e7 <= gamma_TAP2 self m_floor.
Proof.
  intros self.
  pose proof (neg_entropy_bounds 0.5 ltac:(lra)) as B1.
  pose proof (neg_entropy_bounds 1e-6 ltac:(lra)) as B2.
  assert (G0 : gamma_TAP2 self m_half = neg_entropy 0.5 + neg_entropy 0.5 + 1e14 * 0.5)
    by apply steep_bias_gamma.
  assert (G1 : gamma_TAP2 self m_floor = neg_entropy 1e-6 + neg_entropy 0.5 + 1e14 * 1e-6)
    by apply steep_bias_gamma.
  split; [|lra].
  pose proof (gibbs_free_energy_converged self (Some m_half) 0.1 1e-7 100 2 g
                (gamma_TAP2 self) grad_v_gamma_TAP2 grad_h_gamma_TAP2 1
                (0.1, m_floor, gamma_TAP2 self m_floor)) as H.
  cbv zeta in H.
  assert (E : gibbs_free_energy self (Some m_half) 0.1 1e-7 100 2 g =
              (fst (gibbs_free_energy self (Some m_half) 0.1 1e-7 100 2 g), g)).
  { rewrite gibbs_free_energy_valid by (right; left; reflexivity). reflexivity. }
  rewrite E. f_equal. apply H.
  - reflexivity.
  - eapply reaches_next; [|apply reaches_here].
    cbn [resolve_seed fst]. unfold gd_body.
    change (weights_0 self) with [[0]]. change (layers_0 self) with [- 1e14].
    change (layers_1 self) with [0].
    rewrite steep_bias_first_provisional.
    destruct (Rlt_dec _ 0); [lra|]. destruct (Rlt_dec _ 1e-7); [lra|].
    reflexivity.
  - lia.
  - cbn [st_lr st_m st_gam fst snd].
    change (weights_0 self) with [[0]]. change (layers_0 self) with [- 1e14].
    change (layers_1 self) with [0].
    rewrite steep_bias_second_provisional. lra.
Qed.

Lemma last_cons_default {A : Type} (l : list A) (x d : A) :
  last (x :: l) d = last l x.
Proof.
  revert x d. induction l as [| y l IH]; intros x d; [reflexivity|].
  change (last (y :: l) d = last (y :: l) x). rewrite !IH. reflexivity.
Qed.

Lemma minimized_pool_length self slots g :
  valid_terms (terms self) ->
  length (fst (minimized_pool self slots g)) = length slots.
Proof.
  intros Hv. revert g. induction slots as [| seed rest IH]; intros g; cbn.
  - reflexivity.
  - destruct (gibbs_free_energy_returns self seed (init_lr_EMF self)
                (tolerance_EMF self) (max_iters_EMF self) (terms self) g Hv)
      as (m & gam & E & _).
    rewrite E. specialize (IH (snd (resolve_seed self seed g))).
    destruct (minimized_pool self rest _) as [rs g']. cbn in *. lia.
Qed.

Lemma persistent_loop_spec self slots EMF0 best0 m0 g :
  valid_terms (terms self) ->
  let rs := fst (minimized_pool self slots g) in
  exists EMF best m,
    persistent_loop self slots (EMF0, best0, m0) g =
      (Ok (EMF, best, m), map (fun r => Some (fst r)) rs,
       snd (minimized_pool self slots g)) /\
    EMF = last (map snd rs) EMF0 /\
    ((m = m0 /\ best = best0 /\ Forall (fun r => best0 <= snd r) rs) \/
     (exists r, lowest_of r rs /\ m = Some (fst r) /\ best = snd r /\
                snd r < best0)).
Proof.
  intros Hv. revert EMF0 best0 m0 g.
  induction slots as [| seed rest IH]; intros EMF0 best0 m0 g rs.
  - cbn. eexists _, _, _. split; [reflexivity|]. split; [reflexivity|].
    left. auto.
  - subst rs. cbn [persistent_loop minimized_pool].
    destruct (gibbs_free_energy_returns self seed (init_lr_EMF self)
                (tolerance_EMF self) (max_iters_EMF self) (terms self) g Hv)
      as (m1 & gam1 & E & _).
    rewrite E. set (g1 := snd (resolve_seed self seed g)).
    destruct (Rlt_dec gam1 best0) as [Hlt | Hge].
    + destruct (IH gam1 gam1 (Some m1) g1) as (EMF & best & m & Hl & HE & Hs).
      rewrite Hl. destruct (minimized_pool self rest g1) as [rs g2].
      cbn [fst snd map] in *.
      eexists _, _, _. split; [reflexivity|]. split.
      { rewrite HE. symmetry. apply last_cons_default. }
      right. destruct Hs as [(-> & -> & Hall) | (r & [Hin Hlow] & -> & -> & Hr)].
      * exists (m1, gam1). repeat split; cbn; auto.
        constructor; [cbn; lra | exact Hall].
      * exists r. repeat split; cbn; auto; try lra.
        constructor; [cbn; lra | exact Hlow].
    + destruct (IH gam1 best0 m0 g1) as (EMF & best & m & Hl & HE & Hs).
      rewrite Hl. destruct (minimized_pool self rest g1) as [rs g2].
      cbn [fst snd map] in *.
      eexists _, _, _. split; [reflexivity|]. split.
      { rewrite HE. symmetry. apply last_cons_default. }
      destruct Hs as [(-> & -> & Hall) | (r & [Hin Hlow] & -> & -> & Hr)].
      * left. repeat split; auto. constructor; [cbn; lra | exact Hall].
      * right. exists r. repeat split; cbn; auto.
        constructor; [cbn; lra | exact Hlow].
Qed.


(** With a valid order and a pool that is not empty, [gradient] leaves in
    every slot what the minimizer made of that slot; and it either finds no
    candidate below its initial [best_EMF] of 1e7, keeps [m = None] and
    raises, or takes a candidate with the lowest estimate. *)
Lemma gradient_pool_spec (self : TAP_rbm) (units_0 : matrix) (g : rng) :
  valid_terms (terms self) ->
  persistent_samples self <> [] ->
  let rs := fst (minimized_pool self (persistent_samples self) g) in
  let out := gradient self units_0 g in
  length rs = length (persistent_samples self) /\
  persistent_samples (snd (fst out)) = map (fun r => Some (fst r)) rs /\
  ((Forall (fun r => 1e7 <= snd r) rs /\ fst (fst out) = Raise AttributeError)
   \/
   (exists r EMF,
      lowest_of r rs /\ snd r < 1e7 /\
      gradient_EMF self g =
        (Ok (Some (fst r), EMF), map (fun r => Some (fst r)) rs,
         snd (minimized_pool self (persistent_samples self) g)))).
Proof.
  intros Hv Hne rs out.
  split; [apply minimized_pool_length, Hv|].
  destruct (persistent_loop_spec self (persistent_samples self) 1e6 1e7 None g Hv)
    as (EMF & best & m & Hl & _ & Hs).
  fold rs in Hl, Hs.
  assert (HE : gradient_EMF self g =
               (Ok (m, EMF), map (fun r => Some (fst r)) rs,
                snd (minimized_pool self (persistent_samples self) g))).
  { unfold gradient_EMF.
    destruct (persistent_samples self) as [| s0 rest] eqn:Ep; [congruence|].
    cbn [length Nat.eqb]. rewrite Hl. reflexivity. }
  subst out. unfold gradient. rewrite HE.
  destruct Hv as [Hv | [Hv | Hv]]; rewrite Hv; cbn [Z.eqb Pos.eqb].
  all: destruct Hs as [(-> & _ & Hall) | (r & Hlow & -> & _ & Hr)];
    cbn [fst snd persistent_samples with_persistent_samples];
    (split; [reflexivity|]);
    [ left; split; [exact Hall | reflexivity]
    | right; exists r, EMF; auto ].
Qed.

(** C5, on the code.  A pool of one slot holding (0.5, 0.5), on the model
    with one visible and one hidden unit, zero weight, visible bias -1e14
    and hidden bias 0, with the defaults of the constructor: the minimizer
    overwrites the slot with (1e-6, 0.5), whose free-energy estimate is
    1e7 or more; no candidate is below the initial best_EMF = 1e7, so m
    stays None and gradient raises on it instead of taking the candidate
    with the lowest estimate. *)
Theorem C5_no_candidate_below_initial_best_EMF (units_0 : matrix) (g : rng) :
  let self := rbm_1x1 0 (- 1e14) 0 [Some m_half] 2 in
  gibbs_free_energy self (Some m_half) (init_lr_EMF self) (tolerance_EMF self)
    (max_iters_EMF self) (terms self) g
    = (Ok (m_floor, gamma_TAP2 self m_floor), g) /\
  1e7 <= gamma_TAP2 self m_floor /\
  gradient_EMF self g
    = (Ok (None, gamma_TAP2 self m_floor), [Some m_floor], g) /\
  gradient self units_0 g
    = (Raise AttributeError, with_persistent_samples self [Some m_floor], g).
Proof.
  intros self.
  destruct (steep_bias_run [Some m_half] g) as [Hrun Hbig].
  fold self in Hrun, Hbig.
  assert (HE : gradient_EMF self g
               = (Ok (None, gamma_TAP2 self m_floor), [Some m_floor], g)).
  { unfold gradient_EMF. cbn [persistent_samples self rbm_1x1 length Nat.eqb].
    cbn [persistent_loop].
    change (init_lr_EMF _) with 0.1. change (tolerance_EMF _) with 1e-7.
    change (max_iters_EMF _) with 100%Z. change (terms _) with 2%Z.
    fold self. rewrite Hrun.
    destruct (Rlt_dec (gamma_TAP2 self m_floor) 1e7); [lra | reflexivity]. }
  split; [exact Hrun|]. split; [exact Hbig|]. split; [exact HE|].
  unfold gradient. rewrite HE. reflexivity.
Qed.

(** * Further properties of the code *)

(** ** The minimizer seen from its callers *)

(** X1.  With a valid order the minimizer never returns a value above the
    one at its seed: the returned gam is at most the selected functional at
    the seed, given or drawn, for every learning rate, tolerance and bound
    on the passes. *)
Theorem gibbs_free_energy_not_above_seed
  (self : TAP_rbm) (seed : option Magnetization) (init_lr tol : R)
  (max_iters terms : Z) (g : rng) :
  valid_terms terms ->
  exists m gam,
    fst (gibbs_free_energy self seed init_lr tol max_iters terms g) = Ok (m, gam) /\
    gam <= selected_gamma self terms (fst (resolve_seed self seed g)).
Proof.
  intros Hv. rewrite (gibbs_free_energy_valid _ _ _ _ _ _ _ Hv). cbn [fst].
  destruct (minimize_gamma_GD_valid self (weights_0 self) (layers_0 self)
              (layers_1 self) (fst (resolve_seed self seed g)) init_lr tol
              max_iters terms Hv)
    as (gamma & gv & gh & Hb & Hg & Hm).
  rewrite Hm. cbv zeta. eexists _, _. split; [reflexivity|].
  rewrite <- Hg.
  apply (gd_while_invariant gamma gv gh _ _ _ tol
           (fun s => st_gam s <= gamma (fst (resolve_seed self seed g)))).
  - intros s fl s' Hi E. apply gd_body_inv in E.
    destruct E as [m' H1 H2 | m' H1 H2 | m' H1 | m' H1 H2];
      cbn [st_gam snd fst] in *; try exact Hi. fold m'. lra.
  - cbn. lra.
Qed.

(** X1 on the order-3 minimizer from a drawn seed. *)
Lemma gibbs_free_energy_not_above_seed_witness :
  valid_terms 3 /\
  exists m gam,
    fst (gibbs_free_energy (rbm_1x1 0.5 0.001 0 [] 3) None 0.1 1e-4 50 3 draws_half)
      = Ok (m, gam) /\
    gam <= selected_gamma (rbm_1x1 0.5 0.001 0 [] 3) 3
             (fst (resolve_seed (rbm_1x1 0.5 0.001 0 [] 3) None draws_half)).
Proof.
  assert (Hv : valid_terms 3) by (right; right; reflexivity).
  split; [exact Hv|].
  exact (gibbs_free_energy_not_above_seed (rbm_1x1 0.5 0.001 0 [] 3) None 0.1
           1e-4 50 3 draws_half Hv).
Defined.

(** X2.  With a valid order and max_iters zero or negative the loop body
    never runs: the call returns the seed itself, given or drawn, with the
    selected functional at the seed. *)
Theorem gibbs_free_energy_without_passes
  (self : TAP_rbm) (seed : option Magnetization) (init_lr tol : R)
  (max_iters terms : Z) (g : rng) :
  valid_terms terms -> (max_iters <= 0)%Z ->
  fst (gibbs_free_energy self seed init_lr tol max_iters terms g)
    = Ok (fst (resolve_seed self seed g),
          selected_gamma self terms (fst (resolve_seed self seed g))).
Proof.
  intros Hv Hn. rewrite (gibbs_free_energy_valid _ _ _ _ _ _ _ Hv). cbn [fst].
  destruct (minimize_gamma_GD_valid self (weights_0 self) (layers_0 self)
              (layers_1 self) (fst (resolve_seed self seed g)) init_lr tol
              max_iters terms Hv)
    as (gamma & gv & gh & Hb & Hg & Hm).
  rewrite Hm. replace (Z.to_nat max_iters) with 0%nat by lia.
  cbn. rewrite Hg. reflexivity.
Qed.

(** X2 on the order-2 minimizer with max_iters = 0. *)
Lemma gibbs_free_energy_without_passes_witness :
  fst (gibbs_free_energy (rbm_1x1 0 0.001 0 [] 2) (Some m_half) 0.1 1e-4 0 2
         draws_half)
  = Ok (m_half, selected_gamma (rbm_1x1 0 0.001 0 [] 2) 2 m_half).
Proof.
  apply (gibbs_free_energy_without_passes (rbm_1x1 0 0.001 0 [] 2)
           (Some m_half) 0.1 1e-4 0 2 draws_half).
  - right; left; reflexivity.
  - lia.
Defined.

(** X3.  A call with a seed leaves the generator as it is, in
    gibbs_free_energy and in heat_capacity.  A call without one draws
    len(a) + len(b) numbers: the first len(a) draws give v, the next len(b)
    give h, each as 0.99 * draw + 0.005, and the generator is left that
    many draws further; gibbs_free_energy with an invalid order draws
    nothing. *)
Theorem seed_draws_and_generator
  (self : TAP_rbm) (s : Magnetization) (init_lr tol : R)
  (max_iters terms : Z) (g : rng) :
  let n_v := length (layers_0 self) in
  let n_h := length (layers_1 self) in
  snd (gibbs_free_energy self (Some s) init_lr tol max_iters terms g) = g /\
  snd (heat_capacity self (Some s) init_lr tol max_iters g) = g /\
  fst (random_seed (layers_0 self) (layers_1 self) g) =
    mkMagnetization
      (map (fun i => 0.99 * g i + 0.005) (seq 0 n_v))
      (map (fun i => 0.99 * g (n_v + i)%nat + 0.005) (seq 0 n_h)) /\
  (forall k,
     snd (heat_capacity self None init_lr tol max_iters g) k
       = g (n_v + n_h + k)%nat) /\
  (forall k,
     snd (gibbs_free_energy self None init_lr tol max_iters terms g) k
       = if negb (terms =? 1)%Z && negb (terms =? 2)%Z && negb (terms =? 3)%Z
         then g k else g (n_v + n_h + k)%nat).
Proof.
  intros n_v n_h.
  assert (Hr : forall k, snd (random_seed (layers_0 self) (layers_1 self) g) k
                         = g (n_v + n_h + k)%nat).
  { intros k. unfold random_seed, rand. cbn [snd]. f_equal. lia. }
  split; [|split; [|split; [|split]]].
  - unfold gibbs_free_energy. destruct (_ && _); reflexivity.
  - reflexivity.
  - unfold random_seed, rand. cbn [fst]. unfold addr, scal.
    rewrite !map_map. reflexivity.
  - intros k. unfold heat_capacity. specialize (Hr k).
    destruct (random_seed _ _ g) as [s0 g']. exact Hr.
  - intros k. unfold gibbs_free_energy. destruct (_ && _); [reflexivity|].
    specialize (Hr k).
    destruct (random_seed _ _ g) as [s0 g']. exact Hr.
Qed.

Lemma random_seed_in_seed_range (a b : tensor) (g : rng) :
  unit_draws g -> in_seed_range (fst (random_seed a b g)).
Proof.
  intros Hg. unfold random_seed, rand, in_seed_range. cbn [fst v h].
  unfold addr, scal. rewrite !map_map.
  split; apply Forall_forall; intros t Ht;
    apply in_map_iff in Ht; destruct Ht as (i & <- & _).
  - pose proof (Hg i). lra.
  - pose proof (Hg (length a + i)%nat). lra.
Qed.

(** X4.  With a valid order, draws in [0, 1) and parameters of one shape,
    a call without a seed starts in [0.005, 0.995) in every component and
    returns a magnetization of the shape of the model whose components all
    lie strictly between 0 and 1. *)
Theorem random_start_stays_in_the_domain
  (n_v n_h : nat) (self : TAP_rbm) (init_lr tol : R) (max_iters terms : Z)
  (g : rng) :
  valid_terms terms -> unit_draws g ->
  is_shape n_v n_h (weights_0 self) ->
  length (layers_0 self) = n_v -> length (layers_1 self) = n_h ->
  in_seed_range (fst (random_seed (layers_0 self) (layers_1 self) g)) /\
  exists m gam,
    fst (gibbs_free_energy self None init_lr tol max_iters terms g) = Ok (m, gam) /\
    in_domain m /\
    shapes_ok n_v n_h (weights_0 self) (layers_0 self) (layers_1 self) m.
Proof.
  intros Hv Hg Hw Ha Hb.
  pose proof (random_seed_in_seed_range (layers_0 self) (layers_1 self) g Hg) as Hr.
  split; [exact Hr|].
  assert (Hs : shapes_ok n_v n_h (weights_0 self) (layers_0 self) (layers_1 self)
                 (fst (resolve_seed self None g)))
    by (apply random_seed_shapes; assumption).
  destruct (gibbs_free_energy_shapes n_v n_h self None init_lr tol max_iters
              terms g Hv Hs) as (m & gam & E & Hm).
  exists m, gam. split; [exact E|]. split; [|exact Hm].
  rewrite (gibbs_free_energy_valid _ _ _ _ _ _ _ Hv) in E.
  change (fst (random_seed (layers_0 self) (layers_1 self) g))
    with (fst (resolve_seed self None g)) in Hr.
  set (m0 := fst (resolve_seed self None g)) in *.
  destruct (minimize_gamma_GD_valid self (weights_0 self) (layers_0 self)
              (layers_1 self) m0 init_lr tol max_iters terms Hv)
    as (gamma & gv & gh & _ & _ & Hmin).
  rewrite Hmin in E. cbv zeta in E. cbn [fst] in E. injection E as Em _.
  pose proof (gd_while_seed_or_clipped gamma gv gh (weights_0 self)
                (layers_0 self) (layers_1 self) tol (Z.to_nat max_iters) init_lr
                m0 (gamma m0)) as Hsc.
  cbv zeta in Hsc. rewrite Em in Hsc. destruct Hsc as [-> | Hc].
  - destruct Hr as [Hrv Hrh]. split; eapply Forall_impl; try eassumption;
      cbv beta; intros; lra.
  - apply in_clip_range_in_domain, Hc.
Qed.

Lemma draws_half_unit : unit_draws draws_half.
Proof. intros k. unfold draws_half. lra. Qed.

(** X4 on the order-2 minimizer of a model with one unit per layer. *)
Lemma random_start_stays_in_the_domain_witness :
  exists m gam,
    fst (gibbs_free_energy (rbm_1x1 0.5 0.001 0 [] 2) None 0.1 1e-4 50 2 draws_half)
      = Ok (m, gam) /\
    in_domain m /\
    shapes_ok 1 1 [[0.5]] [0.001] [0] m.
Proof.
  apply (random_start_stays_in_the_domain 1 1 (rbm_1x1 0.5 0.001 0 [] 2) 0.1
           1e-4 50 2 draws_half).
  - right; left; reflexivity.
  - intros k. unfold draws_half. lra.
  - repeat split; [lia | repeat constructor].
  - reflexivity.
  - reflexivity.
Defined.

(** X5.  When the initial learning rate is 1e-10 or more, the learning
    rate at every loop head is the initial one halved at most once per pass
    already made, and is 1e-10 or more; the rate the loop leaves is
    0.5e-10 or more.  So a run halves the rate a bounded number of times,
    whatever max_iters is. *)
Theorem learning_rate_floor
  (gamma : Magnetization -> R)
  (grad_v_gamma grad_h_gamma : Magnetization -> matrix -> tensor -> tensor)
  (w : matrix) (a b : tensor) (tol : R) (k n : nat) (s0 s : gd_state) :
  1e-10 <= st_lr s0 ->
  gd_reaches gamma grad_v_gamma grad_h_gamma w a b tol k s0 s ->
  (exists j : nat, (j <= k)%nat /\ st_lr s = st_lr s0 * 0.5 ^ j) /\
  1e-10 <= st_lr s /\
  0.5e-10 <= st_lr (gd_while gamma grad_v_gamma grad_h_gamma w a b tol n s).
Proof.
  intros H0 Hr.
  assert (Hhead : (exists j : nat, (j <= k)%nat /\ st_lr s = st_lr s0 * 0.5 ^ j)
                  /\ 1e-10 <= st_lr s).
  { induction Hr as [s | k s s1 s' E _ IH].
    - split; [exists 0%nat; split; [lia | cbn; lra] | exact H0].
    - apply gd_body_inv in E.
      assert (Hs1 : 1e-10 <= st_lr s1 /\
                    (st_lr s1 = st_lr s \/ st_lr s1 = st_lr s * 0.5)).
      { inversion E; subst; cbn [st_lr fst snd] in *; lra. }
      destruct (IH (proj1 Hs1)) as [(j & Hj & Ej) Hfl]. split; [|exact Hfl].
      destruct Hs1 as [_ [El | El]].
      + exists j. split; [lia|]. rewrite Ej, El. reflexivity.
      + exists (S j). split; [lia|]. rewrite Ej, El. cbn [pow]. ring. }
  split; [apply Hhead|]. split; [apply Hhead|].
  destruct Hhead as [_ Hs]. clear Hr H0. revert s Hs.
  induction n as [| n IH]; intros s Hs; cbn [gd_while]; [lra|].
  destruct (gd_body _ _ _ _ _ _ _ s) as [[|] s'] eqn:E; apply gd_body_inv in E.
  - apply IH. inversion E; subst; cbn [st_lr fst snd] in *; lra.
  - inversion E; subst; cbn [st_lr fst snd] in *; lra.
Qed.

(** X5 at the first loop head of the order-2 minimizer. *)
Lemma learning_rate_floor_witness :
  let self := rbm_1x1 0 0.001 0 [] 2 in
  let s0 := (0.1, m_half, gamma_TAP2 self m_half) in
  1e-10 <= st_lr s0 /\
  0.5e-10 <= st_lr (gd_while (gamma_TAP2 self) grad_v_gamma_TAP2
                      grad_h_gamma_TAP2 [[0]] [0.001] [0] 1e-4 50 s0).
Proof.
  intros self s0.
  assert (H0 : 1e-10 <= st_lr s0) by (cbn; lra).
  split; [exact H0|].
  apply (learning_rate_floor (gamma_TAP2 self) grad_v_gamma_TAP2
           grad_h_gamma_TAP2 [[0]] [0.001] [0] 1e-4 0 50 s0 s0 H0).
  apply reaches_here.
Defined.

(** X6.  heat_capacity never returns less than the negated beta-beta
    functional at its seed, and what it returns is the negated functional
    at the seed itself or at a point of the clip range. *)
Theorem heat_capacity_not_below_seed
  (self : TAP_rbm) (seed : option Magnetization) (init_lr tol : R)
  (max_iters : Z) (g : rng) :
  let m0 := fst (resolve_seed self seed g) in
  - grad_beta_beta_TAP3 self m0
    <= fst (heat_capacity self seed init_lr tol max_iters g) /\
  exists m,
    fst (heat_capacity self seed init_lr tol max_iters g)
      = - grad_beta_beta_TAP3 self m /\
    (m = m0 \/ in_clip_range m).
Proof.
  intros m0.
  set (s := gd_while (grad_beta_beta_TAP3 self) heat_capacity_grad_v
              heat_capacity_grad_h (weights_0 self) (layers_0 self)
              (layers_1 self) tol (Z.to_nat max_iters)
              (init_lr, m0, grad_beta_beta_TAP3 self m0)).
  assert (E : fst (heat_capacity self seed init_lr tol max_iters g) = - st_gam s).
  { unfold heat_capacity, minimize_GD. subst s m0. unfold resolve_seed.
    destruct seed as [s0 |].
    - cbn [fst]. rewrite minimize_GD_while_gd_while. reflexivity.
    - destruct (random_seed _ _ g) as [s0 g']. cbn [fst].
      rewrite minimize_GD_while_gd_while. reflexivity. }
  rewrite E. split.
  - assert (st_gam s <= grad_beta_beta_TAP3 self m0); [|lra].
    subst s.
    apply (gd_while_invariant (grad_beta_beta_TAP3 self) heat_capacity_grad_v
             heat_capacity_grad_h _ _ _ tol
             (fun s => st_gam s <= grad_beta_beta_TAP3 self m0)).
    + intros s1 fl s' Hi B. apply gd_body_inv in B.
      destruct B as [m' H1 H2 | m' H1 H2 | m' H1 | m' H1 H2];
        cbn [st_gam snd fst] in *; try exact Hi. fold m'. lra.
    + cbn. lra.
  - exists (st_m s). split.
    + f_equal. subst s. apply gd_while_consistent. reflexivity.
    + subst s. apply gd_while_seed_or_clipped.
Qed.

(** ** The parameter-space gradients *)

Lemma dot_comm (x y : tensor) : dot x y = dot y x.
Proof.
  unfold dot, multiply, tsum. revert y.
  induction x as [| s x IH]; intros [| t y]; cbn; try reflexivity.
  rewrite IH. lra.
Qed.

Lemma dot_add_r (x a y : tensor) :
  length x = length a -> length a = length y ->
  dot x (add a y) = dot x a + dot x y.
Proof.
  unfold dot, add, multiply, tsum. revert a y.
  induction x as [| s x IH]; intros [| t a] [| u y]; cbn; intros H1 H2;
    try discriminate; [lra|].
  rewrite IH by lia. lra.
Qed.

Lemma dot_subtract_neg (a' a x : tensor) :
  length a' = length a -> length a = length x ->
  dot (subtract a' a) (neg x) = dot a x - dot a' x.
Proof.
  unfold dot, subtract, neg, multiply, tsum. revert a x.
  induction a' as [| s a' IH]; intros [| t a] [| u x]; cbn; intros H1 H2;
    try discriminate; [lra|].
  rewrite IH by lia. lra.
Qed.

(** X7.  On parameters of one shape the functionals are affine in the
    biases, with the bias gradients as slopes: replacing a by a' changes
    gamma_TAP2 and gamma_TAP3 by (a' - a) . grad_a_gamma and gamma_MF by
    twice that; replacing b by b' changes all three by
    (b' - b) . grad_b_gamma. *)
Theorem bias_gradients_are_the_slopes
  (n_v n_h : nat) (self : TAP_rbm) (m : Magnetization) (a' b' : tensor) :
  let w := weights_0 self in
  let a := layers_0 self in
  let b := layers_1 self in
  shapes_ok n_v n_h w a b m -> length a' = n_v -> length b' = n_h ->
  let da := dot (subtract a' a) (grad_a_gamma m w a b) in
  let db := dot (subtract b' b) (grad_b_gamma m w a b) in
  (gamma_TAP2 (with_layers_0 self a') m = gamma_TAP2 self m + da /\
   gamma_TAP3 (with_layers_0 self a') m = gamma_TAP3 self m + da /\
   gamma_MF (with_layers_0 self a') m = gamma_MF self m + 2 * da) /\
  (gamma_TAP2 (with_layers_1 self b') m = gamma_TAP2 self m + db /\
   gamma_TAP3 (with_layers_1 self b') m = gamma_TAP3 self m + db /\
   gamma_MF (with_layers_1 self b') m = gamma_MF self m + db).
Proof.
  intros w a b (Hw & Ha & Hb & Hv & Hh) Ha' Hb' da db.
  destruct Hw as (_ & Hwl & _).
  assert (Hy : length (dot_mv w (h m)) = n_v)
    by (unfold dot_mv; rewrite length_map; exact Hwl).
  assert (Eda : da = dot a (v m) - dot a' (v m)).
  { subst da. unfold grad_a_gamma. apply dot_subtract_neg; unfold tensor in *; lia. }
  assert (Edb : db = dot b (h m) - dot b' (h m)).
  { subst db. unfold grad_b_gamma. apply dot_subtract_neg; unfold tensor in *; lia. }
  assert (E1 : dot (v m) (add a' (dot_mv w (h m)))
               = dot (v m) a' + dot (v m) (dot_mv w (h m)))
    by (apply dot_add_r; unfold tensor in *; lia).
  assert (E2 : dot (v m) (add a (dot_mv w (h m)))
               = dot (v m) a + dot (v m) (dot_mv w (h m)))
    by (apply dot_add_r; unfold tensor in *; lia).
  rewrite (dot_comm (v m) a') in E1. rewrite (dot_comm (v m) a) in E2.
  unfold gamma_TAP2, gamma_TAP3, gamma_MF, with_layers_0, with_layers_1.
  cbn [weights_0 layers_0 layers_1]. fold w a b.
  rewrite E1, E2, Eda, Edb. repeat split; lra.
Qed.

(** X7 on a model with one unit per layer. *)
Lemma bias_gradients_are_the_slopes_witness :
  let self := rbm_1x1 0.5 0.001 0 [] 2 in
  gamma_TAP2 (with_layers_0 self [1]) m_half
  = gamma_TAP2 self m_half
    + dot (subtract [1] [0.001]) (grad_a_gamma m_half [[0.5]] [0.001] [0]).
Proof.
  intros self.
  apply (bias_gradients_are_the_slopes 1 1 self m_half [1] [2]).
  - repeat split; [lia | repeat constructor].
  - reflexivity.
  - reflexivity.
Defined.

(** ** The gradients with respect to the weights *)

(** Elementwise operations on lists of one length. *)
Lemma map2_ext {A B C : Type} (f g : A -> B -> C) (x : list A) (y : list B) :
  (forall a b, f a b = g a b) -> map2 f x y = map2 g x y.
Proof.
  intros E. revert y. induction x as [| a x IH]; intros [| b y]; cbn; auto.
  rewrite E, IH. reflexivity.
Qed.

Lemma map2_map_l {A A' B C : Type} (f : A' -> B -> C) (g : A -> A')
  (x : list A) (y : list B) :
  map2 f (map g x) y = map2 (fun a b => f (g a) b) x y.
Proof.
  revert y. induction x as [| a x IH]; intros [| b y]; cbn; auto.
  rewrite IH. reflexivity.
Qed.

Lemma map2_map_r {A B B' C : Type} (f : A -> B' -> C) (g : B -> B')
  (x : list A) (y : list B) :
  map2 f x (map g y) = map2 (fun a b => f a (g b)) x y.
Proof.
  revert y. induction x as [| a x IH]; intros [| b y]; cbn; auto.
  rewrite IH. reflexivity.
Qed.

Lemma map_map2 {A B C C' : Type} (g : C -> C') (f : A -> B -> C)
  (x : list A) (y : list B) :
  map g (map2 f x y) = map2 (fun a b => g (f a b)) x y.
Proof.
  revert y. induction x as [| a x IH]; intros [| b y]; cbn; auto.
  rewrite IH. reflexivity.
Qed.

Lemma map2_map2_same {A B C C' E : Type} (f : C -> C' -> E)
  (g : A -> B -> C) (k : A -> B -> C') (x : list A) (y : list B) :
  map2 f (map2 g x y) (map2 k x y) = map2 (fun a b => f (g a b) (k a b)) x y.
Proof.
  revert y. induction x as [| a x IH]; intros [| b y]; cbn; auto.
  rewrite IH. reflexivity.
Qed.

Lemma map2_same {A C : Type} (f : A -> A -> C) (x : list A) :
  map2 f x x = map (fun a => f a a) x.
Proof. induction x as [| a x IH]; cbn; [|rewrite IH]; reflexivity. Qed.

(** The line [W + t D] and its entrywise powers. *)
Lemma line_mapm2 (t : R) (W D : matrix) :
  add_m W (scal_m t D) = mapm2 (fun w d => w + t * d) W D.
Proof.
  unfold add_m, scal_m, mapm2. rewrite map2_map_r. apply map2_ext.
  intros r d. unfold add, scal. apply map2_map_r.
Qed.

Lemma square_m_mapm2 (phi : R -> R -> R) (W D : matrix) :
  square_m (mapm2 phi W D) = mapm2 (fun w d => phi w d * phi w d) W D.
Proof.
  unfold square_m, mapm2. rewrite map_map2. apply map2_ext.
  intros r d. unfold square. apply map_map2.
Qed.

Lemma multiply_m_mapm2 (phi psi : R -> R -> R) (W D : matrix) :
  multiply_m (mapm2 phi W D) (mapm2 psi W D)
  = mapm2 (fun w d => phi w d * psi w d) W D.
Proof.
  unfold multiply_m, mapm2. rewrite map2_map2_same. apply map2_ext.
  intros r d. unfold multiply. apply map2_map2_same.
Qed.

(** Sums over entries: extensionality and linearity. *)
Lemma rsum_ext (F G : R -> R -> R -> R) (r d q : list R) :
  (forall w y z, F w y z = G w y z) -> rsum F r d q = rsum G r d q.
Proof.
  intros E. revert d q. induction r as [| x r IH]; intros [| y d] [| z q];
    cbn; auto. rewrite E, IH. reflexivity.
Qed.

Lemma msum_ext (F G : R -> R -> R -> R -> R) (p : list R) (W D : matrix)
  (q : list R) :
  (forall x w y z, F x w y z = G x w y z) -> msum F p W D q = msum G p W D q.
Proof.
  intros E. revert W D. induction p as [| x p IH]; intros [| r W] [| d D];
    cbn; auto. rewrite IH. f_equal. apply rsum_ext. intros; apply E.
Qed.

Lemma rsum_poly (t : R) (F0 F1 F2 F3 : R -> R -> R -> R) (r d q : list R) :
  rsum (fun w y z => F0 w y z + t * F1 w y z + t * t * F2 w y z
                     + t * t * t * F3 w y z) r d q
  = rsum F0 r d q + t * rsum F1 r d q + t * t * rsum F2 r d q
    + t * t * t * rsum F3 r d q.
Proof.
  revert d q. induction r as [| x r IH]; intros [| y d] [| z q]; cbn;
    try lra. rewrite IH. lra.
Qed.

Lemma msum_poly (t : R) (F0 F1 F2 F3 : R -> R -> R -> R -> R) (p : list R)
  (W D : matrix) (q : list R) :
  msum (fun x w y z => F0 x w y z + t * F1 x w y z + t * t * F2 x w y z
                       + t * t * t * F3 x w y z) p W D q
  = msum F0 p W D q + t * msum F1 p W D q + t * t * msum F2 p W D q
    + t * t * t * msum F3 p W D q.
Proof.
  revert W D. induction p as [| x p IH]; intros [| r W] [| d D]; cbn;
    try lra. rewrite IH, rsum_poly. lra.
Qed.

Lemma msum_zero (p : list R) (W D : matrix) (q : list R) :
  msum (fun _ _ _ _ => 0) p W D q = 0.
Proof.
  revert W D. induction p as [| x p IH]; intros [| r W] [| d D]; cbn;
    try lra. rewrite IH.
  assert (rsum (fun _ _ _ => 0) r d q = 0); [|lra].
  clear. revert d q. induction r as [| x r IH]; intros [| y d] [| z q];
    cbn; try lra. rewrite IH. lra.
Qed.

(** The three kinds of sums in the functionals. *)
Lemma dot_row (phi : R -> R -> R) (g : R -> R) (r d q : list R) :
  dot (map2 phi r d) (map g q) = rsum (fun w y z => phi w y * g z) r d q.
Proof.
  unfold dot, multiply, tsum. revert d q.
  induction r as [| x r IH]; intros [| y d] [| z q]; cbn; auto.
  rewrite IH. reflexivity.
Qed.

Lemma rsum_scal (c : R) (F : R -> R -> R -> R) (r d q : list R) :
  c * rsum F r d q = rsum (fun w y z => c * F w y z) r d q.
Proof.
  revert d q. induction r as [| x r IH]; intros [| y d] [| z q]; cbn;
    try lra. rewrite <- IH. lra.
Qed.

Lemma bilinear_msum (f g : R -> R) (phi : R -> R -> R) (p : list R)
  (W D : matrix) (q : list R) :
  dot (map f p) (dot_mv (mapm2 phi W D) (map g q))
  = msum (fun x w y z => f x * (phi w y * g z)) p W D q.
Proof.
  unfold dot_mv, mapm2. unfold dot at 1. unfold multiply, tsum.
  revert W D. induction p as [| x p IH]; intros [| r W] [| d D]; cbn; auto.
  rewrite IH, dot_row, rsum_scal. reflexivity.
Qed.

Lemma scal_row (c : R) (g : R -> R) (phi : R -> R -> R) (r d q : list R) :
  tsum (multiply (map g q) (scal c (map2 phi r d)))
  = rsum (fun w y z => g z * (c * phi w y)) r d q.
Proof.
  unfold multiply, scal, tsum. revert d q.
  induction r as [| x r IH]; intros [| y d] [| z q]; cbn; auto.
  rewrite IH. reflexivity.
Qed.

Lemma cubic_msum (f g : R -> R) (phi : R -> R -> R) (p : list R)
  (W D : matrix) (q : list R) :
  tsum_m (multiply_row (map g q) (multiply_col (map f p) (mapm2 phi W D)))
  = msum (fun x w y z => g z * (f x * phi w y)) p W D q.
Proof.
  unfold tsum_m, multiply_row, multiply_col, mapm2.
  revert W D. induction p as [| x p IH]; intros [| r W] [| d D]; cbn; auto.
  specialize (IH W D). unfold tsum in IH |- *. cbn [fold_right].
  rewrite IH. f_equal. apply scal_row.
Qed.

Lemma inner_row (gam : R -> R -> R) (r d q : list R) :
  tsum (multiply d (map2 gam r q)) = rsum (fun w y z => y * gam w z) r d q.
Proof.
  unfold multiply, tsum. revert d q.
  induction r as [| x r IH]; intros [| y d] [| z q]; cbn; auto;
    try (destruct d; reflexivity).
  rewrite IH. reflexivity.
Qed.

Lemma inner_m_gmat (gam : R -> R -> R -> R) (p : list R) (W D : matrix)
  (q : list R) :
  inner_m D (gmat gam p W q) = msum (fun x w y z => y * gam x w z) p W D q.
Proof.
  unfold inner_m, tsum_m, multiply_m, gmat.
  revert W D. induction p as [| x p IH]; intros [| r W] [| d D]; cbn; auto;
    try (destruct D; reflexivity).
  specialize (IH W D). unfold tsum in IH |- *. cbn [fold_right].
  rewrite IH. f_equal. apply inner_row.
Qed.

(** The matrices of the weight gradients, entry by entry. *)
Lemma outer_gmat (n_v n_h : nat) (f g : R -> R) (p : list R) (W : matrix)
  (q : list R) :
  is_shape n_v n_h W -> length p = n_v -> length q = n_h ->
  outer (map f p) (map g q) = gmat (fun x _ z => f x * g z) p W q.
Proof.
  intros (_ & Hl & Hr) Hp Hq. unfold outer, gmat.
  rewrite <- Hp in Hl. rewrite <- Hq in Hr. clear Hp Hq.
  revert W Hl Hr. induction p as [| x p IH]; intros [| r W] Hl Hr; cbn in *;
    try discriminate; auto.
  inversion Hr as [| ? ? Hr0 Hr']; subst.
  rewrite (IH W) by (auto; lia). f_equal.
  unfold scal. clear - Hr0. revert r Hr0.
  induction q as [| z q IHq]; intros [| w r] Hr0; cbn in *; try discriminate;
    auto. rewrite (IHq r) by lia. reflexivity.
Qed.

Lemma multiply_m_gmat (psi : R -> R) (gam : R -> R -> R -> R) (p : list R)
  (W : matrix) (q : list R) :
  multiply_m (map (map psi) W) (gmat gam p W q)
  = gmat (fun x w z => psi w * gam x w z) p W q.
Proof.
  unfold multiply_m, gmat.
  revert W. induction p as [| x p IH]; intros [| r W]; cbn; auto.
  rewrite IH. f_equal. unfold multiply. clear.
  revert q. induction r as [| w r IH]; intros [| z q]; cbn; auto.
  rewrite IH. reflexivity.
Qed.

Lemma neg_m_gmat (gam : R -> R -> R -> R) (p : list R) (W : matrix)
  (q : list R) :
  neg_m (gmat gam p W q) = gmat (fun x w z => - gam x w z) p W q.
Proof.
  unfold neg_m, gmat. rewrite map_map2. apply map2_ext. intros x r.
  unfold neg. apply map_map2.
Qed.

Lemma scal_m_gmat (c : R) (gam : R -> R -> R -> R) (p : list R) (W : matrix)
  (q : list R) :
  scal_m c (gmat gam p W q) = gmat (fun x w z => c * gam x w z) p W q.
Proof.
  unfold scal_m, gmat. rewrite map_map2. apply map2_ext. intros x r.
  unfold scal. apply map_map2.
Qed.

Lemma subtract_m_gmat (gam gam' : R -> R -> R -> R) (p : list R) (W : matrix)
  (q : list R) :
  subtract_m (gmat gam p W q) (gmat gam' p W q)
  = gmat (fun x w z => gam x w z - gam' x w z) p W q.
Proof.
  unfold subtract_m, gmat. rewrite map2_map2_same. apply map2_ext. intros x r.
  unfold subtract. apply map2_map2_same.
Qed.

Lemma quad_map (x : tensor) :
  subtract x (square x) = map (fun t => t - t * t) x.
Proof.
  unfold subtract, square. rewrite map2_map_r. apply map2_same.
Qed.

Lemma alias_map (x : tensor) :
  multiply (rsub 0.5 x) (subtract x (square x))
  = map (fun t => (0.5 - t) * (t - t * t)) x.
Proof.
  rewrite quad_map. unfold multiply, rsub. rewrite map2_map_l, map2_map_r.
  apply map2_same.
Qed.

Lemma rsum_lin3 (al bt ga : R) (F G H : R -> R -> R -> R) (r d q : list R) :
  rsum (fun w y z => al * F w y z + bt * G w y z + ga * H w y z) r d q
  = al * rsum F r d q + bt * rsum G r d q + ga * rsum H r d q.
Proof.
  revert d q. induction r as [| x r IH]; intros [| y d] [| z q]; cbn;
    try lra. rewrite IH. lra.
Qed.

Lemma msum_lin3 (al bt ga : R) (F G H : R -> R -> R -> R -> R) (p : list R)
  (W D : matrix) (q : list R) :
  msum (fun x w y z => al * F x w y z + bt * G x w y z + ga * H x w y z)
       p W D q
  = al * msum F p W D q + bt * msum G p W D q + ga * msum H p W D q.
Proof.
  revert W D. induction p as [| x p IH]; intros [| r W] [| d D]; cbn;
    try lra. rewrite IH, rsum_lin3. lra.
Qed.

Lemma msum_scal (c : R) (F : R -> R -> R -> R -> R) (p : list R)
  (W D : matrix) (q : list R) :
  msum (fun x w y z => c * F x w y z) p W D q = c * msum F p W D q.
Proof.
  rewrite (msum_ext _ (fun x w y z => c * F x w y z + 0 * F x w y z
                                      + 0 * F x w y z))
    by (intros; ring).
  rewrite msum_lin3. ring.
Qed.

Lemma outer_gmat_plain (n_v n_h : nat) (p : list R) (W : matrix)
  (q : list R) :
  is_shape n_v n_h W -> length p = n_v -> length q = n_h ->
  outer p q = gmat (fun x _ z => x * z) p W q.
Proof.
  intros HW Hp Hq.
  pose proof (outer_gmat n_v n_h (fun x => x) (fun x => x) p W q HW Hp Hq)
    as E.
  rewrite !map_id in E. exact E.
Qed.

Lemma mapm_id (W : matrix) : map (map (fun t : R => t)) W = W.
Proof.
  rewrite (map_ext _ (fun r => r)) by (intros; apply map_id). apply map_id.
Qed.

Lemma weights_times_gmat (gam : R -> R -> R -> R) (p : list R) (W : matrix)
  (q : list R) :
  multiply_m W (gmat gam p W q) = gmat (fun x w z => w * gam x w z) p W q.
Proof.
  rewrite <- (mapm_id W) at 1. apply multiply_m_gmat.
Qed.

Lemma squares_times_gmat (gam : R -> R -> R -> R) (p : list R) (W : matrix)
  (q : list R) :
  multiply_m (square_m W) (gmat gam p W q)
  = gmat (fun x w z => w * w * gam x w z) p W q.
Proof. apply (multiply_m_gmat (fun t => t * t)). Qed.

(** The three couplings along the line [W + t D], as polynomials in [t]. *)
Lemma linear_coupling_on_a_line (p q : list R) (W D : matrix) :
  exists c0, forall t,
    dot p (dot_mv (add_m W (scal_m t D)) q)
    = c0 + t * msum (fun x w y z => x * (y * z)) p W D q.
Proof.
  exists (msum (fun x w y z => x * (w * z)) p W D q). intros t.
  rewrite line_mapm2.
  rewrite <- (map_id p) at 1. rewrite <- (map_id q) at 1.
  rewrite bilinear_msum.
  rewrite (msum_ext _ (fun x w y z => x * (w * z) + t * (x * (y * z))
                                      + t * t * 0 + t * t * t * 0))
    by (intros; ring).
  rewrite msum_poly, msum_zero. ring.
Qed.

Lemma quadratic_coupling_on_a_line (f g : R -> R) (p q : list R)
  (W D : matrix) :
  exists c0 c2, forall t,
    dot (map f p) (dot_mv (square_m (add_m W (scal_m t D))) (map g q))
    = c0 + t * (2 * msum (fun x w y z => f x * (w * y) * g z) p W D q)
      + t * t * c2.
Proof.
  exists (msum (fun x w y z => f x * (w * w * g z)) p W D q),
         (msum (fun x w y z => f x * (y * y * g z)) p W D q). intros t.
  rewrite line_mapm2, square_m_mapm2, bilinear_msum.
  rewrite (msum_ext _ (fun x w y z =>
             f x * (w * w * g z) + t * (2 * (f x * (w * y) * g z))
             + t * t * (f x * (y * y * g z)) + t * t * t * 0))
    by (intros; ring).
  rewrite msum_poly, msum_zero, msum_scal. ring.
Qed.

Lemma cubic_coupling_on_a_line (f g : R -> R) (p q : list R) (W D : matrix) :
  exists c0 c2 c3, forall t,
    let W_t := add_m W (scal_m t D) in
    tsum_m (multiply_row (map g q)
              (multiply_col (map f p) (multiply_m (square_m W_t) W_t)))
    = c0 + t * (3 * msum (fun x w y z => f x * (w * w * y) * g z) p W D q)
      + t * t * c2 + t * t * t * c3.
Proof.
  exists (msum (fun x w y z => f x * (w * w * w) * g z) p W D q),
         (msum (fun x w y z => 3 * (f x * (w * y * y) * g z)) p W D q),
         (msum (fun x w y z => f x * (y * y * y) * g z) p W D q).
  intros t W_t. subst W_t.
  rewrite line_mapm2, square_m_mapm2, multiply_m_mapm2, cubic_msum.
  rewrite (msum_ext _ (fun x w y z =>
             f x * (w * w * w) * g z + t * (3 * (f x * (w * w * y) * g z))
             + t * t * (3 * (f x * (w * y * y) * g z))
             + t * t * t * (f x * (y * y * y) * g z)))
    by (intros; ring).
  rewrite msum_poly, msum_scal. ring.
Qed.

(** The derivative at [0] of a functional with the three couplings. *)
Lemma couplings_derivative (K k2 k3 : R) (p q : list R) (W D : matrix) :
  let W_ t := add_m W (scal_m t D) in
  let p2 := subtract p (square p) in
  let q2 := subtract q (square q) in
  let p3 := multiply (rsub 0.5 p) p2 in
  let q3 := multiply (rsub 0.5 q) q2 in
  derivable_pt_lim
    (fun t => K - dot p (dot_mv (W_ t) q)
              - k2 * dot p2 (dot_mv (square_m (W_ t)) q2)
              - k3 * tsum_m (multiply_row q3
                               (multiply_col p3
                                  (multiply_m (square_m (W_ t)) (W_ t)))))
    0
    (- msum (fun x w y z => x * (y * z)) p W D q
     - k2 * (2 * msum (fun x w y z =>
                         (x - x * x) * (w * y) * (z - z * z)) p W D q)
     - k3 * (3 * msum (fun x w y z =>
                         ((0.5 - x) * (x - x * x)) * (w * w * y)
                         * ((0.5 - z) * (z - z * z))) p W D q)).
Proof.
  intros W_ p2 q2 p3 q3. subst W_ p2 q2 p3 q3.
  rewrite !alias_map, !quad_map.
  destruct (linear_coupling_on_a_line p q W D) as (a0 & Ea).
  destruct (quadratic_coupling_on_a_line (fun t => t - t * t)
              (fun t => t - t * t) p q W D) as (b0 & b2 & Eb).
  destruct (cubic_coupling_on_a_line (fun t => (0.5 - t) * (t - t * t))
              (fun t => (0.5 - t) * (t - t * t)) p q W D)
    as (c0 & c2 & c3 & Ec).
  cbv zeta in Ec.
  set (MA := msum (fun x w y z => x * (y * z)) p W D q) in *.
  set (MB := msum _ p W D q) in Eb |- *.
  set (MC := msum _ p W D q) in Ec |- *.
  apply (derivable_pt_lim_eq
           (fun t => (K - a0 - k2 * b0 - k3 * c0)
                     + (- MA - k2 * (2 * MB) - k3 * (3 * MC)) * t
                     + (- k2 * b2 - k3 * c2) * (t * t)
                     + (- k3 * c3) * (t * t * t))).
  - intros t. rewrite Ea, Eb, Ec. ring.
  - pose proof (cubic_derivative (K - a0 - k2 * b0 - k3 * c0)
                  (- MA - k2 * (2 * MB) - k3 * (3 * MC))
                  (- k2 * b2 - k3 * c2) (- k3 * c3) 0) as Hc.
    replace (- MA - k2 * (2 * MB) - k3 * (3 * MC)
             + 2 * (- k2 * b2 - k3 * c2) * 0 + 3 * (- k3 * c3) * (0 * 0))
      with (- MA - k2 * (2 * MB) - k3 * (3 * MC)) in Hc by ring.
    exact Hc.
Qed.

(** The weight gradients, paired with a direction. *)
Lemma grad_w_gamma_along (n_v n_h : nat) (m : Magnetization) (W D : matrix)
  (a b : tensor) :
  is_shape n_v n_h W -> length (v m) = n_v -> length (h m) = n_h ->
  let MA := msum (fun x w y z => x * (y * z)) (v m) W D (h m) in
  let MB := msum (fun x w y z => (x - x * x) * (w * y) * (z - z * z))
                 (v m) W D (h m) in
  let MC := msum (fun x w y z => ((0.5 - x) * (x - x * x)) * (w * w * y)
                                 * ((0.5 - z) * (z - z * z)))
                 (v m) W D (h m) in
  inner_m D (grad_w_gamma_MF m W a b) = - MA /\
  inner_m D (grad_w_gamma_TAP2 m W a b) = - MA - MB /\
  inner_m D (grad_w_gamma_TAP3 m W a b) = - MA - MB - 4.0 * MC.
Proof.
  intros HW Hv Hh MA MB MC. subst MA MB MC.
  unfold grad_w_gamma_MF, grad_w_gamma_TAP2, grad_w_gamma_TAP3.
  cbv zeta. rewrite !alias_map, !quad_map.
  rewrite (outer_gmat_plain n_v n_h _ W) by assumption.
  rewrite !(outer_gmat n_v n_h _ _ _ W) by assumption.
  rewrite weights_times_gmat, squares_times_gmat.
  rewrite scal_m_gmat, neg_m_gmat, !subtract_m_gmat, !inner_m_gmat.
  generalize 4.0 as c. intros c.
  set (FA := fun x w y z : R => x * (y * z)).
  set (FB := fun x w y z : R => (x - x * x) * (w * y) * (z - z * z)).
  set (FC := fun x w y z : R => ((0.5 - x) * (x - x * x)) * (w * w * y)
                               * ((0.5 - z) * (z - z * z))).
  repeat split.
  - rewrite (msum_ext _ (fun x w y z => (-1) * FA x w y z))
      by (intros; unfold FA; ring).
    rewrite msum_scal. ring.
  - rewrite (msum_ext _ (fun x w y z => (-1) * FA x w y z
                                        + (-1) * FB x w y z
                                        + 0 * FC x w y z))
      by (intros; unfold FA, FB; ring).
    rewrite msum_lin3. ring.
  - rewrite (msum_ext _ (fun x w y z => (-1) * FA x w y z
                                        + (-1) * FB x w y z
                                        + (- c) * FC x w y z))
      by (intros; unfold FA, FB, FC; ring).
    rewrite msum_lin3. ring.
Qed.

Lemma line_length (t : R) (W D : matrix) :
  length W = length D -> length (add_m W (scal_m t D)) = length W.
Proof.
  intros E. unfold add_m, scal_m. rewrite map2_length, length_map.
  unfold matrix, tensor in *. lia.
Qed.

(** X8.  For weights, biases and a magnetization of one shape, and every
    direction D of the shape of the weights: the sum of the entrywise
    products of D with grad_w_gamma_MF, grad_w_gamma_TAP2 and
    grad_w_gamma_TAP3 is the derivative at t = 0 of gamma_MF, gamma_TAP2 and
    gamma_TAP3 on the weights W + t D.  The three weight gradients are the
    gradients of their functionals. *)
Theorem weight_gradients_are_the_directional_derivatives
  (self : TAP_rbm) (m : Magnetization) (n_v n_h : nat) (D : matrix) :
  let W := weights_0 self in
  let a := layers_0 self in
  let b := layers_1 self in
  let along (gam : TAP_rbm -> Magnetization -> R) (t : R) :=
    gam (with_weights_0 self (add_m W (scal_m t D))) m in
  shapes_ok n_v n_h W a b m -> is_shape n_v n_h D ->
  derivable_pt_lim (along gamma_MF) 0
    (inner_m D (grad_w_gamma_MF m W a b)) /\
  derivable_pt_lim (along gamma_TAP2) 0
    (inner_m D (grad_w_gamma_TAP2 m W a b)) /\
  derivable_pt_lim (along gamma_TAP3) 0
    (inner_m D (grad_w_gamma_TAP3 m W a b)).
Proof.
  intros W a b along (HW & Ha & Hb & Hv & Hh) HD.
  destruct (grad_w_gamma_along n_v n_h m W D a b HW Hv Hh)
    as (E1 & E2 & E3).
  cbv zeta in E1, E2, E3. rewrite E1, E2, E3.
  assert (Hsplit : forall t,
    dot (v m) (add a (dot_mv (add_m W (scal_m t D)) (h m)))
    = dot (v m) a + dot (v m) (dot_mv (add_m W (scal_m t D)) (h m))).
  { intros t. apply dot_add_r.
    - unfold tensor in *. lia.
    - rewrite dot_mv_length, line_length.
      + destruct HW as (_ & HW & _). unfold matrix, tensor in *. lia.
      + destruct HW as (_ & HW & _), HD as (_ & HD & _).
        unfold matrix, tensor in *. lia. }
  subst along. unfold gamma_MF, gamma_TAP2, gamma_TAP3, with_weights_0.
  cbn [weights_0 layers_0 layers_1]. fold W a b.
  set (MA := msum (fun x w y z => x * (y * z)) (v m) W D (h m)) in *.
  set (MB := msum (fun x w y z => (x - x * x) * (w * y) * (z - z * z))
                  (v m) W D (h m)) in *.
  set (MC := msum _ (v m) W D (h m)) in E3 |- *.
  split; [|split].
  - pose proof (couplings_derivative
                  (entropy_sum (v m) + entropy_sum (h m) - dot a (v m)
                   - dot b (h m) - dot (v m) a) 0 0 (v m) (h m) W D) as H.
    cbv zeta in H. fold MA MB MC in H.
    replace (- MA - 0 * (2 * MB) - 0 * (3 * MC)) with (- MA) in H by lra.
    revert H. apply derivable_pt_lim_eq. intros t. rewrite Hsplit. lra.
  - pose proof (couplings_derivative
                  (entropy_sum (v m) + entropy_sum (h m)
                   - dot b (h m) - dot (v m) a) 0.5 0 (v m) (h m) W D) as H.
    cbv zeta in H. fold MA MB MC in H.
    replace (- MA - 0.5 * (2 * MB) - 0 * (3 * MC)) with (- MA - MB) in H
      by lra.
    revert H. apply derivable_pt_lim_eq. intros t. rewrite Hsplit. lra.
  - pose proof (couplings_derivative
                  (entropy_sum (v m) + entropy_sum (h m)
                   - dot b (h m) - dot (v m) a) 0.5 (4.0 / 3.0)
                  (v m) (h m) W D) as H.
    cbv zeta in H. fold MA MB MC in H.
    replace (- MA - 0.5 * (2 * MB) - 4.0 / 3.0 * (3 * MC))
      with (- MA - MB - 4.0 * MC) in H by lra.
    revert H. apply derivable_pt_lim_eq. intros t. rewrite Hsplit. lra.
Qed.

(** X8 on a model with one unit per layer, along the direction [[1]]. *)
Lemma weight_gradients_are_the_directional_derivatives_witness :
  let self := rbm_1x1 0.5 0.001 0 [] 3 in
  derivable_pt_lim
    (fun t => gamma_TAP3
                (with_weights_0 self (add_m [[0.5]] (scal_m t [[1]]))) m_half)
    0 (inner_m [[1]] (grad_w_gamma_TAP3 m_half [[0.5]] [0.001] [0])).
Proof.
  intros self.
  destruct (weight_gradients_are_the_directional_derivatives
              self m_half 1 1 [[1]]) as (_ & _ & H).
  - repeat split; [lia | repeat constructor].
  - repeat split; [lia | repeat constructor].
  - exact H.
Defined.

(** ** The gradient assembler as a whole *)

Lemma with_persistent_samples_same (self : TAP_rbm) :
  with_persistent_samples self (persistent_samples self) = self.
Proof. destruct self. reflexivity. Qed.

Lemma gradient_EMF_invalid (self : TAP_rbm) (g : rng) :
  ~ valid_terms (terms self) ->
  gradient_EMF self g = (Raise ValueError, persistent_samples self, g).
Proof.
  intros Hn. pose proof (terms_check_true _ Hn) as Hc.
  unfold gradient_EMF.
  destruct (persistent_samples self) as [| s rest]; cbn [length Nat.eqb].
  - unfold gibbs_free_energy. rewrite Hc. reflexivity.
  - cbn [persistent_loop]. unfold gibbs_free_energy. rewrite Hc. reflexivity.
Qed.

(** With a valid order the first half of [gradient] returns, with the
    pool and the generator that [minimized_pool] describes. *)
Lemma gradient_EMF_valid (self : TAP_rbm) (g : rng) :
  valid_terms (terms self) ->
  exists m EMF,
    gradient_EMF self g =
      (Ok (m, EMF),
       map (fun r => Some (fst r))
           (fst (minimized_pool self (persistent_samples self) g)),
       if (length (persistent_samples self) =? 0)%nat
       then snd (resolve_seed self None g)
       else snd (minimized_pool self (persistent_samples self) g)) /\
    (persistent_samples self = [] -> m <> None).
Proof.
  intros Hv. unfold gradient_EMF.
  destruct (persistent_samples self) as [| s rest] eqn:Ep.
  - cbn [length Nat.eqb].
    destruct (gibbs_free_energy_returns self None (init_lr_EMF self)
                (tolerance_EMF self) (max_iters_EMF self) (terms self) g Hv)
      as (m & gam & E & _).
    rewrite E. exists (Some m), gam. split; [reflexivity | discriminate].
  - cbn [length Nat.eqb].
    destruct (persistent_loop_spec self (s :: rest) 1e6 1e7 None g Hv)
      as (EMF & best & m & Hl & _ & _).
    rewrite Hl. exists m, EMF. split; [reflexivity | discriminate].
Qed.

Lemma grad_w_gamma_bound (self : TAP_rbm) :
  valid_terms (terms self) ->
  exists f,
    (if (terms self =? 1)%Z then Some grad_w_gamma_MF
     else if (terms self =? 2)%Z then Some grad_w_gamma_TAP2
     else if (terms self =? 3)%Z then Some grad_w_gamma_TAP3
     else None) = Some f.
Proof. intros [-> | [-> | ->]]; eexists; reflexivity. Qed.

(** X9.  gradient raises ValueError exactly when self.terms is not 1, 2 or
    3, and then leaves the model and the generator as they are; it never
    fails on an unbound grad_w_gamma; it raises AttributeError only with a
    pool that is not empty and no candidate below 1e7; with a valid order
    and an empty pool it returns a gradient with two layer entries and one
    weight entry, all filled, and the pool stays empty. *)
Theorem gradient_error_behaviour (self : TAP_rbm) (units_0 : matrix) (g : rng) :
  let out := gradient self units_0 g in
  (fst (fst out) = Raise ValueError <-> ~ valid_terms (terms self)) /\
  (~ valid_terms (terms self) -> out = (Raise ValueError, self, g)) /\
  fst (fst out) <> Raise UnboundLocalError /\
  (fst (fst out) = Raise AttributeError ->
   persistent_samples self <> [] /\
   Forall (fun r => 1e7 <= snd r)
          (fst (minimized_pool self (persistent_samples self) g))) /\
  (valid_terms (terms self) -> persistent_samples self = [] ->
   exists grad,
     out = (Ok grad, self, snd (resolve_seed self None g)) /\
     length (layers grad) = 2%nat /\ length (weights grad) = 1%nat /\
     filled (layers grad) /\ filled (weights grad)).
Proof.
  intros out. subst out.
  destruct (valid_terms_dec (terms self)) as [Hv | Hn].
  - destruct (gradient_EMF_valid self g Hv) as (m & EMF & HE & Hm).
    destruct (grad_w_gamma_bound self Hv) as [f Hf].
    unfold gradient. rewrite HE, Hf.
    split; [|split; [|split; [|split]]].
    + destruct m; cbn [fst]; split; intros; try discriminate; tauto.
    + tauto.
    + destruct m; cbn [fst]; discriminate.
    + destruct m as [m |]; cbn [fst]; [discriminate|]. intros _.
      assert (Hne : persistent_samples self <> [])
        by (intros E; apply (Hm E); reflexivity).
      split; [exact Hne|].
      destruct (gradient_pool_spec self units_0 g Hv Hne)
        as (_ & _ & [[Hall _] | (r & EMF' & _ & _ & HE')]); [exact Hall|].
      rewrite HE in HE'. discriminate.
    + intros _ Ep. destruct m as [m |]; [|exfalso; apply (Hm Ep); reflexivity].
      rewrite Ep in *. cbn [length Nat.eqb minimized_pool fst map].
      eexists. split.
      * f_equal. f_equal. rewrite <- Ep. apply with_persistent_samples_same.
      * cbn. repeat split; repeat constructor; discriminate.
  - unfold gradient. rewrite (gradient_EMF_invalid self g Hn).
    rewrite with_persistent_samples_same. cbn [fst].
    split; [tauto|]. split; [reflexivity|]. split; [discriminate|].
    split; [discriminate | tauto].
Qed.

Lemma minimized_pool_filled_generator (self : TAP_rbm)
  (slots : list (option Magnetization)) (g : rng) :
  filled slots -> snd (minimized_pool self slots g) = g.
Proof.
  intros Hf. induction Hf as [| s rest Hs _ IH]; [reflexivity|].
  destruct s as [s |]; [|congruence]. cbn [minimized_pool].
  unfold gibbs_free_energy at 1.
  destruct (_ && _); [reflexivity|].
  destruct (minimize_gamma_GD _ _ _ _ _ _ _ _ _) as [r | e]; [|reflexivity].
  destruct (minimized_pool self rest g) as [rs g'] eqn:E.
  cbn [snd] in *. exact IH.
Qed.

Lemma map_Some_filled {A B : Type} (f : A -> B) (l : list A) :
  filled (map (fun r => Some (f r)) l).
Proof. induction l; constructor; [discriminate | assumption]. Qed.

(** X10.  With a valid order a call to gradient leaves the weights, the
    biases and the order as they are, keeps the number of pool slots, and
    leaves no slot empty; after a call on a pool that is not empty, a
    further call draws nothing from the generator. *)
Theorem gradient_keeps_and_fills_the_pool
  (self : TAP_rbm) (units_0 units_1 : matrix) (g g1 : rng) :
  valid_terms (terms self) ->
  let self1 := snd (fst (gradient self units_0 g)) in
  (weights_0 self1 = weights_0 self /\ layers_0 self1 = layers_0 self /\
   layers_1 self1 = layers_1 self /\ terms self1 = terms self) /\
  length (persistent_samples self1) = length (persistent_samples self) /\
  filled (persistent_samples self1) /\
  (persistent_samples self <> [] -> snd (gradient self1 units_1 g1) = g1).
Proof.
  intros Hv self1.
  destruct (gradient_EMF_valid self g Hv) as (m & EMF & HE & _).
  destruct (grad_w_gamma_bound self Hv) as [f Hf].
  assert (E1 : self1 = with_persistent_samples self
                 (map (fun r => Some (fst r))
                      (fst (minimized_pool self (persistent_samples self) g)))).
  { subst self1. unfold gradient. rewrite HE, Hf. destruct m; reflexivity. }
  assert (Hlen : length (persistent_samples self1)
                 = length (persistent_samples self)).
  { rewrite E1. cbn [persistent_samples with_persistent_samples].
    rewrite length_map. apply minimized_pool_length, Hv. }
  split; [rewrite E1; repeat split|]. split; [exact Hlen|].
  assert (Hfill : filled (persistent_samples self1)).
  { rewrite E1. cbn [persistent_samples with_persistent_samples].
    apply map_Some_filled. }
  split; [exact Hfill|].
  intros Hne.
  assert (Hv1 : valid_terms (terms self1)) by (rewrite E1; exact Hv).
  destruct (gradient_EMF_valid self1 g1 Hv1) as (m1 & EMF1 & HE1 & _).
  destruct (grad_w_gamma_bound self1 Hv1) as [f1 Hf1].
  unfold gradient. rewrite HE1, Hf1.
  assert (Hnz : (length (persistent_samples self1) =? 0)%nat = false).
  { apply Nat.eqb_neq. rewrite Hlen. destruct (persistent_samples self);
      [congruence | cbn; lia]. }
  rewrite Hnz. rewrite (minimized_pool_filled_generator _ _ _ Hfill).
  destruct m1; reflexivity.
Qed.

(** X10 on a pool with one empty slot. *)
Lemma gradient_keeps_and_fills_the_pool_witness :
  let self := rbm_1x1 0.5 0.001 0 [None] 2 in
  filled (persistent_samples (snd (fst (gradient self [[1]] draws_half)))).
Proof.
  intros self.
  apply (gradient_keeps_and_fills_the_pool self [[1]] [[1]] draws_half
           draws_half).
  right; left; reflexivity.
Defined.

(** ** The gradient utilities *)

Lemma fold_left_overwrite {A B : Type} (f : B -> A) (l : list B) (x0 : A) :
  fold_left (fun _ y => f y) l x0 = match rev l with
                                    | [] => x0
                                    | y :: _ => f y
                                    end.
Proof.
  revert x0. induction l as [| y l IH]; intros x0; [reflexivity|].
  cbn [fold_left rev]. rewrite IH.
  destruct (rev l) as [| z r]; reflexivity.
Qed.

(** X11.  grad_accumulate and grad_fold overwrite their result at every
    entry instead of combining: the result is the backend value of the last
    weight entry when there is one, else that of the last layer entry, else
    0, whatever the other entries are. *)
Theorem grad_accumulate_keeps_the_last_entry_only
  (Func : Type)
  (be_fold_l : Func -> option tensor -> R)
  (be_fold_w : Func -> option matrix -> R)
  (be_accumulate_l : Func -> option tensor -> R)
  (be_accumulate_w : Func -> option matrix -> R)
  (func : Func) (ls : list (option tensor)) (ws : list (option matrix))
  (ly : option tensor) (w : option matrix) :
  grad_accumulate Func be_accumulate_l be_accumulate_w func
    (mkGradient ls (ws ++ [w])) = be_accumulate_w func w /\
  grad_accumulate Func be_accumulate_l be_accumulate_w func
    (mkGradient (ls ++ [ly]) []) = be_accumulate_l func ly /\
  grad_accumulate Func be_accumulate_l be_accumulate_w func
    (mkGradient [] []) = 0 /\
  grad_fold Func be_fold_l be_fold_w func
    (mkGradient ls (ws ++ [w])) = be_fold_w func w /\
  grad_fold Func be_fold_l be_fold_w func
    (mkGradient (ls ++ [ly]) []) = be_fold_l func ly /\
  grad_fold Func be_fold_l be_fold_w func (mkGradient [] []) = 0.
Proof.
  unfold grad_accumulate, grad_fold. cbn [layers weights].
  rewrite !fold_left_overwrite, !rev_app_distr. cbn. repeat split; reflexivity.
Qed.

Lemma comprehension_map {A : Type} (f : nat -> util_exn + A) (k : nat -> nat)
  (idx : list nat) :
  comprehension f (map k idx) = comprehension (fun i => f (k i)) idx.
Proof.
  induction idx as [| i idx IH]; [reflexivity|].
  cbn [map comprehension]. rewrite IH. reflexivity.
Qed.

Lemma comprehension_ext {A : Type} (f f' : nat -> util_exn + A) (idx : list nat) :
  (forall i, f i = f' i) -> comprehension f idx = comprehension f' idx.
Proof.
  intros E. induction idx as [| i idx IH]; [reflexivity|].
  cbn [comprehension]. rewrite E, IH. reflexivity.
Qed.

(** Zipping two Python lists by the indices of the first. *)
Lemma comprehension_zip {A B C : Type} (f : A -> B -> C) (l1 : list A)
  (l2 : list B) :
  comprehension
    (fun i =>
       match index l1 i with
       | inl e => inl e
       | inr x =>
           match index l2 i with
           | inl e => inl e
           | inr y => inr (f x y)
           end
       end) (seq 0 (length l1))
  = if (length l1 <=? length l2)%nat then inr (map2 f l1 l2)
    else inl IndexError.
Proof.
  revert l2. induction l1 as [| x l1 IH]; intros l2; [reflexivity|].
  cbn [length seq comprehension]. rewrite <- seq_shift, comprehension_map.
  destruct l2 as [| y l2].
  - reflexivity.
  - cbn [index nth_error length].
    erewrite comprehension_ext; [rewrite (IH l2)|reflexivity].
    cbn [Nat.leb]. destruct (length l1 <=? length l2)%nat; reflexivity.
Qed.

(** X12.  grad_mapzip raises IndexError exactly when the second gradient
    has fewer layer entries or fewer weight entries than the first.
    Otherwise it zips the entries by the indices of the first gradient:
    the result has the entry counts of the first, and surplus entries of
    the second are ignored. *)
Theorem grad_mapzip_raises_on_a_shorter_second_gradient
  (Func : Type)
  (be_mapzip_l : Func -> option tensor -> option tensor -> option tensor)
  (be_mapzip_w : Func -> option matrix -> option matrix -> option matrix)
  (func : Func) (grad1 grad2 : Gradient) :
  let out := grad_mapzip Func be_mapzip_l be_mapzip_w func grad1 grad2 in
  (out = inl IndexError <->
   shorter (layers grad2) (layers grad1) \/
   shorter (weights grad2) (weights grad1)) /\
  (~ shorter (layers grad2) (layers grad1) ->
   ~ shorter (weights grad2) (weights grad1) ->
   out = inr (mkGradient
                (map2 (be_mapzip_l func) (layers grad1) (layers grad2))
                (map2 (be_mapzip_w func) (weights grad1) (weights grad2)))) /\
  (forall grad, out = inr grad ->
     length (layers grad) = length (layers grad1) /\
     length (weights grad) = length (weights grad1)).
Proof.
  intros out. subst out. unfold grad_mapzip, shorter.
  rewrite !comprehension_zip.
  destruct (Nat.leb_spec (length (layers grad1)) (length (layers grad2)))
    as [Hl | Hl];
    [destruct (Nat.leb_spec (length (weights grad1)) (length (weights grad2)))
       as [Hw | Hw]|].
  - split; [split; [discriminate | lia]|]. split; [reflexivity|].
    intros grad E. injection E as <-. cbn [layers weights].
    rewrite !map2_length. lia.
  - split; [split; [lia | reflexivity]|]. split; [lia | discriminate].
  - split; [split; [lia | reflexivity]|]. split; [lia | discriminate].
Qed.

Lemma set_nth_app {A : Type} (pre : list A) (x z : A) (xs : list A) :
  set_nth (length pre) z (pre ++ x :: xs) = pre ++ z :: xs.
Proof. induction pre as [| p pre IH]; cbn; [reflexivity | rewrite IH; reflexivity]. Qed.

Lemma index_app {A : Type} (pre : list A) (xs : list A) :
  index (pre ++ xs) (length pre) = index xs 0.
Proof.
  unfold index. rewrite nth_error_app2 by lia. rewrite Nat.sub_diag. reflexivity.
Qed.

Lemma mapzip_loop_spec {A : Type} (f : A -> A -> A) (xs ys pre ypre : list A) :
  length ypre = length pre ->
  mapzip_loop_ f (seq (length pre) (length xs)) (pre ++ xs) (ypre ++ ys)
  = (if (length xs <=? length ys)%nat then None else Some IndexError,
     pre ++ map2 f xs ys ++ skipn (length ys) xs).
Proof.
  revert ys pre ypre. induction xs as [| x xs IH]; intros ys pre ypre Hl.
  - cbn. destruct (length ys); reflexivity.
  - cbn [length seq mapzip_loop_]. rewrite index_app. cbn [index nth_error].
    rewrite <- Hl, index_app, Hl. destruct ys as [| y ys].
    + reflexivity.
    + cbn [index nth_error]. rewrite set_nth_app.
      change (pre ++ f x y :: xs) with (pre ++ [f x y] ++ xs).
      change (ypre ++ y :: ys) with (ypre ++ [y] ++ ys).
      rewrite !app_assoc.
      replace (S (length pre)) with (length (pre ++ [f x y]))
        by (rewrite length_app; cbn; lia).
      rewrite IH by (rewrite !length_app; cbn; lia).
      cbn [length Nat.leb map2 skipn]. rewrite <- !app_assoc. reflexivity.
Qed.

(** X13.  grad_mapzip_ ends with IndexError exactly when the second
    gradient is shorter in layers or in weights, and by then it has already
    changed the first gradient: the layer entries that have a partner are
    updated, the others are not, and the weight entries are updated in the
    same way only when no layer entry lacked a partner. *)
Theorem grad_mapzip_inplace_stops_midway
  (Func : Type)
  (be_mapzip_l_ : Func -> option tensor -> option tensor -> option tensor)
  (be_mapzip_w_ : Func -> option matrix -> option matrix -> option matrix)
  (func_ : Func) (grad1 grad2 : Gradient) :
  let out := grad_mapzip_ Func be_mapzip_l_ be_mapzip_w_ func_ grad1 grad2 in
  let short_l := (length (layers grad2) <? length (layers grad1))%nat in
  let short_w := (length (weights grad2) <? length (weights grad1))%nat in
  fst out = (if short_l || short_w then Some IndexError else None) /\
  layers (snd out)
    = map2 (be_mapzip_l_ func_) (layers grad1) (layers grad2)
      ++ skipn (length (layers grad2)) (layers grad1) /\
  weights (snd out)
    = if short_l then weights grad1
      else map2 (be_mapzip_w_ func_) (weights grad1) (weights grad2)
           ++ skipn (length (weights grad2)) (weights grad1).
Proof.
  intros out short_l short_w. subst out short_l short_w. unfold grad_mapzip_.
  rewrite (mapzip_loop_spec _ (layers grad1) (layers grad2) [] [] eq_refl).
  rewrite (mapzip_loop_spec _ (weights grad1) (weights grad2) [] [] eq_refl).
  cbn [app].
  destruct (Nat.leb_spec (length (layers grad1)) (length (layers grad2)))
    as [Hl | Hl];
    destruct (Nat.ltb_spec (length (layers grad2)) (length (layers grad1)))
      as [Hl' | Hl']; try lia; cbn [orb fst snd layers weights].
  - destruct (Nat.leb_spec (length (weights grad1)) (length (weights grad2)))
      as [Hw | Hw];
      destruct (Nat.ltb_spec (length (weights grad2)) (length (weights grad1)))
        as [Hw' | Hw']; try lia; repeat split; reflexivity.
  - repeat split; reflexivity.
Qed.

Lemma tsum_square_nonneg (x : tensor) : 0 <= tsum (square x).
Proof.
  unfold tsum, square. induction x as [| t x IH]; cbn; [lra|]. nra.
Qed.

Lemma tsum_m_square_nonneg (w : matrix) : 0 <= tsum_m (square_m w).
Proof.
  unfold tsum_m, square_m. induction w as [| r w IH]; cbn; [lra|].
  pose proof (tsum_square_nonneg r). unfold tsum in *. lra.
Qed.

Lemma mean_square_nonneg (x : tensor) : 0 <= mean (square x).
Proof.
  unfold mean. apply Rmult_le_pos; [apply tsum_square_nonneg|].
  destruct (length (square x)) as [| n].
  - cbn. rewrite Rinv_0. lra.
  - left. apply Rinv_0_lt_compat, lt_0_INR. lia.
Qed.

Lemma mean_m_square_nonneg (w : matrix) : 0 <= mean_m (square_m w).
Proof.
  unfold mean_m. apply Rmult_le_pos; [apply tsum_m_square_nonneg|].
  destruct (length (concat (square_m w))) as [| n].
  - cbn. rewrite Rinv_0. lra.
  - left. apply Rinv_0_lt_compat, lt_0_INR. lia.
Qed.

Lemma math_sqrt_nonneg (x : R) : 0 <= x -> math_sqrt x = inr (sqrt x).
Proof.
  intros Hx. unfold math_sqrt. destruct (Rlt_dec x 0); [lra | reflexivity].
Qed.

Lemma quotient_nonneg (x : R) (n : nat) : 0 <= x -> 0 <= x / INR n.
Proof.
  intros Hx. apply Rmult_le_pos; [exact Hx|].
  destruct n as [| n].
  - cbn. rewrite Rinv_0. lra.
  - left. apply Rinv_0_lt_compat, lt_0_INR. lia.
Qed.

(** What [grad_accumulate] leaves for the mean of squares on a filled
    gradient: the value of the last entry. *)
Lemma grad_accumulate_mean_square
  (be_accumulate_l : callable -> option tensor -> R)
  (be_accumulate_w : callable -> option matrix -> R)
  (ls : list tensor) (ws : list matrix) :
  accumulate_filled be_accumulate_l be_accumulate_w ->
  grad_accumulate callable be_accumulate_l be_accumulate_w tensor_mean_square
    (mkGradient (map Some ls) (map Some ws))
  = match rev ws, rev ls with
    | w :: _, _ => mean_m (square_m w)
    | [], t :: _ => mean (square t)
    | [], [] => 0
    end.
Proof.
  intros [Hl Hw]. unfold grad_accumulate. cbn [layers weights].
  rewrite !fold_left_overwrite, <- !map_rev.
  destruct (rev ws) as [| w rw]; cbn [map].
  - destruct (rev ls) as [| t rl]; cbn [map]; [reflexivity|]. apply Hl.
  - apply Hw.
Qed.

(** X14.  With a backend whose accumulate returns on a filled entry what
    the callable returns on its tensor, on a gradient whose entries are all
    filled: grad_magnitude raises ZeroDivisionError exactly when there is
    no entry, and it never raises a math domain error, since what it
    accumulates is a mean of squares.  With entries it returns the square
    root of the mean square of the last weight entry alone (of the last
    layer entry when there are no weights) over the number of all entries:
    the other entries do not count. *)
Theorem grad_magnitude_is_the_rms_of_the_last_entry
  (be_accumulate_l : callable -> option tensor -> R)
  (be_accumulate_w : callable -> option matrix -> R)
  (ls : list tensor) (ws : list matrix) :
  accumulate_filled be_accumulate_l be_accumulate_w ->
  let grad := mkGradient (map Some ls) (map Some ws) in
  let out := grad_magnitude callable be_accumulate_l be_accumulate_w
               tensor_mean_square grad in
  let n := (length ls + length ws)%nat in
  (out = inl ZeroDivisionError <-> ls = [] /\ ws = []) /\
  out <> inl MathDomainError /\
  (forall ws' w, ws = ws' ++ [w] ->
     out = inr (sqrt (mean_m (square_m w) / INR n))) /\
  (forall ls' t, ws = [] -> ls = ls' ++ [t] ->
     out = inr (sqrt (mean (square t) / INR n))).
Proof.
  intros Hacc grad out n.
  pose proof (grad_accumulate_mean_square be_accumulate_l be_accumulate_w
                ls ws Hacc) as Et.
  fold grad in Et.
  assert (Hout : out = if (n =? 0)%nat then inl ZeroDivisionError
                       else math_sqrt
                              (grad_accumulate callable be_accumulate_l
                                 be_accumulate_w tensor_mean_square grad
                               / INR n)).
  { subst out n. unfold grad_magnitude. subst grad. cbn [layers weights].
    rewrite !length_map. reflexivity. }
  assert (Hpos : 0 <= grad_accumulate callable be_accumulate_l
                        be_accumulate_w tensor_mean_square grad).
  { rewrite Et. destruct (rev ws) as [| w rw].
    - destruct (rev ls) as [| t rl]; [lra | apply mean_square_nonneg].
    - apply mean_m_square_nonneg. }
  rewrite Hout. clear Hout.
  destruct (Nat.eqb_spec n 0) as [E | E].
  - assert (ls = [] /\ ws = []) as [-> ->].
    { subst n. destruct ls, ws; cbn in E; try lia; auto. }
    split; [tauto|]. split; [discriminate|]. split.
    + intros ws' w H. destruct ws'; discriminate.
    + intros ls' t _ H. destruct ls'; discriminate.
  - rewrite math_sqrt_nonneg by (apply quotient_nonneg, Hpos).
    split; [split; [discriminate|]|].
    { intros [-> ->]. subst n. cbn in E. lia. }
    split; [discriminate|]. split.
    + intros ws' w ->. rewrite Et, rev_app_distr. reflexivity.
    + intros ls' t -> ->. rewrite Et, rev_app_distr. reflexivity.
Qed.

(** X14 on a gradient with two layer entries and one weight entry: the
    layer entries do not count. *)
Lemma grad_magnitude_is_the_rms_of_the_last_entry_witness :
  let be_accumulate_l (func : callable) (ly : option tensor) :=
    match ly with Some t => on_tensor func t | None => 0 end in
  let be_accumulate_w (func : callable) (w : option matrix) :=
    match w with Some x => on_matrix func x | None => 0 end in
  grad_magnitude callable be_accumulate_l be_accumulate_w tensor_mean_square
    (mkGradient [Some [3]; Some [0]] [Some [[1; 1]]])
  = inr (sqrt (mean_m (square_m [[1; 1]]) / INR 3)).
Proof.
  intros be_accumulate_l be_accumulate_w.
  destruct (grad_magnitude_is_the_rms_of_the_last_entry
              be_accumulate_l be_accumulate_w [[3]; [0]] [[[1; 1]]])
    as (_ & _ & H & _).
  - split; intros; reflexivity.
  - exact (H [] [[1; 1]] eq_refl).
Defined.

(** ** The metrics *)

Lemma tsum_app (x y : tensor) : tsum (x ++ y) = tsum x + tsum y.
Proof. unfold tsum. induction x as [| t x IH]; cbn; [lra | rewrite IH; lra]. Qed.

Lemma ReconstructionError_fold (bs : list MetricState)
  (self : ReconstructionError.t) :
  fold_left ReconstructionError.update bs self =
    ReconstructionError.mk
      (ReconstructionError.mean_square_error self + tsum (map squared_error bs))
      (ReconstructionError.norm self
       + list_sum (map (fun b => length (minibatch b)) bs)).
Proof.
  revert self. induction bs as [| b bs IH]; intros self.
  - destruct self. cbn. f_equal; [lra | lia].
  - cbn [fold_left]. rewrite IH. unfold ReconstructionError.update.
    cbn [ReconstructionError.mean_square_error ReconstructionError.norm map
         list_sum tsum fold_right].
    fold (squared_error b). f_equal; [unfold tsum; lra | unfold list_sum; lia].
Qed.

(** X15.  After any sequence of updates from a fresh or reset
    ReconstructionError, value is None when no row was seen and otherwise
    the square root of the summed squared error of all batches over the
    number of all rows; it never raises, and reset brings back None. *)
Theorem ReconstructionError_is_the_rms_over_all_rows (bs : list MetricState) :
  let self := fold_left ReconstructionError.update bs ReconstructionError.init in
  let rows := list_sum (map (fun b => length (minibatch b)) bs) in
  let total := tsum (map squared_error bs) in
  ReconstructionError.norm self = rows /\
  ReconstructionError.mean_square_error self = total /\
  0 <= total /\
  (rows = 0%nat -> ReconstructionError.value self = inr None) /\
  (rows <> 0%nat ->
   ReconstructionError.value self = inr (Some (sqrt (total / INR rows)))) /\
  ReconstructionError.value (ReconstructionError.reset self) = inr None.
Proof.
  intros self rows total. subst self.
  rewrite ReconstructionError_fold.
  cbn [ReconstructionError.init ReconstructionError.mean_square_error
       ReconstructionError.norm]. fold rows total.
  assert (Ht : 0 <= total).
  { subst total. clear rows. induction bs as [| b bs IH]; cbn; [lra|].
    pose proof (tsum_m_square_nonneg
                  (subtract_m (minibatch b) (reconstructions b))).
    unfold squared_error at 1. unfold tsum in IH. lra. }
  split; [reflexivity|]. split; [lra|]. split; [exact Ht|].
  unfold ReconstructionError.value.
  cbn [ReconstructionError.mean_square_error ReconstructionError.norm].
  change (0 + rows)%nat with rows.
  split; [|split].
  - intros ->. reflexivity.
  - intros Hr. destruct (Nat.eqb_spec rows 0) as [E | _]; [contradiction|].
    unfold math_sqrt.
    assert (0 <= (0 + total) / INR rows).
    { apply Rmult_le_pos; [lra|]. left. apply Rinv_0_lt_compat, lt_0_INR. lia. }
    destruct (Rlt_dec _ 0); [lra|]. do 3 f_equal. lra.
  - reflexivity.
Qed.

Lemma EnergyDistance_fold (fed : matrix -> matrix -> Z -> R)
  (bs : list MetricState) (self : EnergyDistance.t) :
  fold_left (EnergyDistance.update fed) bs self =
    EnergyDistance.mk
      (EnergyDistance.energy_distance self
       + tsum (map (fun b => fed (minibatch b) (samples b)
                                 (EnergyDistance.downsample self)) bs))
      (EnergyDistance.norm self + length bs)
      (EnergyDistance.downsample self).
Proof.
  revert self. induction bs as [| b bs IH]; intros self.
  - destruct self. cbn. f_equal; [lra | lia].
  - cbn [fold_left]. rewrite IH. unfold EnergyDistance.update.
    cbn [EnergyDistance.energy_distance EnergyDistance.norm
         EnergyDistance.downsample map length tsum fold_right].
    f_equal; [unfold tsum; lra | lia].
Qed.

(** X16.  EnergyDistance ignores the downsample argument of its
    constructor: every update calls the backend with downsample 100.
    After updates value is the mean of the per-update distances, and None
    before the first update and after reset. *)
Theorem EnergyDistance_averages_with_downsample_100
  (fast_energy_distance : matrix -> matrix -> Z -> R) (downsample : Z)
  (bs : list MetricState) :
  let self := fold_left (EnergyDistance.update fast_energy_distance) bs
                (EnergyDistance.init downsample) in
  let total :=
    tsum (map (fun b => fast_energy_distance (minibatch b) (samples b) 100%Z) bs) in
  EnergyDistance.downsample self = 100%Z /\
  EnergyDistance.norm self = length bs /\
  EnergyDistance.energy_distance self = total /\
  (bs = [] -> EnergyDistance.value self = None) /\
  (bs <> [] -> EnergyDistance.value self = Some (total / INR (length bs))) /\
  EnergyDistance.value (EnergyDistance.reset self) = None.
Proof.
  intros self total. subst self. rewrite EnergyDistance_fold.
  cbn [EnergyDistance.init EnergyDistance.energy_distance EnergyDistance.norm
       EnergyDistance.downsample]. fold total.
  unfold EnergyDistance.value.
  cbn [EnergyDistance.energy_distance EnergyDistance.norm
       EnergyDistance.reset Nat.eqb].
  change (0 + length bs)%nat with (length bs).
  split; [reflexivity|]. split; [reflexivity|]. split; [lra|].
  split; [|split; [|reflexivity]].
  - intros ->. reflexivity.
  - intros Hne. destruct bs as [| b bs]; [congruence|].
    cbn [length Nat.eqb]. do 2 f_equal. lra.
Qed.

Lemma EnergyGap_fold (F : TAP_rbm -> matrix -> tensor)
  (bs : list MetricState) (self : EnergyGap.t) :
  fold_left (EnergyGap.update F) bs self =
    EnergyGap.mk
      (EnergyGap.energy_gap self
       + tsum (map (fun b => mean (F (amodel b) (minibatch b))
                             - mean (F (amodel b) (random_samples b))) bs))
      (EnergyGap.norm self + length bs).
Proof.
  revert self. induction bs as [| b bs IH]; intros self.
  - destruct self. cbn. f_equal; [lra | lia].
  - cbn [fold_left]. rewrite IH. unfold EnergyGap.update.
    cbn [EnergyGap.energy_gap EnergyGap.norm map length tsum fold_right].
    f_equal; [unfold tsum; lra | lia].
Qed.

Lemma tsum_opp (x : list R) : tsum (map Ropp x) = - tsum x.
Proof. unfold tsum. induction x as [| t x IH]; cbn; [lra | rewrite IH; lra]. Qed.

(** X17.  After updates EnergyGap's value is the mean over the updates of
    the mean free energy of the data minus that of the random samples, None
    without updates; exchanging data and random samples in every update
    negates the value. *)
Theorem EnergyGap_averages_and_changes_sign
  (marginal_free_energy : TAP_rbm -> matrix -> tensor)
  (bs : list MetricState) :
  let F := marginal_free_energy in
  let self := fold_left (EnergyGap.update F) bs EnergyGap.init in
  let flipped := fold_left (EnergyGap.update F) (map exchanged bs)
                   EnergyGap.init in
  let total :=
    tsum (map (fun b => mean (F (amodel b) (minibatch b))
                        - mean (F (amodel b) (random_samples b))) bs) in
  (bs = [] -> EnergyGap.value self = None) /\
  (bs <> [] -> EnergyGap.value self = Some (total / INR (length bs))) /\
  EnergyGap.value flipped = option_map Ropp (EnergyGap.value self).
Proof.
  intros F self flipped total. subst self flipped.
  rewrite !EnergyGap_fold.
  cbn [EnergyGap.init EnergyGap.energy_gap EnergyGap.norm].
  rewrite length_map, map_map. fold total.
  assert (Ef : tsum (map (fun b => mean (F (amodel (exchanged b))
                                          (minibatch (exchanged b)))
                                   - mean (F (amodel (exchanged b))
                                             (random_samples (exchanged b))))
                         bs) = - total).
  { subst total. rewrite <- tsum_opp, map_map. f_equal.
    apply map_ext. intros b. cbn [exchanged amodel minibatch random_samples].
    lra. }
  rewrite Ef. unfold EnergyGap.value.
  cbn [EnergyGap.energy_gap EnergyGap.norm].
  change (0 + length bs)%nat with (length bs).
  split; [|split].
  - intros ->. reflexivity.
  - intros Hne. destruct bs as [| b bs]; [congruence|].
    cbn [length Nat.eqb]. do 2 f_equal. lra.
  - destruct bs as [| b bs]; [reflexivity|].
    cbn [length Nat.eqb option_map]. f_equal. unfold Rdiv. lra.
Qed.

Lemma EnergyZscore_fold (F : TAP_rbm -> matrix -> tensor)
  (bs : list MetricState) (self : EnergyZscore.t) :
  fold_left (EnergyZscore.update F) bs self =
    EnergyZscore.mk
      (EnergyZscore.data_mean self
       + tsum (map (fun b => mean (F (amodel b) (minibatch b))) bs))
      (EnergyZscore.random_mean self
       + tsum (map (fun b => mean (F (amodel b) (random_samples b))) bs))
      (EnergyZscore.random_mean_square self
       + tsum (map (fun b => mean (square (F (amodel b) (random_samples b))))
                   bs)).
Proof.
  revert self. induction bs as [| b bs IH]; intros self.
  - destruct self. cbn. f_equal; lra.
  - cbn [fold_left]. rewrite IH. unfold EnergyZscore.update.
    cbn [EnergyZscore.data_mean EnergyZscore.random_mean
         EnergyZscore.random_mean_square map tsum fold_right].
    f_equal; unfold tsum; lra.
Qed.

(** X18.  After any sequence of updates from a fresh EnergyZscore the
    accumulated random_mean_square is not negative, so value never raises:
    it is None when that sum is 0 and otherwise the difference of the
    accumulated means over the square root of that sum. *)
Theorem EnergyZscore_never_raises
  (marginal_free_energy : TAP_rbm -> matrix -> tensor)
  (bs : list MetricState) :
  let F := marginal_free_energy in
  let self := fold_left (EnergyZscore.update F) bs EnergyZscore.init in
  let d := tsum (map (fun b => mean (F (amodel b) (minibatch b))) bs) in
  let r := tsum (map (fun b => mean (F (amodel b) (random_samples b))) bs) in
  let q := tsum (map (fun b => mean (square (F (amodel b) (random_samples b))))
                     bs) in
  0 <= q /\
  EnergyZscore.random_mean_square self = q /\
  (q = 0 -> EnergyZscore.value self = inr None) /\
  (q <> 0 -> EnergyZscore.value self = inr (Some ((d - r) / sqrt q))).
Proof.
  intros F self d r q. subst self. rewrite EnergyZscore_fold.
  cbn [EnergyZscore.init EnergyZscore.data_mean EnergyZscore.random_mean
       EnergyZscore.random_mean_square]. fold d r q.
  assert (Hq : 0 <= q).
  { subst q. clear d r. induction bs as [| b bs IH]; cbn; [lra|].
    pose proof (mean_square_nonneg (F (amodel b) (random_samples b))).
    unfold tsum in IH. lra. }
  split; [exact Hq|]. split; [lra|].
  unfold EnergyZscore.value.
  cbn [EnergyZscore.data_mean EnergyZscore.random_mean
       EnergyZscore.random_mean_square].
  replace (0 + q) with q by lra. replace (0 + d) with d by lra.
  replace (0 + r) with r by lra.
  split.
  - intros E. destruct (Req_dec_T q 0); [reflexivity | contradiction].
  - intros E. destruct (Req_dec_T q 0); [contradiction|].
    unfold math_sqrt. destruct (Rlt_dec q 0); [lra | reflexivity].
Qed.

Lemma heat_capacity_generator (self : TAP_rbm) (init_lr tol : R)
  (max_iters : Z) (g : rng) (k : nat) :
  snd (heat_capacity self None init_lr tol max_iters g) k
  = g (length (layers_0 self) + length (layers_1 self) + k)%nat.
Proof.
  unfold heat_capacity, random_seed, rand. cbn [snd]. f_equal. lia.
Qed.

(** X19.  A fresh HeatCapacity has value 0 and downsample 100 whatever its
    constructor was given; every update adds the model's heat_capacity for
    a drawn seed with learning rate 0.01, tolerance 1e-4 and 20 passes, and
    a run of updates leaves the generator further by the number of units
    of the model of every update. *)
Theorem HeatCapacity_updates_sum_and_draw
  (downsample : Z) (bs : list MetricState) (g : rng) :
  let self0 := HeatCapacity.init downsample in
  let out := heat_capacity_updates self0 bs g in
  HeatCapacity.value self0 = 0 /\
  HeatCapacity.downsample (fst out) = 100%Z /\
  (forall k, snd out k = g (list_sum (map seed_draws bs) + k)%nat) /\
  (forall b,
     HeatCapacity.value (fst (HeatCapacity.update (fst out) b (snd out)))
     = HeatCapacity.value (fst out)
       + fst (heat_capacity (amodel b) None 0.01 1e-4 20 (snd out))).
Proof.
  intros self0 out. split; [reflexivity|].
  assert (Hgen : forall bs self g,
             HeatCapacity.downsample (fst (heat_capacity_updates self bs g))
               = HeatCapacity.downsample self /\
             forall k, snd (heat_capacity_updates self bs g) k
                       = g (list_sum (map seed_draws bs) + k)%nat).
  { clear. induction bs as [| b bs IH]; intros self g.
    - split; reflexivity.
    - cbn [heat_capacity_updates]. unfold HeatCapacity.update.
      unfold amodel_heat_capacity.
      destruct (heat_capacity (amodel b) None 0.01 1e-4 20 g) as [c g1] eqn:E.
      destruct (IH (HeatCapacity.mk (HeatCapacity.heat_capacity self + c)
                      (HeatCapacity.downsample self)) g1) as [Hd Hk].
      split; [exact Hd|]. intros k. rewrite Hk.
      pose proof (heat_capacity_generator (amodel b) 0.01 1e-4 20 g
                    (list_sum (map seed_draws bs) + k)) as Hg.
      rewrite E in Hg. cbn [snd] in Hg. rewrite Hg.
      f_equal. cbn [map]. unfold list_sum. cbn [fold_right].
      unfold seed_draws. lia. }
  destruct (Hgen bs self0 g) as [Hd Hk]. fold out in Hd, Hk.
  split; [exact Hd|]. split; [exact Hk|].
  intros b. unfold HeatCapacity.update, amodel_heat_capacity.
  destruct (heat_capacity (amodel b) None 0.01 1e-4 20 (snd out)) as [c g1].
  reflexivity.
Qed.
